(** * PIPE: empirical PSF photometry core

  A shallow embedding of the three source files of the repository

    - [syntstar.py]   synthetic images of catalogued background stars,
    - [psf_worker.py] robust spline fit of the PSF surface,
    - [pipe/psf.py]   single-source and binary PSF fitters,

  together with the properties their specification states about them.

  Conventions.  A numpy [float64] array is a [list]; a two-dimensional
  array is the list of its rows.  Python exceptions are the [Raise]
  results of [Py.result].  In [Syntstar] and [PsfWorker] floats are read
  as real numbers (the specification's "exact over real arithmetic");
  [Psf] is generic in its arithmetic, with a real and an IEEE binary64
  instance, because two of its properties are about NaN. *)

From Stdlib Require Import ZArith List Bool Reals Lra Lia.
From Stdlib Require Import Floats.SpecFloat.
From Stdlib Require String.
Import String.StringSyntax.
Import ListNotations.

(** ** Python and numpy idioms shared by the three files *)

Module Py.

Inductive exn : Type :=
| IndexError
| ValueError
| UnboundLocalError
| LinAlgError.

Inductive result (A : Type) : Type :=
| Ok (a : A)
| Raise (e : exn).
Arguments Ok {A} a.
Arguments Raise {A} e.

Definition bind {A B} (c : result A) (k : A -> result B) : result B :=
  match c with
  | Ok a => k a
  | Raise e => Raise e
  end.

Declare Scope py_scope.
Delimit Scope py_scope with py.
Notation "x <- c ;; k" := (bind c (fun x => k))
  (at level 61, c at next level, right associativity) : py_scope.

(** [l[i]]: a negative index counts from the end. *)
Definition getitem {A} (l : list A) (i : Z) : result A :=
  let len := Z.of_nat (length l) in
  let k := if (i <? 0)%Z then (i + len)%Z else i in
  if ((0 <=? k) && (k <? len))%Z
  then match nth_error l (Z.to_nat k) with
       | Some a => Ok a
       | None => Raise IndexError
       end
  else Raise IndexError.

(** Where a slice bound lands in a sequence of length [len]. *)
Definition clamp_index (len i : Z) : Z :=
  if (i <? 0)%Z then Z.max (i + len) 0 else Z.min i len.

(** [l[lo:hi]]. *)
Definition slice {A} (l : list A) (lo hi : Z) : list A :=
  let len := Z.of_nat (length l) in
  let a := clamp_index len lo in
  let b := clamp_index len hi in
  firstn (Z.to_nat (b - a)) (skipn (Z.to_nat a) l).

(** [range(lo, hi)]. *)
Definition range (lo hi : Z) : list Z :=
  map (fun k => (lo + Z.of_nat k)%Z) (seq 0 (Z.to_nat (hi - lo))).

(** Elementwise combination of two arrays of one shape. *)
Fixpoint map2 {A B C} (f : A -> B -> C) (l : list A) (m : list B) : list C :=
  match l, m with
  | a :: l', b :: m' => f a b :: map2 f l' m'
  | _, _ => []
  end.

(** [l[k : k + len(m)] op= m] for a slice that lies inside [l]. *)
Fixpoint update_from {A B} (f : A -> B -> A) (k : nat) (l : list A)
  (m : list B) : list A :=
  match l with
  | [] => []
  | x :: l' =>
      match k with
      | S k' => x :: update_from f k' l' m
      | O => match m with
             | [] => x :: l'
             | y :: m' => f x y :: update_from f O l' m'
             end
      end
  end.

(** [img[r][c]] where the pixel exists. *)
Definition getpix {A} (img : list (list A)) (r c : nat) : option A :=
  match nth_error img r with
  | Some row => nth_error row c
  | None => None
  end.

(** [img.shape == shp]. *)
Definition has_shape {A} (shp : nat * nat) (img : list (list A)) : Prop :=
  length img = fst shp /\ Forall (fun row => length row = snd shp) img.

End Py.

Import Py.
Local Open Scope py_scope.

(** ** numpy over the reals, shared by syntstar.py and psf_worker.py *)

Module Np.

Local Open Scope R_scope.

(** [int(x)]: truncation towards zero. *)
Definition int (x : R) : Z :=
  if Rle_dec 0 x then Int_part x else (- Int_part (- x))%Z.

Definition arange (n : nat) : list R := map INR (seq 0 n).

(** [np.linspace(start, stop, num)], end point included. *)
Definition linspace (start stop : R) (num : Z) : result (list R) :=
  if (num <? 0)%Z then Raise ValueError
  else if (num =? 1)%Z then Ok [start]
  else
    let step := (stop - start) / IZR (num - 1) in
    Ok (map (fun k => start + INR k * step) (seq 0 (Z.to_nat num))).

(** [a[sel]] for a boolean mask [sel]. *)
Fixpoint compress {A} (sel : list bool) (a : list A) : list A :=
  match sel, a with
  | b :: sel', x :: a' => if b then x :: compress sel' a' else compress sel' a'
  | _, _ => []
  end.

Definition np_sum (l : list R) : R := fold_left Rplus l 0.

Definition np_mean (l : list R) : R := np_sum l / INR (length l).

(** [np.std]: the population standard deviation. *)
Definition np_std (l : list R) : R :=
  let mu := np_mean l in
  sqrt (np_mean (map (fun v => Rabs (v - mu) * Rabs (v - mu)) l)).

(** [np.max]; raises on an empty array. *)
Definition np_max (l : list R) : result R :=
  match l with
  | [] => Raise ValueError
  | v :: l' => Ok (fold_left Rmax l' v)
  end.

Fixpoint insert (v : R) (l : list R) : list R :=
  match l with
  | [] => [v]
  | u :: l' => if Rle_dec v u then v :: l else u :: insert v l'
  end.

Definition sort (l : list R) : list R := fold_right insert [] l.

(** [np.nanmedian]; every real is a number, so this is the median.  On an
    empty array numpy gives NaN, rendered here as 0. *)
Definition nanmedian (l : list R) : R :=
  let s := sort l in
  let n := length s in
  if Nat.even n
  then (nth (n / 2 - 1) s 0 + nth (n / 2) s 0) / 2
  else nth (n / 2) s 0.

End Np.

Import Np.

(** ** syntstar.py *)

Module Syntstar.

Local Open Scope R_scope.

Definition image_t := list (list R).

(** The four catalogue columns are the same prefix [[:N]] of one table,
    so the catalogue is the list of its rows. *)
Record star := { xpos : R; ypos : R; fscale : R; Teff : R }.

Record star_bg := {
  pxl_scl : R;
  cat : list star;
  shape : nat * nat
}.

Definition catsize (self : star_bg) : Z := Z.of_nat (length (cat self)).

Definition deg2rad (d : R) : R := d * (PI / 180).
Definition rad2deg (r : R) : R := r * (180 / PI).

Definition rotate_position (x y rolldeg : R) : R * R :=
  let rollrad := deg2rad rolldeg in
  let cosa := cos rollrad in
  let sina := sin rollrad in
  let xroll := x * cosa + y * sina in
  let yroll := - x * sina + y * cosa in
  (xroll, yroll).

Definition derotate_position (xroll yroll rolldegs : R) : R * R :=
  rotate_position xroll yroll (- rolldegs).

(** [rotate_position] applied to the two position columns. *)
Definition rotate_cat (self : star_bg) (rolldeg : R) : list R * list R :=
  let p := map (fun s => rotate_position (xpos s) (ypos s) rolldeg) (cat self) in
  (map fst p, map snd p).

Definition rotate_entry (self : star_bg) (entry : Z) (rolldeg : R)
  : result (R * R) :=
  s <- getitem (cat self) entry ;;
  Ok (rotate_position (xpos s) (ypos s) rolldeg).

Definition zeros (shp : nat * nat) : image_t :=
  repeat (repeat 0 (snd shp)) (fst shp).

(** The PSF-function contract: a surface sampled on the grid spanned by
    a vector of row offsets and a vector of column offsets. *)
Definition psf_t := R -> R -> R.

Definition grid (psf_fun : psf_t) (ddy ddx : list R) : image_t :=
  map (fun y => map (fun x => psf_fun y x) ddx) ddy.

Definition meshgrid (xs ys : list R) : image_t * image_t :=
  (map (fun _ => xs) ys, map (fun y => map (fun _ => y) xs) ys).

(** Brightness tier of a star, lines 98-103. *)
Definition psf_radius (fs : R) (max_psf_rad : Z) : Z :=
  if Rgt_dec fs (1 / 10) then Z.min 70 max_psf_rad
  else if Rgt_dec fs (1 / 1000) then Z.min 50 max_psf_rad
  else Z.min 30 max_psf_rad.

(** [psf_mat[xmat**2 + ymat**2 > psf_rad**2] = 0]. *)
Definition zero_outside (xmat ymat : image_t) (psf_rad : Z)
  (psf_mat : image_t) : image_t :=
  let far := map2 (map2 (fun x y =>
               if Rgt_dec (x * x + y * y) (IZR (psf_rad * psf_rad))
               then true else false)) xmat ymat in
  map2 (map2 (fun (b : bool) v => if b then 0 else v)) far psf_mat.

(** [ret_img[j0:j1, i0:i1] += m]. *)
Definition add_at (ret_img : image_t) (j0 i0 : Z) (m : image_t) : image_t :=
  update_from (fun row mrow => update_from Rplus (Z.to_nat i0) row mrow)
    (Z.to_nat j0) ret_img m.

(** One pass of the loop over [id_range], lines 95-126. *)
Definition draw_star (self : star_bg) (dx dy : list R) (x0 y0 : R)
  (psf_fun : psf_t) (shp : nat * nat) (limflux : R) (max_psf_rad : Z)
  (ret_img : image_t) (n : Z) : result image_t :=
  let xcoo := map (fun c => c - x0) (arange (snd shp)) in
  let ycoo := map (fun r => r - y0) (arange (fst shp)) in
  fs <- getitem (map fscale (cat self)) n ;;
  if Rlt_dec fs limflux then Ok ret_img else
  let psf_rad := psf_radius fs max_psf_rad in
  dxn <- getitem dx n ;;
  let i := int (x0 + dxn) in
  let i0 := (i - psf_rad)%Z in
  if (i0 >=? Z.of_nat (snd shp))%Z then Ok ret_img else
  let i1 := (i + psf_rad)%Z in
  if (i1 <=? 0)%Z then Ok ret_img else
  let i0 := Z.max i0 0 in
  let i1 := Z.min i1 (Z.of_nat (snd shp)) in
  dyn <- getitem dy n ;;
  let j := int (y0 + dyn) in
  let j0 := (j - psf_rad)%Z in
  if (j0 >=? Z.of_nat (fst shp))%Z then Ok ret_img else
  let j1 := (j + psf_rad)%Z in
  if (j1 <=? 0)%Z then Ok ret_img else
  let j0 := Z.max j0 0 in
  let j1 := Z.min j1 (Z.of_nat (fst shp)) in
  let ddx := map (fun v => v - dxn) (slice xcoo i0 i1) in
  let ddy := map (fun v => v - dyn) (slice ycoo j0 j1) in
  let psf_mat := grid psf_fun ddy ddx in
  let '(xmat, ymat) := meshgrid ddx ddy in
  let psf_mat := zero_outside xmat ymat psf_rad psf_mat in
  Ok (add_at ret_img j0 i0 (map (map (Rmult fs)) psf_mat)).

Fixpoint draw_all (step : image_t -> Z -> result image_t)
  (ids : list Z) (ret_img : image_t) : result image_t :=
  match ids with
  | [] => Ok ret_img
  | n :: rest => img <- step ret_img n ;; draw_all step rest img
  end.

Definition image (self : star_bg) (x0 y0 rolldeg : R) (psf_fun : psf_t)
  (shp : option (nat * nat)) (target : Z) (limflux : R)
  (single_id : option Z) (max_psf_rad : Z) : result image_t :=
  let shp := match shp with None => shape self | Some s => s end in
  let '(dx, dy) := rotate_cat self rolldeg in
  let ret_img := zeros shp in
  let id_range := match single_id with
                  | None => range target (catsize self)
                  | Some k => [k]
                  end in
  draw_all (draw_star self dx dy x0 y0 psf_fun shp limflux max_psf_rad)
    id_range ret_img.

Definition img_add (a b : image_t) : image_t := map2 (map2 Rplus) a b.

Definition img_div (a : image_t) (d : R) : image_t :=
  map (map (fun v => v / d)) a.

Fixpoint blur_all (render : R -> result image_t) (N : Z)
  (rolldegs : list R) (ret_img : image_t) : result image_t :=
  match rolldegs with
  | [] => Ok ret_img
  | roll :: rest =>
      img <- render roll ;;
      blur_all render N rest (img_add ret_img (img_div img (IZR N)))
  end.

Definition rotblur (self : star_bg) (x0 y0 rolldeg blurdeg : R)
  (psf_fun : psf_t) (oversample : R) (shp : option (nat * nat))
  (target : Z) (limflux : R) (single_id : option Z) (max_psf_rad : Z)
  : result image_t :=
  let shp := match shp with None => shape self | Some s => s end in
  let resolution :=
    rad2deg (1 / INR (Nat.max (fst shp) (snd shp))) / oversample in
  let N := (int (blurdeg / resolution) + 1)%Z in
  ls <- linspace (-1) 1 N ;;
  let rolldegs := map (fun t => rolldeg + (1 / 2) * blurdeg * t) ls in
  blur_all (fun roll => image self x0 y0 roll psf_fun (Some shp) target
                          limflux single_id max_psf_rad)
    N rolldegs (zeros shp).

(** [np.sum(rb, axis=0)]: the sum of the rows. *)
Definition sum_axis0 (ncols : nat) (rb : image_t) : list R :=
  fold_left (map2 Rplus) rb (repeat 0 ncols).

Definition smear (self : star_bg) (x0 y0 rolldeg blurdeg : R)
  (psf_fun : psf_t) (oversample : R) (shp : option (nat * nat))
  (limflux : R) (max_psf_rad : Z) : result (list R) :=
  let shp := match shp with None => shape self | Some s => s end in
  rb <- rotblur self x0 y0 rolldeg blurdeg psf_fun oversample (Some shp)
          0%Z limflux None max_psf_rad ;;
  Ok (sum_axis0 (snd shp) rb).

(** Lines 60-68; [xpos[1:]] leaves the target out. *)
Definition brightest (self : star_bg) (radius : R) : result R :=
  let bg := skipn 1 (cat self) in
  let R2 := map (fun s => xpos s * xpos s + ypos s * ypos s) bg in
  let ind := map (fun d => if Rlt_dec d (radius * radius)
                           then true else false) R2 in
  if (0 <? length (filter (fun b : bool => b) ind))%nat
  then np_max (compress ind (map fscale bg))
  else Ok 0.

(** The catalogue indices that a call of [image] reads are all inside
    the catalogue. *)
Definition valid_ids (self : star_bg) (target : Z) (single_id : option Z)
  : Prop :=
  match single_id with
  | None => (- catsize self <= target)%Z
  | Some k => (- catsize self <= k < catsize self)%Z
  end.

End Syntstar.

(** ** psf_worker.py *)

Module PsfWorker.

Local Open Scope R_scope.

(** One row of the sample table [pix]: the columns [pix[:,0]] to
    [pix[:,3]] are position, value and error on the value. *)
Record sample := { px : R; py : R; pz : R; pe : R }.

(** A fitted surface, evaluated at paired coordinates ([grid=False]). *)
Definition spline := R -> R -> R.

Definition filter_pix (psf_spline : spline) (pix : list sample) (clip : R)
  : result (list bool) :=
  let y := map (fun p => psf_spline (px p) (py p)) pix in
  m <- np_max y ;;
  let k := 1 / 10 * m in
  let s := np_std (map2 (fun v f => (v - f) / (Rabs f + k)) (map pz pix) y) in
  let selS := map2 (fun v f =>
                if Rlt_dec (Rabs (v - f)) (clip * s * (Rabs f + k))
                then true else false) (map pz pix) y in
  Ok selS.

Section MakePsf.

(** scipy's least-squares spline fit: [x], [y], [z], [w], the knots [tx]
    and [ty], and the degrees [kx] and [ky]. *)
Variable LSQBivariateSpline :
  list R -> list R -> list R -> list R -> list R -> list R -> Z -> Z ->
  result spline.

(** The loop variables [psf_spline] (unbound before the first pass) and
    [sel]. *)
Definition loop_state : Type := option spline * list bool.

Definition fit_selected (pix : list sample) (w0 : R) (t : list R)
  (polydeg : Z) (sel : list bool) : result spline :=
  LSQBivariateSpline (compress sel (map px pix)) (compress sel (map py pix))
    (compress sel (map pz pix))
    (map (fun e => w0 / e) (compress sel (map pe pix)))
    t t polydeg polydeg.

Definition make_psf_pass (pix : list sample) (w0 : R) (t : list R)
  (polydeg : Z) (st : loop_state) : result loop_state :=
  psf_spline <- fit_selected pix w0 t polydeg (snd st) ;;
  sel <- filter_pix psf_spline pix 3 ;;
  Ok (Some psf_spline, sel).

Fixpoint for_range {St} (n : nat) (body : St -> result St) (st : St)
  : result St :=
  match n with
  | O => Ok st
  | S n' => st' <- body st ;; for_range n' body st'
  end.

Definition make_psf (pix : list sample) (radius : R) (polydeg niter : Z)
  : result spline :=
  let subrad := radius - 1 in
  t <- linspace (- subrad) subrad (int (2 * subrad + 1)) ;;
  let sel := repeat true (length pix) in
  let w0 := nanmedian (map pe pix) in
  st <- for_range (Z.to_nat niter) (make_psf_pass pix w0 t polydeg)
          (None, sel) ;;
  match fst st with
  | Some psf_spline => Ok psf_spline
  | None => Raise UnboundLocalError
  end.

End MakePsf.

End PsfWorker.

(** ** pipe/psf.py *)

Module Psf.

(** The arithmetic of [float64] values that the fitters use.  [fleb],
    [fltb] and [feqb] are numpy's [<=], [<] and [==]; [of_Z] converts a
    Python integer. *)
Class Arith (F : Type) : Type := {
  of_Z : Z -> F;
  fopp : F -> F;
  fadd : F -> F -> F;
  fsub : F -> F -> F;
  fmul : F -> F -> F;
  fdiv : F -> F -> F;
  fleb : F -> F -> bool;
  fltb : F -> F -> bool;
  feqb : F -> F -> bool;
  fisnan : F -> bool
}.

(** Exact arithmetic: the reals, where no value is NaN. *)
#[export] Instance Arith_R : Arith R := {|
  of_Z := IZR;
  fopp := Ropp;
  fadd := Rplus;
  fsub := Rminus;
  fmul := Rmult;
  fdiv := Rdiv;
  fleb := fun a b => if Rle_dec a b then true else false;
  fltb := fun a b => if Rlt_dec a b then true else false;
  feqb := fun a b => if Req_dec_T a b then true else false;
  fisnan := fun _ => false
|}.

(** IEEE 754 binary64, rounding to nearest even: what numpy computes. *)
Definition binary64 : Type := spec_float.

#[export] Instance Arith_binary64 : Arith binary64 := {|
  of_Z := fun z => binary_normalize 53 1024 z 0 false;
  fopp := SFopp;
  fadd := SFadd 53 1024;
  fsub := SFsub 53 1024;
  fmul := SFmul 53 1024;
  fdiv := SFdiv 53 1024;
  fleb := SFleb;
  fltb := SFltb;
  feqb := SFeqb;
  fisnan := fun x => match x with S754_nan => true | _ => false end
|}.

Declare Scope arith_scope.
Delimit Scope arith_scope with fl.
Infix "+" := fadd : arith_scope.
Infix "-" := fsub : arith_scope.
Infix "*" := fmul : arith_scope.
Infix "/" := fdiv : arith_scope.
Notation "- x" := (fopp x) : arith_scope.

(** What the fitters return. *)
Record fit_result (F : Type) : Type := {
  fit_psf : list (list F);
  fit_bg : F;
  fit_kmat : list (list F);
  fit_scale : F;
  fit_coeff : list F
}.
Arguments fit_psf {F} _.
Arguments fit_bg {F} _.
Arguments fit_kmat {F} _.
Arguments fit_scale {F} _.
Arguments fit_coeff {F} _.

Record fit_binary_result (F : Type) : Type := {
  bin_psf0 : list (list F);
  bin_psf1 : list (list F);
  bin_bg : F;
  bin_kmat0 : list (list F);
  bin_kmat1 : list (list F);
  bin_scale0 : F;
  bin_scale1 : F;
  bin_coeff0 : list F;
  bin_coeff1 : list F
}.
Arguments bin_psf0 {F} _.
Arguments bin_psf1 {F} _.
Arguments bin_bg {F} _.
Arguments bin_kmat0 {F} _.
Arguments bin_kmat1 {F} _.
Arguments bin_scale0 {F} _.
Arguments bin_scale1 {F} _.
Arguments bin_coeff0 {F} _.
Arguments bin_coeff1 {F} _.

(** The state a call can change: the calls made to numpy's [lstsq] so far
    and the lines printed. *)
Record world (F : Type) : Type := {
  solves : list (list (list F) * list F);
  stdout : list String.string
}.
Arguments solves {F} _.
Arguments stdout {F} _.

Section Fitters.

Local Open Scope string_scope.

Context {F : Type} {AF : Arith F}.

Local Open Scope arith_scope.

Definition image_t : Type := list (list F).
Definition mask_t : Type := list (list bool).
Definition psf_t : Type := F -> F -> F.
(** A design matrix, as the list of its columns. *)
Definition matrix : Type := list (list F).

(** *** Collaborators that are not part of this file *)

(** [pipe.reduce.coo_mat]: the x and y offsets of every pixel of an image
    of the given shape from a centre. *)
Variable coo_mat : nat * nat -> F -> F -> image_t * image_t.

(** [spline_pca.psf_integral]: the integral of every PSF of a library. *)
Variable psf_integral : list psf_t -> list F.

(** [numpy.linalg.lstsq(eq_mat, res_vec, rcond=None)[0]]; what it answers
    may depend on how many calls came before. *)
Variable lstsq : nat -> matrix -> list F -> result (list F).

(** [scipy.optimize.nnls(eq_mat, res_vec)[0]]. *)
Variable nnls : matrix -> list F -> result (list F).

(** *** Computations that change the world *)

Definition M (A : Type) : Type := world F -> result A * world F.

Definition ret {A} (a : A) : M A := fun w => (Ok a, w).

Definition lift {A} (r : result A) : M A := fun w => (r, w).

Definition mbind {A B} (c : M A) (k : A -> M B) : M B :=
  fun w =>
    match c w with
    | (Ok a, w') => k a w'
    | (Raise e, w') => (Raise e, w')
    end.

Notation "x <~ c ;; k" := (mbind c (fun x => k))
  (at level 61, c at next level, right associativity).

(** [try: c  except: h]. *)
Definition try_except {A} (c h : M A) : M A :=
  fun w =>
    match c w with
    | (Raise _, w') => h w'
    | r => r
    end.

Definition py_print (line : String.string) : M unit :=
  fun w => (Ok tt, {| solves := solves w; stdout := stdout w ++ [line] |}).

Definition call_lstsq (eq_mat : matrix) (res_vec : list F) : M (list F) :=
  fun w =>
    (lstsq (length (solves w)) eq_mat res_vec,
     {| solves := solves w ++ [(eq_mat, res_vec)]; stdout := stdout w |}).

(** The world after further calls of [lstsq]. *)
Definition after_calls (w : world F) (calls : list (matrix * list F))
  : world F :=
  {| solves := solves w ++ calls; stdout := stdout w |}.

Definition call_nnls (eq_mat : matrix) (res_vec : list F) : M (list F) :=
  lift (nnls eq_mat res_vec).

Definition _least_square (eq_mat : matrix) (res_vec : list F)
  (non_negative : bool) : M (list F) :=
  if non_negative then call_nnls eq_mat res_vec
  else try_except (call_lstsq eq_mat res_vec) (call_lstsq eq_mat res_vec).

(** *** numpy on [F] *)

Definition shape_of {A} (a : list (list A)) : nat * nat :=
  (length a, length (hd [] a)).

Definition zeros (shp : nat * nat) : image_t :=
  repeat (repeat (of_Z 0) (snd shp)) (fst shp).

Definition arange (n : nat) : list F :=
  map (fun k => of_Z (Z.of_nat k)) (seq 0 n).

(** [np.linspace(start, stop, num)]: evenly spaced, the last sample set to
    [stop]. *)
Definition linspace (start stop : F) (num : Z) : result (list F) :=
  if (num <? 0)%Z then Raise ValueError
  else if (num =? 0)%Z then Ok []
  else if (num =? 1)%Z then Ok [start]
  else
    let step := (stop - start) / of_Z (num - 1) in
    Ok (map (fun k => of_Z (Z.of_nat k) * step + start)
          (seq 0 (Z.to_nat num - 1)) ++ [stop]).

Definition meshgrid {A} (xs ys : list A) : list (list A) * list (list A) :=
  (map (fun _ => xs) ys, map (fun y => map (fun _ => y) xs) ys).

(** [a[sel]] for a boolean image [sel] of the shape of [a]: the selected
    pixels, row by row.  numpy raises [IndexError] when the two shapes
    differ; the fitters are stated for arrays that agree in shape
    ([shapes_agree] below), where every row of [sel] meets a row of [a]
    of its own length. *)
Definition select {A} (sel : mask_t) (a : list (list A)) : list A :=
  concat (map2 compress sel a).

Definition np_sum (l : list F) : F := fold_left fadd l (of_Z 0).

(** [a + b] for two images of one shape (numpy raises [ValueError] for
    shapes that cannot be broadcast together). *)
Definition img_add (a b : image_t) : image_t := map2 (map2 fadd) a b.

Definition img_scale (k : F) (a : image_t) : image_t := map (map (fmul k)) a.

(** [a * apt] for a boolean image [apt]. *)
Definition img_mask (a : image_t) (apt : mask_t) : image_t :=
  map2 (map2 (fun v (b : bool) => v * (if b then of_Z 1 else of_Z 0))) a apt.

(** [np.reshape(v, (rows, cols))]. *)
Definition reshape (v : list F) (rows cols : nat) : result image_t :=
  if (length v =? rows * cols)%nat
  then Ok (map (fun r => firstn cols (skipn (r * cols) v)) (seq 0 rows))
  else Raise ValueError.

(** [a * b] for two one-dimensional arrays, with broadcasting. *)
Definition broadcast_mul (a b : list F) : result (list F) :=
  if (length a =? length b)%nat then Ok (map2 fmul a b)
  else match a, b with
       | [x], _ => Ok (map (fmul x) b)
       | _, [y] => Ok (map (fun x => x * y) a)
       | _, _ => Raise ValueError
       end.

(** A PSF called on two coordinate vectors: its samples on their grid. *)
Definition grid (psf : psf_t) (ys xs : list F) : image_t :=
  map (fun y => map (fun x => psf y x) xs) ys.

(** *** The blur-kernel grid, lines 39-44 and 144-149 *)

Definition kernel_grid (krn_scl : F) (krn_rad : Z)
  : result (list F * list F * list F) :=
  xkern <- linspace (- krn_scl * of_Z krn_rad) (krn_scl * of_Z krn_rad)
             (2 * krn_rad + 1) ;;
  let '(xkmat, ykmat) := meshgrid xkern xkern in
  Ok (xkern, concat xkmat, concat ykmat).

(** [psf(ycoo - yk[n], xcoo - xk[n])]. *)
Definition shifted (psf : psf_t) (ycoo xcoo yk xk : list F) (n : nat)
  : image_t :=
  grid psf (map (fun v => v - nth n yk (of_Z 0)) ycoo)
    (map (fun v => v - nth n xk (of_Z 0)) xcoo).

(** [img[aperture] / nvec]: one column of a design matrix, for an image
    of the aperture's shape; it then has one entry per entry of [nvec]. *)
Definition column (aperture : mask_t) (nvec : list F) (img : image_t)
  : list F :=
  map2 fdiv (select aperture img) nvec.

(** [1 / nvec]: the background column. *)
Definition inverse_noise (nvec : list F) : list F := map (fdiv (of_Z 1)) nvec.

Definition check_index (len n : nat) : result unit :=
  if (len <? n)%nat then Raise IndexError else Ok tt.

(** The arrays handed to a fitter agree in shape, as numpy needs for
    [aperture *= mask], [frame[aperture]] and [noise[aperture]]: the
    frame is [n] x [m] with at least one row, and so are the noise image,
    the mask if there is one and the coordinate grids of [coo_mat].  A
    PSF called on [ycoo] and [xcoo] gives an [m] x [n] grid, so
    [psf[aperture]] needs a square frame, [n = m], on top of that. *)
Definition shapes_agree (n m : nat) (frame noise : image_t)
  (mask : option mask_t) : Prop :=
  (0 < n)%nat
  /\ has_shape (n, m) frame
  /\ has_shape (n, m) noise
  /\ match mask with
     | Some mk => has_shape (n, m) mk
     | None => True
     end
  /\ forall xc yc,
       has_shape (n, m) (fst (coo_mat (n, m) xc yc))
       /\ has_shape (n, m) (snd (coo_mat (n, m) xc yc)).

(** *** fit, lines 17-103 *)

(** [xcoo], [ycoo], the aperture, [fvec] and [nvec], lines 29-36. *)
Definition fit_aperture (frame : image_t) (mask : mask_t) (xc yc radius : F)
  : mask_t :=
  let '(xmat, ymat) := coo_mat (shape_of frame) xc yc in
  let aperture :=
    map2 (map2 (fun x y => fleb (x * x + y * y) (radius * radius)))
      xmat ymat in
  map2 (map2 andb) aperture mask.

(** The columns of the first design matrix, lines 57-59. *)
Definition fit_columns1 (psf0 : psf_t) (aperture : mask_t) (nvec : list F)
  (ycoo xcoo yk xk : list F) : matrix :=
  map (fun n => column aperture nvec (shifted psf0 ycoo xcoo yk xk n))
    (seq 0 (length xk)).

(** A PSF blurred by the kernel [kvec], lines 72-74. *)
Definition blurred (shp : nat * nat) (kvec : list F) (psf : psf_t)
  (ycoo xcoo yk xk : list F) : image_t :=
  fold_left
    (fun acc n =>
       img_add acc
         (img_scale (nth n kvec (of_Z 0)) (shifted psf ycoo xcoo yk xk n)))
    (seq 0 (length xk)) (zeros shp).

(** The columns of the second design matrix, lines 71-75. *)
Definition fit_columns2 (psf_list : list psf_t) (shp : nat * nat)
  (kvec : list F) (aperture : mask_t) (nvec : list F)
  (ycoo xcoo yk xk : list F) : matrix :=
  map (fun psf_m =>
         column aperture nvec (blurred shp kvec psf_m ycoo xcoo yk xk))
    psf_list.

(** The fitted PSF on the frame, lines 79-82. *)
Definition fit_composite (psf_list : list psf_t) (shp : nat * nat)
  (kvec w : list F) (ycoo xcoo yk xk : list F) : image_t :=
  fold_left
    (fun acc m =>
       fold_left
         (fun acc n =>
            img_add acc
              (img_scale (nth m w (of_Z 0) * nth n kvec (of_Z 0))
                 (shifted (nth m psf_list (fun _ _ => of_Z 0))
                    ycoo xcoo yk xk n)))
         (seq 0 (length xk)) acc)
    (seq 0 (length psf_list)) (zeros shp).

(** The lines printed for a flux normaliser [wsum], lines 96-101. *)
Definition wsum_diagnostic (wsum : F) : list String.string :=
  if fisnan wsum then ["Warning: wsum == NaN encountered"]
  else if feqb wsum (of_Z 0) then ["Warning: wsum == 0 encountered"]
  else [].

(** Background, kernel matrix and normalisation, lines 84-103. *)
Definition fit_normalize (psf_norms : list F) (bg_fit : Z) (Nk side : nat)
  (psf : image_t) (kvec w : list F) : M (fit_result F) :=
  bgl <~ lift (if (bg_fit =? 0)%Z
               then bg <- getitem w (-1) ;;
                    Ok (bg, (Z.of_nat (length w) - 1)%Z,
                        (Z.of_nat (length kvec) - 1)%Z)
               else Ok (of_Z 0, Z.of_nat (length w),
                        Z.of_nat (length kvec))) ;;
  let '(bg, last_w, last_k) := bgl in
  kmat <~ lift (reshape (slice kvec 0 (Z.of_nat Nk)) side side) ;;
  terms <~ lift (broadcast_mul psf_norms (slice w 0 last_w)) ;;
  let wsum := np_sum terms in
  wsum <~ (if fisnan wsum
           then _ <~ py_print "Warning: wsum == NaN encountered" ;;
                ret (of_Z 1)
           else if feqb wsum (of_Z 0)
           then _ <~ py_print "Warning: wsum == 0 encountered" ;;
                ret (of_Z 1)
           else ret wsum) ;;
  ret {| fit_psf := psf;
         fit_bg := bg;
         fit_kmat := kmat;
         fit_scale := np_sum (slice kvec 0 last_k) * wsum;
         fit_coeff := map (fun v => v / wsum) (slice w 0 last_w) |}.

Definition fit (psf_list : list psf_t) (frame noise : image_t)
  (mask : mask_t) (xc yc radius krn_scl : F) (krn_rad bg_fit : Z)
  : M (fit_result F) :=
  let shp := shape_of frame in
  let xcoo := map (fun v => v - xc) (arange (fst shp)) in
  let ycoo := map (fun v => v - yc) (arange (snd shp)) in
  let aperture := fit_aperture frame mask xc yc radius in
  let fvec := select aperture frame in
  let nvec := select aperture noise in
  grid3 <~ lift (kernel_grid krn_scl krn_rad) ;;
  let '(xkern, xk, yk) := grid3 in
  let Nk := length xk in
  let Npsf := length psf_list in
  let bgcol := if (bg_fit =? 0)%Z then [inverse_noise nvec] else [] in
  let psf_norms := psf_integral psf_list in
  (* first, the offset matrix from the first PSF alone *)
  psf0 <~ lift (getitem psf_list 0) ;;
  let psfs := fit_columns1 psf0 aperture nvec ycoo xcoo yk xk ++ bgcol in
  kvec <~ _least_square psfs (map2 fdiv fvec nvec) false ;;
  (* then the PSF list with that offset matrix; reads [kvec[n]], n < Nk *)
  _ <~ lift (check_index (length kvec) Nk) ;;
  let psfs :=
    fit_columns2 psf_list shp kvec aperture nvec ycoo xcoo yk xk ++ bgcol in
  w <~ _least_square psfs (map2 fdiv fvec nvec) false ;;
  (* reads [w[m]], m < Npsf *)
  _ <~ lift (check_index (length w) Npsf) ;;
  let psf := fit_composite psf_list shp kvec w ycoo xcoo yk xk in
  fit_normalize psf_norms bg_fit Nk (length xkern) psf kvec w.

(** *** fit_binary, lines 106-218 *)

(** [notsel]: the pixels farther than [fitrad] from a centre. *)
Definition far_from (xmat ymat : image_t) (fitrad : F) : mask_t :=
  map2 (map2 (fun x y => fltb (fitrad * fitrad) (x * x + y * y))) xmat ymat.

(** [apt]: the disk of radius [psfrad] around a centre. *)
Definition psf_disk (xmat ymat : image_t) (psfrad : F) : mask_t :=
  map2 (map2 (fun x y => fltb (x * x + y * y) (psfrad * psfrad))) xmat ymat.

(** The shared fit aperture, lines 130-137. *)
Definition binary_aperture (frame : image_t) (mask : option mask_t)
  (xc0 yc0 xc1 yc1 fitrad : F) : mask_t :=
  let '(xmat0, ymat0) := coo_mat (shape_of frame) xc0 yc0 in
  let '(xmat1, ymat1) := coo_mat (shape_of frame) xc1 yc1 in
  let notsel0 := far_from xmat0 ymat0 fitrad in
  let notsel1 := far_from xmat1 ymat1 fitrad in
  let aperture :=
    map2 (map2 (fun a b => Bool.eqb (a && b) false)) notsel0 notsel1 in
  match mask with
  | Some mk => map2 (map2 andb) aperture mk
  | None => aperture
  end.

(** One source: its PSF library, pixel coordinates and disk. *)
Record source : Type := {
  psf_list_of : list psf_t;
  ycoo_of : list F;
  xcoo_of : list F;
  apt_of : mask_t
}.

(** Lines 123-128 and 132-133. *)
Definition binary_source (psf_list : list psf_t) (shp : nat * nat)
  (xc yc psfrad : F) : source :=
  let '(xmat, ymat) := coo_mat shp xc yc in
  {| psf_list_of := psf_list;
     ycoo_of := map (fun v => v - yc) (arange (snd shp));
     xcoo_of := map (fun v => v - xc) (arange (fst shp));
     apt_of := psf_disk xmat ymat psfrad |}.

Definition nth_psf (s : source) (m : nat) : psf_t :=
  nth m (psf_list_of s) (fun _ _ => of_Z 0).

(** [psf_list[m](ycoo - yk[n], xcoo - xk[n]) * apt]. *)
Definition masked (s : source) (m : nat) (yk xk : list F) (n : nat)
  : image_t :=
  img_mask (shifted (nth_psf s m) (ycoo_of s) (xcoo_of s) yk xk n) (apt_of s).

(** First pass, lines 159-163: the first PSF at offset [n]. *)
Definition binary_image1 (s : source) (yk xk : list F) (n : nat) : image_t :=
  masked s 0 yk xk n.

(** Second pass, lines 174-181: PSF [m] blurred by the kernel, whose
    coefficients for this source start at [kvec[off]]. *)
Definition binary_image2 (s : source) (shp : nat * nat) (kvec : list F)
  (off : nat) (yk xk : list F) (m : nat) : image_t :=
  fold_left
    (fun acc n =>
       img_add acc
         (img_mask
            (img_scale (nth (n + off) kvec (of_Z 0))
               (shifted (nth_psf s m) (ycoo_of s) (xcoo_of s) yk xk n))
            (apt_of s)))
    (seq 0 (length xk)) (zeros shp).

(** Third pass, lines 191-198: the composite PSF at offset [n], whose
    weights for this source start at [w[off]]. *)
Definition binary_image3 (s : source) (shp : nat * nat) (w : list F)
  (off Npsf : nat) (yk xk : list F) (n : nat) : image_t :=
  fold_left
    (fun acc m =>
       img_add acc
         (img_mask
            (img_scale (nth (m + off) w (of_Z 0))
               (shifted (nth_psf s m) (ycoo_of s) (xcoo_of s) yk xk n))
            (apt_of s)))
    (seq 0 Npsf) (zeros shp).

(** The fitted PSF of one source, lines 203-208. *)
Definition binary_final (s : source) (shp : nat * nat) (kvec w : list F)
  (koff woff Npsf : nat) (yk xk : list F) : image_t :=
  fold_left
    (fun acc m =>
       fold_left
         (fun acc n =>
            img_add acc
              (img_mask
                 (img_scale
                    (nth (n + koff) kvec (of_Z 0) * nth (m + woff) w (of_Z 0))
                    (shifted (nth_psf s m) (ycoo_of s) (xcoo_of s) yk xk n))
                 (apt_of s)))
         (seq 0 (length xk)) acc)
    (seq 0 Npsf) (zeros shp).

(** The two blocks of kernel columns and the background column. *)
Definition binary_design (aperture : mask_t) (nvec : list F)
  (img0 img1 : nat -> image_t) (count : nat) : matrix :=
  map (fun n => column aperture nvec (img0 n)) (seq 0 count)
  ++ map (fun n => column aperture nvec (img1 n)) (seq 0 count)
  ++ [inverse_noise nvec].

Definition fit_binary (psf_list0 psf_list1 : list psf_t)
  (frame noise : image_t) (mask : option mask_t)
  (xc0 yc0 xc1 yc1 psfrad fitrad krn_scl : F) (krn_rad : Z)
  : M (fit_binary_result F) :=
  let shp := shape_of frame in
  let src0 := binary_source psf_list0 shp xc0 yc0 psfrad in
  let src1 := binary_source psf_list1 shp xc1 yc1 psfrad in
  let aperture := binary_aperture frame mask xc0 yc0 xc1 yc1 fitrad in
  let fvec := select aperture frame in
  let nvec := select aperture noise in
  grid3 <~ lift (kernel_grid krn_scl krn_rad) ;;
  let '(xkern, xk, yk) := grid3 in
  let Nk := length xk in
  let Npsf := length psf_list0 in
  (* first iteration: offset coefficients for the average PSF *)
  _ <~ lift (getitem psf_list0 0) ;;
  _ <~ lift (getitem psf_list1 0) ;;
  let psfs := binary_design aperture nvec (binary_image1 src0 yk xk)
                (binary_image1 src1 yk xk) Nk in
  kvec <~ _least_square psfs (map2 fdiv fvec nvec) false ;;
  bg <~ lift (getitem kvec (-1)) ;;
  (* composite PSFs; reads [psf_list1[m]] and [kvec[n + Nk]] *)
  _ <~ lift (check_index (length psf_list1) Npsf) ;;
  _ <~ lift (check_index (length kvec) (2 * Nk)) ;;
  let psfs := binary_design aperture nvec
                (binary_image2 src0 shp kvec 0 yk xk)
                (binary_image2 src1 shp kvec Nk yk xk) Npsf in
  w <~ _least_square psfs (map2 fdiv fvec nvec) false ;;
  (* second iteration: new offset coefficients; reads [w[m + Npsf]] *)
  _ <~ lift (check_index (length w) (2 * Npsf)) ;;
  let psfs := binary_design aperture nvec
                (binary_image3 src0 shp w 0 Npsf yk xk)
                (binary_image3 src1 shp w Npsf Npsf yk xk) Nk in
  kvec <~ _least_square psfs (map2 fdiv fvec nvec) false ;;
  bg <~ lift (getitem kvec (-1)) ;;
  _ <~ lift (check_index (length kvec) (2 * Nk)) ;;
  let psf0 := binary_final src0 shp kvec w 0 0 Npsf yk xk in
  let psf1 := binary_final src1 shp kvec w Nk Npsf Npsf yk xk in
  let side := length xkern in
  kmat0 <~ lift (reshape (slice kvec 0 (Z.of_nat Nk)) side side) ;;
  kmat1 <~ lift (reshape (slice kvec (Z.of_nat Nk) (2 * Z.of_nat Nk))
                   side side) ;;
  let psf_norms0 := psf_integral psf_list0 in
  let psf_norms1 := psf_integral psf_list1 in
  terms0 <~ lift (broadcast_mul psf_norms0 (slice w 0 (Z.of_nat Npsf))) ;;
  let wsum0 := np_sum terms0 in
  terms1 <~ lift (broadcast_mul psf_norms1 (slice w (Z.of_nat Npsf) (-1))) ;;
  let wsum1 := np_sum terms1 in
  ret {| bin_psf0 := psf0;
         bin_psf1 := psf1;
         bin_bg := bg;
         bin_kmat0 := kmat0;
         bin_kmat1 := kmat1;
         bin_scale0 := np_sum (slice kvec 0 (Z.of_nat Nk)) * wsum0;
         bin_scale1 :=
           np_sum (slice kvec (Z.of_nat Nk) (2 * Z.of_nat Nk)) * wsum1;
         bin_coeff0 := map (fun v => v / wsum0) (slice w 0 (Z.of_nat Npsf));
         bin_coeff1 :=
           map (fun v => v / wsum1) (slice w (Z.of_nat Npsf) (-1)) |}.

End Fitters.


Arguments image_t F : clear implicits.
Arguments psf_t F : clear implicits.
Arguments matrix F : clear implicits.
Arguments M F A : clear implicits.
Arguments source F : clear implicits.

End Psf.

(** ** Concrete collaborators and inputs, used to run the fitters *)

Module Examples.

Import Psf.

Section Generic.

Context {F : Type} {AF : Arith F}.

(** The pixel offsets as a coordinate grid. *)
Definition grid_coo_mat (shp : nat * nat) (xc yc : F)
  : image_t F * image_t F :=
  meshgrid (map (fun v => fsub v xc) (arange (fst shp)))
    (map (fun v => fsub v yc) (arange (snd shp))).

(** Every PSF of the library integrates to 1. *)
Definition unit_integral (psf_list : list (psf_t F)) : list F :=
  map (fun _ => of_Z 1) psf_list.

(** A solver that answers 0 for every coefficient: the least-squares
    solution of smallest norm when the right-hand side is 0. *)
Definition zero_lstsq (k : nat) (eq_mat : matrix F) (res_vec : list F)
  : result (list F) :=
  Ok (map (fun _ => of_Z 0) eq_mat).

(** A solver that answers 1 for every coefficient. *)
Definition ones_lstsq (k : nat) (eq_mat : matrix F) (res_vec : list F)
  : result (list F) :=
  Ok (map (fun _ => of_Z 1) eq_mat).

(** The zero solver, failing on its very first call. *)
Definition flaky_lstsq (k : nat) (eq_mat : matrix F) (res_vec : list F)
  : result (list F) :=
  match k with
  | O => Raise LinAlgError
  | S _ => zero_lstsq k eq_mat res_vec
  end.

(** A solver that always fails. *)
Definition failing_lstsq (k : nat) (eq_mat : matrix F) (res_vec : list F)
  : result (list F) :=
  Raise LinAlgError.

Definition zero_nnls (eq_mat : matrix F) (res_vec : list F)
  : result (list F) :=
  Ok (map (fun _ => of_Z 0) eq_mat).

(** A flat PSF. *)
Definition flat_psf : psf_t F := fun _ _ => of_Z 1.

(** A one-pixel frame that recorded no light, with unit noise. *)
Definition dark_frame : image_t F := [[of_Z 0]].
Definition unit_noise : image_t F := [[of_Z 1]].

Definition fresh_world : world F := {| solves := []; stdout := [] |}.

End Generic.

Local Open Scope R_scope.

(** A field of three stars: the target, a bright star far to the side
    and a faint one next to the target. *)
Definition sky : Syntstar.star_bg :=
  {| Syntstar.pxl_scl := 0.9969498004253621;
     Syntstar.cat :=
       [ {| Syntstar.xpos := 0; Syntstar.ypos := 0;
            Syntstar.fscale := 1; Syntstar.Teff := 5800 |};
         {| Syntstar.xpos := 1000; Syntstar.ypos := 0;
            Syntstar.fscale := 1 / 2; Syntstar.Teff := 4500 |};
         {| Syntstar.xpos := 1; Syntstar.ypos := 1;
            Syntstar.fscale := 1 / 10000; Syntstar.Teff := 3900 |} ];
     Syntstar.shape := (3%nat, 3%nat) |}.

(** A spline fit that answers the flat surface of height 1. *)
Definition flat_spline_fit (x y z w tx ty : list R) (kx ky : Z)
  : result PsfWorker.spline :=
  Ok (fun _ _ => 1).

(** Two calibration samples, the second one an outlier. *)
Definition two_samples : list PsfWorker.sample :=
  [ {| PsfWorker.px := 0; PsfWorker.py := 0;
       PsfWorker.pz := 1; PsfWorker.pe := 1 |};
    {| PsfWorker.px := 1; PsfWorker.py := 0;
       PsfWorker.pz := 5; PsfWorker.pe := 1 |} ].

End Examples.

(** * Properties *)

(** ** Lists as arrays: lookups through the numpy idioms *)

Section ArrayFacts.

Context {A B C : Type}.

Lemma nth_error_map2 (f : A -> B -> C) (l : list A) (m : list B) (k : nat) :
  nth_error (map2 f l m) k =
  match nth_error l k, nth_error m k with
  | Some a, Some b => Some (f a b)
  | _, _ => None
  end.
Proof.
  revert m k; induction l as [|a l IH]; intros [|b m] [|k]; simpl; auto.
  destruct (nth_error l k); reflexivity.
Qed.

Lemma length_map2 (f : A -> B -> C) (l : list A) (m : list B) :
  length (map2 f l m) = Nat.min (length l) (length m).
Proof.
  revert m; induction l as [|a l IH]; intros [|b m]; simpl; auto.
Qed.

Lemma length_update_from (f : A -> B -> A) (k : nat) (l : list A) (m : list B) :
  length (update_from f k l m) = length l.
Proof.
  revert k m; induction l as [|x l IH]; intros [|k] m; simpl; auto.
  destruct m; simpl; auto.
Qed.

Lemma nth_error_update_from (f : A -> B -> A) (k : nat) (l : list A)
  (m : list B) (r : nat) :
  nth_error (update_from f k l m) r =
  match nth_error l r with
  | None => None
  | Some x =>
      if (k <=? r)%nat
      then match nth_error m (r - k) with
           | Some y => Some (f x y)
           | None => Some x
           end
      else Some x
  end.
Proof.
  revert k m r; induction l as [|x l IH]; intros k m r.
  - destruct r; reflexivity.
  - destruct k as [|k].
    + destruct m as [|y m].
      * simpl. destruct (nth_error (x :: l) r) eqn:E; auto.
        destruct (r - 0)%nat; reflexivity.
      * destruct r as [|r]; simpl; auto.
        rewrite IH. simpl. rewrite Nat.sub_0_r. reflexivity.
    + destruct r as [|r]; simpl; auto.
Qed.

Lemma update_from_id (f : A -> B -> A) (k : nat) (l : list A) (m : list B) :
  (forall x y, In y m -> f x y = x) -> update_from f k l m = l.
Proof.
  revert k m; induction l as [|x l IH]; intros k m H; simpl; auto.
  destruct k as [|k].
  - destruct m as [|y m]; auto.
    rewrite (H x y) by (left; reflexivity).
    rewrite IH; auto. intros; apply H; right; assumption.
  - rewrite IH; auto.
Qed.

Lemma nth_error_slice (l : list A) (lo hi : Z) (k : nat) :
  (0 <= lo <= Z.of_nat (length l))%Z ->
  (0 <= hi <= Z.of_nat (length l))%Z ->
  nth_error (slice l lo hi) k =
  if (k <? Z.to_nat (hi - lo))%nat then nth_error l (Z.to_nat lo + k) else None.
Proof.
  intros Hlo Hhi. unfold slice, clamp_index.
  destruct (Z.ltb_spec lo 0); [lia|].
  destruct (Z.ltb_spec hi 0); [lia|].
  rewrite !Z.min_l by lia.
  rewrite nth_error_firstn, nth_error_skipn. reflexivity.
Qed.

Lemma length_slice (l : list A) (lo hi : Z) :
  (0 <= lo <= Z.of_nat (length l))%Z ->
  (0 <= hi <= Z.of_nat (length l))%Z ->
  length (slice l lo hi) = Z.to_nat (hi - lo).
Proof.
  intros Hlo Hhi. unfold slice, clamp_index.
  destruct (Z.ltb_spec lo 0); [lia|].
  destruct (Z.ltb_spec hi 0); [lia|].
  rewrite !Z.min_l by lia.
  rewrite length_firstn, length_skipn. lia.
Qed.

Lemma getitem_map (f : A -> B) (l : list A) (i : Z) :
  getitem (map f l) i =
  match getitem l i with Ok a => Ok (f a) | Raise e => Raise e end.
Proof.
  unfold getitem. rewrite length_map.
  destruct ((0 <=? _) && _)%Z; auto.
  rewrite nth_error_map. destruct (nth_error l _); reflexivity.
Qed.

End ArrayFacts.

Lemma getpix_map2 {A B C} (f : A -> B -> C) (a : list (list A))
  (b : list (list B)) (r c : nat) :
  getpix (map2 (map2 f) a b) r c =
  match getpix a r c, getpix b r c with
  | Some x, Some y => Some (f x y)
  | _, _ => None
  end.
Proof.
  unfold getpix. rewrite nth_error_map2.
  destruct (nth_error a r) as [ra|]; auto.
  destruct (nth_error b r) as [rb|].
  - apply nth_error_map2.
  - destruct (nth_error ra c); reflexivity.
Qed.

Lemma getpix_map {A B} (f : A -> B) (a : list (list A)) (r c : nat) :
  getpix (map (map f) a) r c = option_map f (getpix a r c).
Proof.
  unfold getpix. rewrite nth_error_map.
  destruct (nth_error a r); simpl; auto using nth_error_map.
Qed.

Lemma getpix_update_from {A B} (f : A -> B -> A) (j0 i0 : nat)
  (img : list (list A)) (m : list (list B)) (r c : nat) :
  getpix (update_from (fun row mrow => update_from f i0 row mrow) j0 img m) r c =
  match getpix img r c with
  | None => None
  | Some v =>
      if ((j0 <=? r) && (i0 <=? c))%nat
      then match getpix m (r - j0) (c - i0) with
           | Some y => Some (f v y)
           | None => Some v
           end
      else Some v
  end.
Proof.
  unfold getpix. rewrite nth_error_update_from.
  destruct (nth_error img r) as [rw|]; auto.
  destruct (j0 <=? r)%nat; simpl; auto.
  - destruct (nth_error m (r - j0)) as [mrow|].
    + rewrite nth_error_update_from. reflexivity.
    + destruct (nth_error rw c); auto. destruct (i0 <=? c)%nat; auto.
  - destruct (nth_error rw c); auto.
Qed.

Lemma Forall_update_from {A B} (P : A -> Prop) (f : A -> B -> A) (k : nat)
  (l : list A) (m : list B) :
  (forall x y, P x -> P (f x y)) ->
  Forall P l -> Forall P (update_from f k l m).
Proof.
  intros Hf. revert k m; induction l as [|x l IH]; intros k m Hl; simpl; auto.
  inversion Hl; subst.
  destruct k; [destruct m|]; constructor; auto.
Qed.

(** ** Properties of syntstar.py *)

Section SyntstarFacts.

Import Syntstar.
Local Open Scope R_scope.

Lemma int_IZR (z : Z) : int (IZR z) = z.
Proof.
  unfold int. destruct (Rle_dec 0 (IZR z)) as [H|H].
  - symmetry; apply Int_part_spec; lra.
  - rewrite <- opp_IZR.
    rewrite <- (Int_part_spec (IZR (- z)) (- z)%Z) by lra. lia.
Qed.

Lemma nth_error_arange (n k : nat) :
  nth_error (arange n) k = if (k <? n)%nat then Some (INR k) else None.
Proof.
  unfold arange. rewrite nth_error_map, nth_error_seq.
  destruct (k <? n)%nat; reflexivity.
Qed.

Lemma length_arange (n : nat) : length (arange n) = n.
Proof. unfold arange. now rewrite length_map, length_seq. Qed.

(** The scaled, disk-masked stamp of one star, pixel by pixel. *)
Lemma getpix_stamp (psf_fun : psf_t) (fs : R) (r : Z) (ddy ddx : list R)
  (a b : nat) :
  getpix (map (map (Rmult fs))
            (zero_outside (fst (meshgrid ddx ddy)) (snd (meshgrid ddx ddy)) r
               (grid psf_fun ddy ddx))) a b =
  match nth_error ddy a, nth_error ddx b with
  | Some y, Some x =>
      Some (fs * (if Rgt_dec (x * x + y * y) (IZR (r * r)) then 0
                  else psf_fun y x))
  | _, _ => None
  end.
Proof.
  rewrite getpix_map. unfold zero_outside. rewrite !getpix_map2.
  unfold meshgrid, grid, getpix; simpl fst; simpl snd.
  rewrite !nth_error_map.
  destruct (nth_error ddy a) as [y|]; simpl; auto.
  rewrite !nth_error_map.
  destruct (nth_error ddx b) as [x|]; simpl; auto.
  destruct (Rgt_dec (x * x + y * y) (IZR (r * r))); reflexivity.
Qed.

(** C7.  De-rotating a rotated position by the same roll angle gives the
    position back, exactly over the reals; the forward rotation is
    (x cos t + y sin t, -x sin t + y cos t) for the roll angle t taken in
    radians, and the inverse is the same transform at the opposite
    angle. *)
Theorem rotate_derotate_roundtrip :
  forall x y rolldeg : R,
    derotate_position (fst (rotate_position x y rolldeg))
      (snd (rotate_position x y rolldeg)) rolldeg = (x, y)
    /\ rotate_position x y rolldeg
       = (x * cos (deg2rad rolldeg) + y * sin (deg2rad rolldeg),
          - x * sin (deg2rad rolldeg) + y * cos (deg2rad rolldeg))
    /\ (forall xroll yroll,
          derotate_position xroll yroll rolldeg
          = rotate_position xroll yroll (- rolldeg)).
Proof.
  intros x y rolldeg. split; [|split; [reflexivity | intros; reflexivity]].
  unfold derotate_position, rotate_position; cbv zeta; simpl fst; simpl snd.
  assert (E : deg2rad (- rolldeg) = - deg2rad rolldeg)
    by (unfold deg2rad; lra).
  rewrite E, cos_neg, sin_neg.
  pose proof (sin2_cos2 (deg2rad rolldeg)) as U. unfold Rsqr in U.
  set (c := cos (deg2rad rolldeg)) in *.
  set (s := sin (deg2rad rolldeg)) in *.
  f_equal.
  - replace ((x * c + y * s) * c + (- x * s + y * c) * - s)
      with (x * (s * s + c * c)) by ring.
    rewrite U; ring.
  - replace (- (x * c + y * s) * - s + (- x * s + y * c) * c)
      with (y * (s * s + c * c)) by ring.
    rewrite U; ring.
Qed.

Lemma getitem_rotate_cat (self : star_bg) (rolldeg : R) (n : Z) (s : star) :
  getitem (cat self) n = Ok s ->
  getitem (map fscale (cat self)) n = Ok (fscale s)
  /\ getitem (fst (rotate_cat self rolldeg)) n
     = Ok (fst (rotate_position (xpos s) (ypos s) rolldeg))
  /\ getitem (snd (rotate_cat self rolldeg)) n
     = Ok (snd (rotate_position (xpos s) (ypos s) rolldeg)).
Proof.
  intros H. unfold rotate_cat; simpl fst; simpl snd.
  rewrite !getitem_map, H. auto.
Qed.

(** C8.  Processing a catalogue star never raises.  If no pixel of its
    stamp (the square of half-side [psf_rad] around its rotated integer
    position) lies in the image, the image is returned as it was.
    Otherwise the stamp is clipped to the image: every image pixel inside
    the stamp gets the star's scaled, disk-masked PSF value added to what
    was there, and every other pixel keeps its value. *)
Theorem image_star_stamp :
  forall (self : star_bg) (x0 y0 rolldeg : R) (psf_fun : psf_t)
    (shp : nat * nat) (limflux : R) (max_psf_rad : Z) (ret_img : image_t)
    (n : Z) (s : star),
    getitem (cat self) n = Ok s ->
    let dxn := fst (rotate_position (xpos s) (ypos s) rolldeg) in
    let dyn := snd (rotate_position (xpos s) (ypos s) rolldeg) in
    let r := psf_radius (fscale s) max_psf_rad in
    let i := int (x0 + dxn) in
    let j := int (y0 + dyn) in
    let in_stamp (row col : nat) :=
      ((j - r <= Z.of_nat row < j + r)%Z /\ (row < fst shp)%nat)
      /\ ((i - r <= Z.of_nat col < i + r)%Z /\ (col < snd shp)%nat) in
    exists img',
      draw_star self (fst (rotate_cat self rolldeg))
        (snd (rotate_cat self rolldeg)) x0 y0 psf_fun shp limflux
        max_psf_rad ret_img n = Ok img'
      /\ ((forall row col, ~ in_stamp row col) -> img' = ret_img)
      /\ (~ fscale s < limflux ->
          forall row col v,
            getpix ret_img row col = Some v ->
            (in_stamp row col ->
             getpix img' row col
             = Some (v + fscale s *
                         (let x := INR col - x0 - dxn in
                          let y := INR row - y0 - dyn in
                          if Rgt_dec (x * x + y * y) (IZR (r * r)) then 0
                          else psf_fun y x)))
            /\ (~ in_stamp row col -> getpix img' row col = Some v)).
Proof.
  intros self x0 y0 rolldeg psf_fun [H W] limflux max_psf_rad ret_img n s Hn
    dxn dyn r i j in_stamp.
  destruct (getitem_rotate_cat self rolldeg n s Hn) as (Ef & Ex & Ey).
  cbn [fst snd] in in_stamp.
  unfold draw_star. rewrite Ef, Ex, Ey. cbn [bind fst snd].
  fold dxn dyn. fold r. fold i j.
  destruct (Rlt_dec (fscale s) limflux) as [Hf|Hf].
  { exists ret_img. repeat split; auto; contradiction. }
  destruct (Z.geb_spec (i - r) (Z.of_nat W)) as [G1|G1].
  { exists ret_img. split; [reflexivity|]. split; [auto|].
    intros _ row col v Hv. split; [|auto].
    intros [_ [Hc Hw]]. lia. }
  destruct (Z.leb_spec (i + r) 0) as [G2|G2].
  { exists ret_img. split; [reflexivity|]. split; [auto|].
    intros _ row col v Hv. split; [|auto].
    intros [_ [Hc Hw]]. lia. }
  destruct (Z.geb_spec (j - r) (Z.of_nat H)) as [G3|G3].
  { exists ret_img. split; [reflexivity|]. split; [auto|].
    intros _ row col v Hv. split; [|auto].
    intros [[Hc Hw] _]. lia. }
  destruct (Z.leb_spec (j + r) 0) as [G4|G4].
  { exists ret_img. split; [reflexivity|]. split; [auto|].
    intros _ row col v Hv. split; [|auto].
    intros [[Hc Hw] _]. lia. }
  set (i0 := Z.max (i - r) 0). set (i1 := Z.min (i + r) (Z.of_nat W)).
  set (j0 := Z.max (j - r) 0). set (j1 := Z.min (j + r) (Z.of_nat H)).
  set (xcoo := map (fun c => c - x0) (arange W)).
  set (ycoo := map (fun c => c - y0) (arange H)).
  assert (Lx : length xcoo = W)
    by (unfold xcoo; now rewrite length_map, length_arange).
  assert (Ly : length ycoo = H)
    by (unfold ycoo; now rewrite length_map, length_arange).
  set (ddx := map (fun v => v - dxn) (slice xcoo i0 i1)).
  set (ddy := map (fun v => v - dyn) (slice ycoo j0 j1)).
  assert (Dx : forall b, nth_error ddx b =
            if (b <? Z.to_nat (i1 - i0))%nat
            then Some (INR (Z.to_nat i0 + b) - x0 - dxn) else None).
  { intros b. unfold ddx. rewrite nth_error_map, nth_error_slice by lia.
    destruct (Nat.ltb_spec b (Z.to_nat (i1 - i0))); [|reflexivity].
    unfold xcoo. rewrite nth_error_map, nth_error_arange.
    destruct (Nat.ltb_spec (Z.to_nat i0 + b) W); [reflexivity | lia]. }
  assert (Dy : forall a, nth_error ddy a =
            if (a <? Z.to_nat (j1 - j0))%nat
            then Some (INR (Z.to_nat j0 + a) - y0 - dyn) else None).
  { intros a. unfold ddy. rewrite nth_error_map, nth_error_slice by lia.
    destruct (Nat.ltb_spec a (Z.to_nat (j1 - j0))); [|reflexivity].
    unfold ycoo. rewrite nth_error_map, nth_error_arange.
    destruct (Nat.ltb_spec (Z.to_nat j0 + a) H); [reflexivity | lia]. }
  change (let '(xmat, ymat) := meshgrid ddx ddy in
          Ok (add_at ret_img j0 i0
                (map (map (Rmult (fscale s)))
                   (zero_outside xmat ymat r (grid psf_fun ddy ddx)))))
    with (Ok (add_at ret_img j0 i0
                (map (map (Rmult (fscale s)))
                   (zero_outside (fst (meshgrid ddx ddy))
                      (snd (meshgrid ddx ddy)) r (grid psf_fun ddy ddx))))).
  set (m := map (map (Rmult (fscale s))) _).
  exists (add_at ret_img j0 i0 m). split; [reflexivity|]. split.
  - (* nothing of the stamp is inside the image *)
    intros Hout. unfold add_at. apply update_from_id.
    intros row mrow Hin. apply update_from_id. intros x y Hy.
    exfalso.
    apply In_nth_error in Hin as [a Ha]. apply In_nth_error in Hy as [b Hb].
    assert (P : getpix m a b = Some y) by (unfold getpix; now rewrite Ha).
    unfold m in P. rewrite getpix_stamp, Dy, Dx in P.
    destruct (Nat.ltb_spec a (Z.to_nat (j1 - j0))); [|discriminate].
    destruct (Nat.ltb_spec b (Z.to_nat (i1 - i0))); [|discriminate].
    apply (Hout (Z.to_nat j0 + a)%nat (Z.to_nat i0 + b)%nat).
    unfold in_stamp; cbn [fst snd]. lia.
  - intros _ row col v Hv. unfold add_at.
    rewrite getpix_update_from, Hv. unfold m.
    rewrite getpix_stamp, Dy, Dx. split.
    + intros [[Hr Hh] [Hc Hw]]. cbn [fst snd] in Hh, Hw.
      destruct (Nat.leb_spec (Z.to_nat j0) row); [|lia].
      destruct (Nat.leb_spec (Z.to_nat i0) col); [|lia].
      simpl andb. cbv iota.
      destruct (Nat.ltb_spec (row - Z.to_nat j0) (Z.to_nat (j1 - j0))); [|lia].
      destruct (Nat.ltb_spec (col - Z.to_nat i0) (Z.to_nat (i1 - i0))); [|lia].
      replace (Z.to_nat j0 + (row - Z.to_nat j0))%nat with row by lia.
      replace (Z.to_nat i0 + (col - Z.to_nat i0))%nat with col by lia.
      reflexivity.
    + intros Hns.
      destruct (Nat.leb_spec (Z.to_nat j0) row); simpl andb; auto.
      destruct (Nat.leb_spec (Z.to_nat i0) col); cbv iota; auto.
      destruct (Nat.ltb_spec (row - Z.to_nat j0) (Z.to_nat (j1 - j0))); auto.
      destruct (Nat.ltb_spec (col - Z.to_nat i0) (Z.to_nat (i1 - i0))); auto.
      exfalso. apply Hns. unfold in_stamp; cbn [fst snd]. lia.
Qed.

Lemma has_shape_zeros (shp : nat * nat) : has_shape shp (zeros shp).
Proof.
  unfold has_shape, zeros. rewrite repeat_length. split; [reflexivity|].
  apply Forall_forall. intros row Hin. apply repeat_spec in Hin. subst.
  apply repeat_length.
Qed.

Lemma has_shape_add_at (shp : nat * nat) (img : image_t) (j0 i0 : Z)
  (m : image_t) :
  has_shape shp img -> has_shape shp (add_at img j0 i0 m).
Proof.
  intros [Hl Hr]. unfold has_shape, add_at.
  rewrite length_update_from. split; [assumption|].
  apply Forall_update_from; [|assumption].
  intros row mrow E. now rewrite length_update_from.
Qed.

Lemma has_shape_draw_star self dx dy x0 y0 psf_fun shp limflux max_psf_rad
  img n img' :
  has_shape shp img ->
  draw_star self dx dy x0 y0 psf_fun shp limflux max_psf_rad img n = Ok img' ->
  has_shape shp img'.
Proof.
  intros Hs. unfold draw_star.
  destruct (getitem (map fscale (cat self)) n) as [fs|]; [|discriminate].
  cbn [bind]. destruct (Rlt_dec fs limflux); [congruence|].
  destruct (getitem dx n) as [dxn|]; [|discriminate]. cbn [bind].
  destruct (_ >=? _)%Z; [congruence|].
  destruct (_ <=? 0)%Z; [congruence|].
  destruct (getitem dy n) as [dyn|]; [|discriminate]. cbn [bind].
  destruct (_ >=? _)%Z; [congruence|].
  destruct (_ <=? 0)%Z; [congruence|].
  unfold meshgrid. intros E; injection E as <-.
  now apply has_shape_add_at.
Qed.

Lemma has_shape_draw_all step shp :
  (forall img n img', has_shape shp img -> step img n = Ok img' ->
                      has_shape shp img') ->
  forall ids img img',
    has_shape shp img -> draw_all step ids img = Ok img' -> has_shape shp img'.
Proof.
  intros Hstep. induction ids as [|n ids IH]; intros img img' Hs; simpl.
  - congruence.
  - destruct (step img n) as [im|] eqn:E; [|discriminate]. cbn [bind].
    apply IH. eapply Hstep; eauto.
Qed.

Lemma has_shape_image self x0 y0 rolldeg psf_fun shp target limflux single_id
  max_psf_rad img :
  image self x0 y0 rolldeg psf_fun (Some shp) target limflux single_id
    max_psf_rad = Ok img ->
  has_shape shp img.
Proof.
  unfold image, rotate_cat. intros E.
  eapply has_shape_draw_all; [| apply has_shape_zeros | exact E].
  intros im n im'. apply has_shape_draw_star.
Qed.

Lemma row_add_zeros_div1 (row : list R) :
  map2 Rplus (repeat 0 (length row)) (map (fun v => v / 1) row) = row.
Proof.
  induction row as [|v row IH]; simpl; [reflexivity|].
  rewrite IH. f_equal. lra.
Qed.

Lemma img_add_zeros_div1 (shp : nat * nat) (img : image_t) :
  has_shape shp img -> img_add (zeros shp) (img_div img 1) = img.
Proof.
  intros [Hl Hr]. unfold img_add, img_div, zeros. rewrite <- Hl. clear Hl.
  induction img as [|row img IH]; simpl; [reflexivity|].
  inversion Hr as [|? ? Hrow Hrest]; subst.
  rewrite IH by assumption. rewrite <- Hrow. now rewrite row_add_zeros_div1.
Qed.

(** C10.  With no blur ([blurdeg] = 0) [rotblur] averages one render
    (N = 1), taken at the requested roll angle, and so returns what
    [image] returns for the same arguments. *)
Theorem rotblur_zero_blur :
  forall (self : star_bg) (x0 y0 rolldeg : R) (psf_fun : psf_t)
    (oversample : R) (shp : option (nat * nat)) (target : Z) (limflux : R)
    (single_id : option Z) (max_psf_rad : Z),
    rotblur self x0 y0 rolldeg 0 psf_fun oversample shp target limflux
      single_id max_psf_rad
    = image self x0 y0 rolldeg psf_fun shp target limflux single_id
        max_psf_rad
    /\ (let shp' := match shp with None => shape self | Some s => s end in
        int (0 / (rad2deg (1 / INR (Nat.max (fst shp') (snd shp')))
                  / oversample)) + 1 = 1)%Z
    /\ linspace (-1) 1 1 = Ok [-1]
    /\ map (fun t => rolldeg + 1 / 2 * 0 * t) [-1] = [rolldeg].
Proof.
  intros. split; [|split; [|split; [reflexivity|]]].
  3: { cbn [map]. f_equal. lra. }
  - unfold rotblur.
    set (shp' := match shp with None => shape self | Some s => s end).
    set (res := rad2deg (1 / INR (Nat.max (fst shp') (snd shp'))) / oversample).
    assert (EN : (int (0 / res) + 1 = 1)%Z).
    { unfold Rdiv at 1. rewrite Rmult_0_l, int_IZR. reflexivity. }
    cbv zeta. rewrite EN.
    unfold linspace. cbn [Z.ltb Z.eqb Z.compare Pos.compare Pos.eqb bind map].
    replace (rolldeg + 1 / 2 * 0 * -1) with rolldeg by lra.
    cbn [blur_all].
    assert (E : image self x0 y0 rolldeg psf_fun shp target limflux single_id
                  max_psf_rad
                = image self x0 y0 rolldeg psf_fun (Some shp') target limflux
                    single_id max_psf_rad) by (destruct shp; reflexivity).
    rewrite E.
    destruct (image self x0 y0 rolldeg psf_fun (Some shp') target limflux
                single_id max_psf_rad) as [img|e] eqn:Ei; cbn [bind];
      [|reflexivity].
    f_equal. apply img_add_zeros_div1.
    eapply has_shape_image; eassumption.
  - cbv zeta. unfold Rdiv at 1. rewrite Rmult_0_l, int_IZR. reflexivity.
Qed.

(** What one star adds to the pixel ([row], [col]) of the image. *)
Lemma draw_star_pixel self x0 y0 rolldeg psf_fun shp limflux max_psf_rad
  img n s row col v :
  getitem (cat self) n = Ok s ->
  getpix img row col = Some v ->
  let dxn := fst (rotate_position (xpos s) (ypos s) rolldeg) in
  let dyn := snd (rotate_position (xpos s) (ypos s) rolldeg) in
  let r := psf_radius (fscale s) max_psf_rad in
  let i := int (x0 + dxn) in
  let j := int (y0 + dyn) in
  let inside :=
    ((j - r <=? Z.of_nat row) && (Z.of_nat row <? j + r)
     && (Z.of_nat row <? Z.of_nat (fst shp))
     && (i - r <=? Z.of_nat col) && (Z.of_nat col <? i + r)
     && (Z.of_nat col <? Z.of_nat (snd shp)))%Z in
  let x := INR col - x0 - dxn in
  let y := INR row - y0 - dyn in
  exists img',
    draw_star self (fst (rotate_cat self rolldeg))
      (snd (rotate_cat self rolldeg)) x0 y0 psf_fun shp limflux max_psf_rad
      img n = Ok img'
    /\ getpix img' row col
       = Some (v + (if Rlt_dec (fscale s) limflux then 0
                    else if inside
                    then fscale s *
                         (if Rgt_dec (x * x + y * y) (IZR (r * r)) then 0
                          else psf_fun y x)
                    else 0)).
Proof.
  destruct shp as [H W].
  intros Hn Hv dxn dyn r i j inside x y. cbn [fst snd] in inside.
  destruct (getitem_rotate_cat self rolldeg n s Hn) as (Ef & Ex & Ey).
  unfold draw_star. rewrite Ef, Ex, Ey. cbn [bind fst snd].
  fold dxn dyn. fold r. fold i j.
  destruct (Rlt_dec (fscale s) limflux) as [Hf|Hf].
  { exists img. split; [reflexivity|]. now rewrite Rplus_0_r. }
  assert (Skip : inside = false -> exists img',
            Ok img = Ok img'
            /\ getpix img' row col
               = Some (v + (if inside
                            then fscale s *
                                 (if Rgt_dec (x * x + y * y) (IZR (r * r))
                                  then 0 else psf_fun y x)
                            else 0))).
  { intros ->. exists img. split; [reflexivity|]. now rewrite Rplus_0_r. }
  destruct (Z.geb_spec (i - r) (Z.of_nat W)) as [G1|G1].
  { apply Skip. unfold inside.
    destruct (Z.leb_spec (i - r) (Z.of_nat col));
      destruct (Z.ltb_spec (Z.of_nat col) (Z.of_nat W));
      rewrite ?andb_false_r; try reflexivity; lia. }
  destruct (Z.leb_spec (i + r) 0) as [G2|G2].
  { apply Skip. unfold inside.
    destruct (Z.ltb_spec (Z.of_nat col) (i + r));
      rewrite ?andb_false_r; try reflexivity; lia. }
  destruct (Z.geb_spec (j - r) (Z.of_nat H)) as [G3|G3].
  { apply Skip. unfold inside.
    destruct (Z.leb_spec (j - r) (Z.of_nat row));
      destruct (Z.ltb_spec (Z.of_nat row) (Z.of_nat H));
      rewrite ?andb_false_r; cbn [andb]; try reflexivity; lia. }
  destruct (Z.leb_spec (j + r) 0) as [G4|G4].
  { apply Skip. unfold inside.
    destruct (Z.ltb_spec (Z.of_nat row) (j + r));
      rewrite ?andb_false_r; cbn [andb]; try reflexivity; lia. }
  clear Skip.
  set (i0 := Z.max (i - r) 0). set (i1 := Z.min (i + r) (Z.of_nat W)).
  set (j0 := Z.max (j - r) 0). set (j1 := Z.min (j + r) (Z.of_nat H)).
  set (xcoo := map (fun c => c - x0) (arange W)).
  set (ycoo := map (fun c => c - y0) (arange H)).
  assert (Lx : length xcoo = W)
    by (unfold xcoo; now rewrite length_map, length_arange).
  assert (Ly : length ycoo = H)
    by (unfold ycoo; now rewrite length_map, length_arange).
  set (ddx := map (fun v => v - dxn) (slice xcoo i0 i1)).
  set (ddy := map (fun v => v - dyn) (slice ycoo j0 j1)).
  assert (Dx : forall b, nth_error ddx b =
            if (b <? Z.to_nat (i1 - i0))%nat
            then Some (INR (Z.to_nat i0 + b) - x0 - dxn) else None).
  { intros b. unfold ddx. rewrite nth_error_map, nth_error_slice by lia.
    destruct (Nat.ltb_spec b (Z.to_nat (i1 - i0))); [|reflexivity].
    unfold xcoo. rewrite nth_error_map, nth_error_arange.
    destruct (Nat.ltb_spec (Z.to_nat i0 + b) W); [reflexivity | lia]. }
  assert (Dy : forall a, nth_error ddy a =
            if (a <? Z.to_nat (j1 - j0))%nat
            then Some (INR (Z.to_nat j0 + a) - y0 - dyn) else None).
  { intros a. unfold ddy. rewrite nth_error_map, nth_error_slice by lia.
    destruct (Nat.ltb_spec a (Z.to_nat (j1 - j0))); [|reflexivity].
    unfold ycoo. rewrite nth_error_map, nth_error_arange.
    destruct (Nat.ltb_spec (Z.to_nat j0 + a) H); [reflexivity | lia]. }
  change (let '(xmat, ymat) := meshgrid ddx ddy in
          Ok (add_at img j0 i0
                (map (map (Rmult (fscale s)))
                   (zero_outside xmat ymat r (grid psf_fun ddy ddx)))))
    with (Ok (add_at img j0 i0
                (map (map (Rmult (fscale s)))
                   (zero_outside (fst (meshgrid ddx ddy))
                      (snd (meshgrid ddx ddy)) r (grid psf_fun ddy ddx))))).
  eexists. split; [reflexivity|].
  unfold add_at. rewrite getpix_update_from, Hv, getpix_stamp, Dy, Dx.
  unfold inside.
  destruct (Z.leb_spec (j - r) (Z.of_nat row));
    destruct (Z.ltb_spec (Z.of_nat row) (j + r));
    destruct (Z.ltb_spec (Z.of_nat row) (Z.of_nat H));
    destruct (Z.leb_spec (i - r) (Z.of_nat col));
    destruct (Z.ltb_spec (Z.of_nat col) (i + r));
    destruct (Z.ltb_spec (Z.of_nat col) (Z.of_nat W));
    cbn [andb];
    destruct (Nat.leb_spec (Z.to_nat j0) row);
    destruct (Nat.leb_spec (Z.to_nat i0) col);
    cbn [andb]; rewrite ?Rplus_0_r; try reflexivity;
    try (destruct (Nat.ltb_spec (row - Z.to_nat j0) (Z.to_nat (j1 - j0)));
         [|try reflexivity; lia];
         destruct (Nat.ltb_spec (col - Z.to_nat i0) (Z.to_nat (i1 - i0)));
         [|try reflexivity; lia]);
    try lia.
  replace (Z.to_nat j0 + (row - Z.to_nat j0))%nat with row by lia.
  replace (Z.to_nat i0 + (col - Z.to_nat i0))%nat with col by lia.
  reflexivity.
Qed.

(** C9.  The evaluation radius of a star is tiered by its flux ratio and
    capped by [max_psf_rad]: above 0.1 it is min(70, max_psf_rad), above
    1e-3 and up to 0.1 it is min(50, max_psf_rad), and up to 1e-3 it is
    min(30, max_psf_rad); so 0.5 gives min(70, max_psf_rad) and 1e-4 gives
    min(30, max_psf_rad).  A star whose flux ratio is below [limflux]
    leaves the image as it was.  A star that is drawn is evaluated with
    the radius [r] of its tier: its stamp is the box of half-width [r]
    around its pixel, clipped to the image; at a pixel of the stamp it
    adds its flux ratio times the PSF, or times 0 where the pixel is
    farther than [r] from the star, and outside the stamp it adds
    nothing. *)
Theorem psf_radius_tiers :
  forall (fs : R) (max_psf_rad : Z),
    (fs > 1 / 10 -> psf_radius fs max_psf_rad = Z.min 70 max_psf_rad)
    /\ (1 / 1000 < fs <= 1 / 10 ->
        psf_radius fs max_psf_rad = Z.min 50 max_psf_rad)
    /\ (fs <= 1 / 1000 -> psf_radius fs max_psf_rad = Z.min 30 max_psf_rad)
    /\ psf_radius (1 / 2) max_psf_rad = Z.min 70 max_psf_rad
    /\ psf_radius (1 / 10000) max_psf_rad = Z.min 30 max_psf_rad
    /\ (forall self dx dy x0 y0 psf_fun shp limflux ret_img n,
          getitem (map fscale (cat self)) n = Ok fs ->
          fs < limflux ->
          draw_star self dx dy x0 y0 psf_fun shp limflux max_psf_rad
            ret_img n = Ok ret_img)
    /\ (forall self x0 y0 rolldeg psf_fun shp limflux img n s row col v r,
          getitem (cat self) n = Ok s ->
          fscale s = fs ->
          ~ fs < limflux ->
          getpix img row col = Some v ->
          (fs > 1 / 10 -> r = Z.min 70 max_psf_rad) ->
          (1 / 1000 < fs <= 1 / 10 -> r = Z.min 50 max_psf_rad) ->
          (fs <= 1 / 1000 -> r = Z.min 30 max_psf_rad) ->
          let dxn := fst (rotate_position (xpos s) (ypos s) rolldeg) in
          let dyn := snd (rotate_position (xpos s) (ypos s) rolldeg) in
          let i := int (x0 + dxn) in
          let j := int (y0 + dyn) in
          let inside :=
            ((j - r <=? Z.of_nat row) && (Z.of_nat row <? j + r)
             && (Z.of_nat row <? Z.of_nat (fst shp))
             && (i - r <=? Z.of_nat col) && (Z.of_nat col <? i + r)
             && (Z.of_nat col <? Z.of_nat (snd shp)))%Z in
          let x := INR col - x0 - dxn in
          let y := INR row - y0 - dyn in
          exists img',
            draw_star self (fst (rotate_cat self rolldeg))
              (snd (rotate_cat self rolldeg)) x0 y0 psf_fun shp limflux
              max_psf_rad img n = Ok img'
            /\ getpix img' row col
               = Some (v + (if inside
                            then fs *
                                 (if Rgt_dec (x * x + y * y) (IZR (r * r))
                                  then 0 else psf_fun y x)
                            else 0))).
Proof.
  intros fs max_psf_rad.
  assert (T1 : fs > 1 / 10 ->
               psf_radius fs max_psf_rad = Z.min 70 max_psf_rad).
  { intros H. unfold psf_radius.
    destruct (Rgt_dec fs (1 / 10)); [reflexivity | lra]. }
  assert (T2 : 1 / 1000 < fs <= 1 / 10 ->
               psf_radius fs max_psf_rad = Z.min 50 max_psf_rad).
  { intros H. unfold psf_radius.
    destruct (Rgt_dec fs (1 / 10)); [lra|].
    destruct (Rgt_dec fs (1 / 1000)); [reflexivity | lra]. }
  assert (T3 : fs <= 1 / 1000 ->
               psf_radius fs max_psf_rad = Z.min 30 max_psf_rad).
  { intros H. unfold psf_radius.
    destruct (Rgt_dec fs (1 / 10)); [lra|].
    destruct (Rgt_dec fs (1 / 1000)); [lra | reflexivity]. }
  repeat match goal with |- _ /\ _ => split end;
    [exact T1 | exact T2 | exact T3 | | | |].
  - unfold psf_radius.
    destruct (Rgt_dec (1 / 2) (1 / 10)); [reflexivity | lra].
  - unfold psf_radius.
    destruct (Rgt_dec (1 / 10000) (1 / 10)); [lra|].
    destruct (Rgt_dec (1 / 10000) (1 / 1000)); [lra | reflexivity].
  - intros self dx dy x0 y0 psf_fun shp limflux ret_img n Hn Hlt.
    unfold draw_star. rewrite Hn. simpl.
    destruct (Rlt_dec fs limflux); [reflexivity | contradiction].
  - intros self x0 y0 rolldeg psf_fun shp limflux img n s row col v r
      Hn Hfs Hdrawn Hv R1 R2 R3 dxn dyn i j inside x y.
    assert (Hr : r = psf_radius fs max_psf_rad).
    { destruct (Rle_lt_dec fs (1 / 1000)) as [Hlow|Hlow];
        [rewrite T3, R3 by lra; reflexivity|].
      destruct (Rle_lt_dec fs (1 / 10)) as [Hmid|Hhigh];
        [rewrite T2, R2 by lra; reflexivity|].
      rewrite T1, R1 by lra. reflexivity. }
    destruct (draw_star_pixel self x0 y0 rolldeg psf_fun shp limflux
                max_psf_rad img n s row col v Hn Hv) as (img' & Hd & Hp).
    exists img'. split; [exact Hd|]. rewrite Hp.
    rewrite Hfs, <- Hr.
    destruct (Rlt_dec fs limflux); [contradiction | reflexivity].
Qed.

End SyntstarFacts.

(** ** Properties of psf_worker.py *)

Section PsfWorkerFacts.

Import PsfWorker.
Local Open Scope R_scope.

Lemma fold_left_Rmax_ge (l : list R) (v : R) :
  v <= fold_left Rmax l v /\ (forall u, In u l -> u <= fold_left Rmax l v).
Proof.
  revert v; induction l as [|a l IH]; intros v; simpl.
  - split; [lra | tauto].
  - destruct (IH (Rmax v a)) as [H1 H2].
    pose proof (Rmax_l v a). pose proof (Rmax_r v a).
    split; [lra|]. intros u [<-|Hu]; [lra | auto].
Qed.

Lemma fold_left_Rmax_in (l : list R) (v : R) :
  fold_left Rmax l v = v \/ In (fold_left Rmax l v) l.
Proof.
  revert v; induction l as [|a l IH]; intros v; simpl; [auto|].
  destruct (IH (Rmax v a)) as [E|Hin]; [|auto].
  rewrite E. unfold Rmax. destruct (Rle_dec v a); auto.
Qed.

(** [np.max] of a non-empty array is its greatest element. *)
Lemma np_max_spec (l : list R) :
  l <> [] ->
  exists m, np_max l = Ok m /\ In m l /\ (forall u, In u l -> u <= m).
Proof.
  destruct l as [|v l]; [congruence|]. intros _.
  exists (fold_left Rmax l v). split; [reflexivity|].
  destruct (fold_left_Rmax_ge l v) as [H1 H2]. split.
  - destruct (fold_left_Rmax_in l v) as [E|Hin];
      [rewrite E; now left | now right].
  - intros u [<-|Hu]; auto.
Qed.

Lemma for_range_snoc {St} (n : nat) (body : St -> result St) (st : St) :
  for_range (S n) body st = (st' <- for_range n body st ;; body st').
Proof.
  revert st; induction n as [|n IH]; intros st; cbn [for_range].
  - cbn [bind]. destruct (body st); reflexivity.
  - destruct (body st) as [st1|e]; cbn [bind]; [|reflexivity].
    exact (IH st1).
Qed.

(** C6.  A pass of [make_psf] fits the spline to the samples kept so far
    and then keeps, for the next pass, exactly the samples with
    |value - fit| < 3 s (|fit| + k), where fit is the spline at every
    sample position, k = 0.1 max(fit) and s is the standard deviation of
    (value - fit) / (|fit| + k).  With [niter] = n + 1 the surface returned
    is the one fitted in the last pass; the selection computed after it
    is not used. *)
Theorem make_psf_sigma_clipping :
  forall (LSQBivariateSpline :
            list R -> list R -> list R -> list R -> list R -> list R ->
            Z -> Z -> result spline)
    (pix : list sample) (radius : R) (polydeg : Z),
    (* the filter, on a non-empty table *)
    (forall psf_spline : spline,
        pix <> [] ->
        let fit := map (fun p => psf_spline (px p) (py p)) pix in
        exists m sel,
          np_max fit = Ok m /\ In m fit /\ (forall u, In u fit -> u <= m)
          /\ filter_pix psf_spline pix 3 = Ok sel
          /\ length sel = length pix
          /\ let k := 1 / 10 * m in
             let s := np_std (map (fun p =>
                          (pz p - psf_spline (px p) (py p))
                          / (Rabs (psf_spline (px p) (py p)) + k)) pix) in
             forall i p,
               nth_error pix i = Some p ->
               exists b,
                 nth_error sel i = Some b
                 /\ (b = true <->
                     Rabs (pz p - psf_spline (px p) (py p))
                     < 3 * s * (Rabs (psf_spline (px p) (py p)) + k)))
    (* one pass: fit on the kept samples, then filter all samples *)
    /\ (forall w0 t st st',
           make_psf_pass LSQBivariateSpline pix w0 t polydeg st = Ok st' ->
           exists psf_spline,
             fit_selected LSQBivariateSpline pix w0 t polydeg (snd st)
             = Ok psf_spline
             /\ fst st' = Some psf_spline
             /\ filter_pix psf_spline pix 3 = Ok (snd st'))
    (* the last pass *)
    /\ (forall n : nat,
           make_psf LSQBivariateSpline pix radius polydeg
             (Z.of_nat (S n))
           = (t <- linspace (- (radius - 1)) (radius - 1)
                    (int (2 * (radius - 1) + 1)) ;;
              let w0 := nanmedian (map pe pix) in
              st <- for_range n
                      (make_psf_pass LSQBivariateSpline pix w0 t polydeg)
                      (None, repeat true (length pix)) ;;
              psf_spline <- fit_selected LSQBivariateSpline pix w0 t polydeg
                              (snd st) ;;
              _ <- filter_pix psf_spline pix 3 ;;
              Ok psf_spline)).
Proof.
  intros LSQ pix radius polydeg. split; [|split].
  - intros psf_spline Hne fit.
    assert (Hfit : fit <> []) by (unfold fit; destruct pix; simpl; congruence).
    destruct (np_max_spec fit Hfit) as (m & Em & Hin & Hmax).
    unfold filter_pix. fold fit. rewrite Em. cbn [bind].
    eexists m, _. split; [reflexivity|]. split; [exact Hin|].
    split; [exact Hmax|]. split; [reflexivity|]. split.
    + rewrite length_map2. unfold fit. rewrite !length_map. lia.
    + intros i p Hp.
      rewrite nth_error_map2. unfold fit. rewrite !nth_error_map, Hp.
      cbn [option_map].
      assert (Es : map2 (fun v f => (v - f) / (Rabs f + 1 / 10 * m))
                     (map pz pix) (map (fun p => psf_spline (px p) (py p)) pix)
                   = map (fun p => (pz p - psf_spline (px p) (py p))
                                   / (Rabs (psf_spline (px p) (py p))
                                      + 1 / 10 * m)) pix).
      { clear. induction pix as [|q l IH]; simpl;
          [reflexivity | now rewrite IH]. }
      rewrite Es.
      destruct (Rlt_dec _ _) as [Hl|Hl]; eexists; split; try reflexivity.
      * tauto.
      * split; [discriminate | contradiction].
  - intros w0 t [o sel] st'. unfold make_psf_pass. cbn [snd].
    destruct (fit_selected LSQ pix w0 t polydeg sel) as [sp|]; [|discriminate].
    cbn [bind].
    destruct (filter_pix sp pix 3) as [sel'|] eqn:Ef; [|discriminate].
    cbn [bind]. intros E; injection E as <-. exists sp.
    repeat split; assumption.
  - intros n. unfold make_psf.
    destruct (linspace _ _ _) as [t|]; [|reflexivity]. cbn [bind].
    rewrite Nat2Z.id, for_range_snoc.
    destruct (for_range n _ _) as [[o sel]|]; [|reflexivity]. cbn [bind snd].
    unfold make_psf_pass at 1. cbn [snd].
    destruct (fit_selected LSQ pix _ t polydeg sel) as [sp|]; [|reflexivity].
    cbn [bind].
    destruct (filter_pix sp pix 3) as [sel'|]; reflexivity.
Qed.

End PsfWorkerFacts.

(** ** Properties of pipe/psf.py *)

Section PsfFacts.

Import Psf.
Local Open Scope string_scope.

Context {F : Type} {AF : Arith F}.
Variable coo_mat : nat * nat -> F -> F -> image_t F * image_t F.
Variable psf_integral : list (psf_t F) -> list F.
Variable lstsq : nat -> matrix F -> list F -> result (list F).
Variable nnls : matrix F -> list F -> result (list F).

Lemma least_square_run (eq_mat : matrix F) (res_vec : list F) (w : world F) :
  _least_square lstsq nnls eq_mat res_vec false w =
  match lstsq (length (solves w)) eq_mat res_vec with
  | Ok x => (Ok x, after_calls w [(eq_mat, res_vec)])
  | Raise _ =>
      (lstsq (S (length (solves w))) eq_mat res_vec,
       after_calls w [(eq_mat, res_vec); (eq_mat, res_vec)])
  end.
Proof.
  unfold _least_square, try_except, call_lstsq, after_calls.
  destruct (lstsq (length (solves w)) eq_mat res_vec) as [x|e]; [reflexivity|].
  cbn [solves stdout]. rewrite length_app, Nat.add_comm. cbn [length Nat.add].
  rewrite <- app_assoc. reflexivity.
Qed.

(** C3.  A least-squares solve outside the non-negative mode calls the
    linear solver once; if that call raises, it calls the solver a second
    time on the same system and returns or raises whatever that second
    call does.  The first error is not seen, and there is no third call.
    In the non-negative mode the other solver is called once, with no
    retry. *)
Theorem least_square_retries_once :
  forall (eq_mat : matrix F) (res_vec : list F) (w : world F),
    let k := length (solves w) in
    let call := (eq_mat, res_vec) in
    (forall x, lstsq k eq_mat res_vec = Ok x ->
       _least_square lstsq nnls eq_mat res_vec false w
       = (Ok x, {| solves := solves w ++ [call]; stdout := stdout w |}))
    /\ (forall e, lstsq k eq_mat res_vec = Raise e ->
          _least_square lstsq nnls eq_mat res_vec false w
          = (lstsq (S k) eq_mat res_vec,
             {| solves := solves w ++ [call; call]; stdout := stdout w |}))
    /\ _least_square lstsq nnls eq_mat res_vec true w
       = (nnls eq_mat res_vec, w).
Proof.
  intros eq_mat res_vec w k call. repeat split.
  - intros x Hx. rewrite least_square_run. fold k. rewrite Hx. reflexivity.
  - intros e He. rewrite least_square_run. fold k. rewrite He. reflexivity.
Qed.

Lemma length_concat_const {A} (xs : list A) (n : nat) (ys : list A) :
  length ys = n ->
  length (concat (map (fun _ => xs) ys)) = (n * length xs)%nat.
Proof.
  revert n; induction ys as [|y ys IH]; intros n <-; simpl; [reflexivity|].
  rewrite length_app, (IH (length ys)) by reflexivity. reflexivity.
Qed.

(** The kernel grid exists when [krn_rad] is not negative and has
    [side * side] offsets. *)
Lemma kernel_grid_ok (krn_scl : F) (krn_rad : Z) :
  (0 <= krn_rad)%Z ->
  exists xkern xk yk,
    kernel_grid krn_scl krn_rad = Ok (xkern, xk, yk)
    /\ length xk = (length xkern * length xkern)%nat.
Proof.
  intros Hk. unfold kernel_grid, linspace.
  destruct (Z.ltb_spec (2 * krn_rad + 1) 0); [lia|].
  destruct (Z.eqb_spec (2 * krn_rad + 1) 0); [lia|].
  destruct (Z.eqb_spec (2 * krn_rad + 1) 1); cbn [bind meshgrid];
    eexists _, _, _; (split; [reflexivity|]);
    now apply length_concat_const.
Qed.

Lemma kernel_grid_side (krn_scl : F) (krn_rad : Z) xkern xk yk :
  kernel_grid krn_scl krn_rad = Ok (xkern, xk, yk) ->
  length xk = (length xkern * length xkern)%nat.
Proof.
  unfold kernel_grid.
  destruct (linspace _ _ _) as [l|]; [|discriminate]. cbn [bind meshgrid].
  intros E; injection E as <- <- <-. now apply length_concat_const.
Qed.

(** A run of [fit] that returns went through both passes. *)
Lemma fit_run_ok (psf_list : list (psf_t F)) (frame noise : image_t F)
  (mask : mask_t) (xc yc radius krn_scl : F) (krn_rad bg_fit : Z)
  (w0 w1 : world F) (r : fit_result F) :
  fit coo_mat psf_integral lstsq nnls psf_list frame noise mask xc yc radius
    krn_scl krn_rad bg_fit w0 = (Ok r, w1) ->
  let shp := shape_of frame in
  let xcoo := map (fun v => fsub v xc) (arange (fst shp)) in
  let ycoo := map (fun v => fsub v yc) (arange (snd shp)) in
  let aperture := fit_aperture coo_mat frame mask xc yc radius in
  let fvec := select aperture frame in
  let nvec := select aperture noise in
  let bgcol := if (bg_fit =? 0)%Z then [inverse_noise nvec] else [] in
  exists xkern xk yk psf0 kvec w wa wb,
    kernel_grid krn_scl krn_rad = Ok (xkern, xk, yk)
    /\ getitem psf_list 0 = Ok psf0
    /\ _least_square lstsq nnls
         (fit_columns1 psf0 aperture nvec ycoo xcoo yk xk ++ bgcol)
         (map2 fdiv fvec nvec) false w0 = (Ok kvec, wa)
    /\ (length xk <= length kvec)%nat
    /\ _least_square lstsq nnls
         (fit_columns2 psf_list shp kvec aperture nvec ycoo xcoo yk xk
          ++ bgcol)
         (map2 fdiv fvec nvec) false wa = (Ok w, wb)
    /\ (length psf_list <= length w)%nat
    /\ fit_normalize (psf_integral psf_list) bg_fit (length xk)
         (length xkern)
         (fit_composite psf_list shp kvec w ycoo xcoo yk xk) kvec w wb
       = (Ok r, w1).
Proof.
  intros Hrun shp xcoo ycoo aperture fvec nvec bgcol.
  unfold fit, mbind, lift in Hrun.
  fold shp in Hrun. fold xcoo ycoo aperture in Hrun. fold fvec nvec in Hrun.
  fold bgcol in Hrun.
  destruct (kernel_grid krn_scl krn_rad) as [[[xkern xk] yk]|];
    [|discriminate].
  destruct (getitem psf_list 0) as [psf0|]; [|discriminate].
  destruct (_least_square lstsq nnls
              (fit_columns1 psf0 aperture nvec ycoo xcoo yk xk ++ bgcol)
              (map2 fdiv fvec nvec) false w0) as [[kvec|] wa] eqn:E1;
    [|discriminate].
  unfold check_index in Hrun.
  destruct (Nat.ltb_spec (length kvec) (length xk)); [discriminate|].
  destruct (_least_square lstsq nnls
              (fit_columns2 psf_list shp kvec aperture nvec ycoo xcoo yk xk
               ++ bgcol)
              (map2 fdiv fvec nvec) false wa) as [[w|] wb] eqn:E2;
    [|discriminate].
  destruct (Nat.ltb_spec (length w) (length psf_list)); [discriminate|].
  exists xkern, xk, yk, psf0, kvec, w, wa, wb. auto 10.
Qed.

Lemma world_eta (w : world F) :
  {| solves := solves w; stdout := stdout w ++ [] |} = w.
Proof. destruct w; cbn [solves stdout]. now rewrite app_nil_r. Qed.

(** What [fit_normalize] returns, and what it prints. *)
Lemma fit_normalize_run (psf_norms : list F) (bg_fit : Z) (Nk side : nat)
  (psf : image_t F) (kvec w : list F) (wb : world F) :
  let last_w := if (bg_fit =? 0)%Z then (Z.of_nat (length w) - 1)%Z
                else Z.of_nat (length w) in
  let last_k := if (bg_fit =? 0)%Z then (Z.of_nat (length kvec) - 1)%Z
                else Z.of_nat (length kvec) in
  forall bg kmat terms,
    (if (bg_fit =? 0)%Z then getitem w (-1) else Ok (of_Z 0)) = Ok bg ->
    reshape (slice kvec 0 (Z.of_nat Nk)) side side = Ok kmat ->
    broadcast_mul psf_norms (slice w 0 last_w) = Ok terms ->
    let wsum := np_sum terms in
    let norm := if fisnan wsum then of_Z 1
                else if feqb wsum (of_Z 0) then of_Z 1 else wsum in
    fit_normalize psf_norms bg_fit Nk side psf kvec w wb
    = (Ok {| fit_psf := psf;
             fit_bg := bg;
             fit_kmat := kmat;
             fit_scale := fmul (np_sum (slice kvec 0 last_k)) norm;
             fit_coeff := map (fun v => fdiv v norm) (slice w 0 last_w) |},
       {| solves := solves wb;
          stdout := stdout wb ++ wsum_diagnostic wsum |}).
Proof.
  intros last_w last_k bg kmat terms Hbg Hk Ht wsum norm.
  unfold fit_normalize, mbind, lift, ret, py_print, wsum_diagnostic.
  unfold last_w, last_k in *. clear last_w last_k.
  destruct (bg_fit =? 0)%Z.
  - rewrite Hbg. cbn [bind]. rewrite Hk, Ht. fold wsum. unfold norm.
    destruct (fisnan wsum); [reflexivity|].
    destruct (feqb wsum (of_Z 0)); [reflexivity|].
    now rewrite world_eta.
  - injection Hbg as <-. rewrite Hk, Ht. fold wsum. unfold norm.
    destruct (fisnan wsum); [reflexivity|].
    destruct (feqb wsum (of_Z 0)); [reflexivity|].
    now rewrite world_eta.
Qed.

(** A run of [fit_normalize] that returns found its three inputs. *)
Lemma fit_normalize_inv (psf_norms : list F) (bg_fit : Z) (Nk side : nat)
  (psf : image_t F) (kvec w : list F) (wb w1 : world F) (r : fit_result F) :
  fit_normalize psf_norms bg_fit Nk side psf kvec w wb = (Ok r, w1) ->
  exists bg kmat terms,
    (if (bg_fit =? 0)%Z then getitem w (-1) else Ok (of_Z 0)) = Ok bg
    /\ reshape (slice kvec 0 (Z.of_nat Nk)) side side = Ok kmat
    /\ broadcast_mul psf_norms
         (slice w 0 (if (bg_fit =? 0)%Z then (Z.of_nat (length w) - 1)%Z
                     else Z.of_nat (length w))) = Ok terms.
Proof.
  unfold fit_normalize, mbind, lift. intros Hrun.
  destruct (bg_fit =? 0)%Z.
  - destruct (getitem w (-1)) as [bg|]; [|discriminate]. cbn [bind] in Hrun.
    destruct (reshape _ side side) as [kmat|]; [|discriminate].
    destruct (broadcast_mul _ _) as [terms|]; [|discriminate].
    now exists bg, kmat, terms.
  - destruct (reshape _ side side) as [kmat|]; [|discriminate].
    destruct (broadcast_mul _ _) as [terms|]; [|discriminate].
    now exists (of_Z 0), kmat, terms.
Qed.

(** The calls a successful solve adds to the log. *)
Lemma least_square_ok (eq_mat : matrix F) (res_vec x : list F)
  (w w' : world F) :
  _least_square lstsq nnls eq_mat res_vec false w = (Ok x, w') ->
  exists calls,
    (calls = [(eq_mat, res_vec)]
     \/ calls = [(eq_mat, res_vec); (eq_mat, res_vec)])
    /\ solves w' = solves w ++ calls
    /\ stdout w' = stdout w
    /\ lstsq (length (solves w') - 1) eq_mat res_vec = Ok x.
Proof.
  rewrite least_square_run.
  destruct (lstsq (length (solves w)) eq_mat res_vec) as [y|e] eqn:E.
  - intros H; injection H as <- <-. eexists; split; [left; reflexivity|].
    cbn [after_calls solves stdout]. repeat split.
    replace (length (solves w ++ [(eq_mat, res_vec)]) - 1)%nat
      with (length (solves w)) by (rewrite length_app; simpl; lia).
    exact E.
  - intros H; injection H as H <-. eexists; split; [right; reflexivity|].
    cbn [after_calls solves stdout]. repeat split.
    replace (length (solves w ++ [(eq_mat, res_vec); (eq_mat, res_vec)]) - 1)%nat
      with (S (length (solves w))) by (rewrite length_app; simpl; lia).
    exact H.
Qed.

(** C4.  In a single-source fit with [bg_fit] = 0 the design matrices of
    both passes are the PSF columns followed by one column equal to the
    inverse noise, and the background returned is the last element of the
    weights [w] that the second pass solved for.  With [bg_fit] not 0 the
    design matrices are the PSF columns alone and the background returned
    is 0. *)
Theorem fit_background_term :
  forall (psf_list : list (psf_t F)) (frame noise : image_t F)
    (mask : mask_t) (xc yc radius krn_scl : F) (krn_rad bg_fit : Z)
    (w0 w1 : world F) (r : fit_result F),
    fit coo_mat psf_integral lstsq nnls psf_list frame noise mask xc yc
      radius krn_scl krn_rad bg_fit w0 = (Ok r, w1) ->
    let shp := shape_of frame in
    let xcoo := map (fun v => fsub v xc) (arange (fst shp)) in
    let ycoo := map (fun v => fsub v yc) (arange (snd shp)) in
    let aperture := fit_aperture coo_mat frame mask xc yc radius in
    let fvec := select aperture frame in
    let nvec := select aperture noise in
    exists xkern xk yk psf0 kvec w bgcol calls1 calls2,
      kernel_grid krn_scl krn_rad = Ok (xkern, xk, yk)
      /\ getitem psf_list 0 = Ok psf0
      /\ let cols1 := fit_columns1 psf0 aperture nvec ycoo xcoo yk xk in
         let cols2 := fit_columns2 psf_list shp kvec aperture nvec
                        ycoo xcoo yk xk in
         let pass1 := (cols1 ++ bgcol, map2 fdiv fvec nvec) in
         let pass2 := (cols2 ++ bgcol, map2 fdiv fvec nvec) in
         length cols1 = length xk
         /\ length cols2 = length psf_list
         /\ (calls1 = [pass1] \/ calls1 = [pass1; pass1])
         /\ (calls2 = [pass2] \/ calls2 = [pass2; pass2])
         /\ solves w1 = solves w0 ++ calls1 ++ calls2
         /\ lstsq (length (solves w0 ++ calls1) - 1) (fst pass1) (snd pass1)
            = Ok kvec
         /\ lstsq (length (solves w1) - 1) (fst pass2) (snd pass2) = Ok w
         /\ (bg_fit = 0%Z ->
             bgcol = [map (fdiv (of_Z 1)) nvec]
             /\ getitem w (-1) = Ok (fit_bg r))
         /\ (bg_fit <> 0%Z -> bgcol = [] /\ fit_bg r = of_Z 0).
Proof.
  intros psf_list frame noise mask xc yc radius krn_scl krn_rad bg_fit w0 w1 r
    Hrun shp xcoo ycoo aperture fvec nvec.
  destruct (fit_run_ok _ _ _ _ _ _ _ _ _ _ _ _ _ Hrun)
    as (xkern & xk & yk & psf0 & kvec & w & wa & wb
        & Hg & Hp & H1 & Hlk & H2 & Hlw & Hn).
  fold shp xcoo ycoo aperture fvec nvec in H1, H2, Hn.
  destruct (least_square_ok _ _ _ _ _ H1) as (calls1 & Hc1 & Hs1 & _ & Ha1).
  destruct (least_square_ok _ _ _ _ _ H2) as (calls2 & Hc2 & Hs2 & _ & Ha2).
  destruct (fit_normalize_inv _ _ _ _ _ _ _ _ _ _ Hn)
    as (bg & kmat & terms & Hbg & Hk & Ht).
  pose proof (fit_normalize_run _ _ _ _
                (fit_composite psf_list shp kvec w ycoo xcoo yk xk)
                _ _ wb _ _ _ Hbg Hk Ht) as Hr.
  cbv zeta in Hr. rewrite Hn in Hr. injection Hr as Hr Hw1.
  exists xkern, xk, yk, psf0, kvec, w,
    (if (bg_fit =? 0)%Z then [inverse_noise nvec] else []), calls1, calls2.
  split; [exact Hg|]. split; [exact Hp|]. cbv zeta.
  split; [unfold fit_columns1; now rewrite length_map, length_seq|].
  split; [unfold fit_columns2; now rewrite length_map|].
  split; [exact Hc1|]. split; [exact Hc2|].
  assert (Es : solves w1 = solves w0 ++ calls1 ++ calls2).
  { rewrite Hw1. cbn [solves]. rewrite Hs2, Hs1. now rewrite app_assoc. }
  split; [exact Es|].
  split; [rewrite <- Hs1; exact Ha1|].
  split; [rewrite Hw1; cbn [solves]; exact Ha2|].
  rewrite Hr. cbn [fit_bg]. split.
  - intros ->. cbn [Z.eqb] in *. split; [reflexivity | exact Hbg].
  - intros Hnz. destruct (Z.eqb_spec bg_fit 0); [contradiction|].
    split; [reflexivity | congruence].
Qed.

(** A run of [fit] whose two passes succeed ends in [fit_normalize]. *)
Lemma fit_run_steps (psf_list : list (psf_t F)) (frame noise : image_t F)
  (mask : mask_t) (xc yc radius krn_scl : F) (krn_rad bg_fit : Z)
  (w0 wa wb : world F) xkern xk yk psf0 kvec w :
  let shp := shape_of frame in
  let xcoo := map (fun v => fsub v xc) (arange (fst shp)) in
  let ycoo := map (fun v => fsub v yc) (arange (snd shp)) in
  let aperture := fit_aperture coo_mat frame mask xc yc radius in
  let fvec := select aperture frame in
  let nvec := select aperture noise in
  let bgcol := if (bg_fit =? 0)%Z then [inverse_noise nvec] else [] in
  kernel_grid krn_scl krn_rad = Ok (xkern, xk, yk) ->
  getitem psf_list 0 = Ok psf0 ->
  _least_square lstsq nnls
    (fit_columns1 psf0 aperture nvec ycoo xcoo yk xk ++ bgcol)
    (map2 fdiv fvec nvec) false w0 = (Ok kvec, wa) ->
  (length xk <= length kvec)%nat ->
  _least_square lstsq nnls
    (fit_columns2 psf_list shp kvec aperture nvec ycoo xcoo yk xk ++ bgcol)
    (map2 fdiv fvec nvec) false wa = (Ok w, wb) ->
  (length psf_list <= length w)%nat ->
  fit coo_mat psf_integral lstsq nnls psf_list frame noise mask xc yc radius
    krn_scl krn_rad bg_fit w0
  = fit_normalize (psf_integral psf_list) bg_fit (length xk) (length xkern)
      (fit_composite psf_list shp kvec w ycoo xcoo yk xk) kvec w wb.
Proof.
  intros shp xcoo ycoo aperture fvec nvec bgcol Hg Hp H1 Hk H2 Hw.
  unfold fit, mbind, lift.
  fold shp. fold xcoo ycoo aperture. fold fvec nvec. fold bgcol.
  rewrite Hg, Hp, H1. unfold check_index.
  destruct (Nat.ltb_spec (length kvec) (length xk)); [lia|].
  rewrite H2.
  destruct (Nat.ltb_spec (length w) (length psf_list)); [lia|].
  reflexivity.
Qed.

Lemma getitem_first {A} (l : list A) :
  l <> [] -> exists a, getitem l 0 = Ok a.
Proof.
  destruct l as [|a l]; [congruence|]. intros _. exists a.
  unfold getitem. cbn [Z.ltb Z.compare length].
  destruct (Z.leb_spec 0 0); [|lia].
  destruct (Z.ltb_spec 0 (Z.of_nat (S (length l)))); [|lia]. reflexivity.
Qed.

Lemma getitem_last {A} (l : list A) :
  l <> [] -> exists a, getitem l (-1) = Ok a.
Proof.
  intros Hl. unfold getitem. cbn [Z.ltb Z.compare].
  assert (0 < length l)%nat by (destruct l; simpl; [congruence | lia]).
  destruct (Z.leb_spec 0 (-1 + Z.of_nat (length l))); [|lia].
  destruct (Z.ltb_spec (-1 + Z.of_nat (length l)) (Z.of_nat (length l)));
    [|lia].
  cbn [andb].
  destruct (nth_error l (Z.to_nat (-1 + Z.of_nat (length l)))) as [a|] eqn:E;
    [now exists a|].
  apply nth_error_None in E. lia.
Qed.

(** *** Shapes: where numpy's boolean indexing and arithmetic apply *)

Lemma shape_of_has_shape {A} (n m : nat) (a : list (list A)) :
  (0 < n)%nat -> has_shape (n, m) a -> shape_of a = (n, m).
Proof.
  intros Hn [Hl Hr]. cbn [fst snd] in *. unfold shape_of.
  destruct a as [|row a]; [simpl in Hl; lia|].
  f_equal; [exact Hl|]. cbn [hd]. now inversion Hr.
Qed.

Lemma has_shape_map2 {A B C} (f : A -> B -> C) (shp : nat * nat)
  (a : list (list A)) (b : list (list B)) :
  has_shape shp a -> has_shape shp b -> has_shape shp (map2 (map2 f) a b).
Proof.
  destruct shp as [n m]. unfold has_shape. cbn [fst snd].
  intros [La Ra] [Lb Rb]. split.
  - rewrite length_map2. lia.
  - clear La Lb. revert b Rb.
    induction Ra as [|ra a Hra Ra IH]; intros [|rb b] Rb;
      cbn [map2]; constructor.
    + inversion Rb; subst. rewrite length_map2. lia.
    + inversion Rb; subst. now apply IH.
Qed.

Lemma has_shape_grid (psf : psf_t F) (ys xs : list F) :
  has_shape (length ys, length xs) (grid psf ys xs).
Proof.
  unfold has_shape, grid. cbn [fst snd]. split; [apply length_map|].
  apply Forall_forall. intros row Hin.
  apply in_map_iff in Hin. destruct Hin as (y & <- & _). apply length_map.
Qed.

Lemma has_shape_psf_zeros (shp : nat * nat) :
  has_shape shp (zeros (F := F) shp).
Proof.
  unfold has_shape, zeros. split; [apply repeat_length|].
  apply Forall_forall. intros row Hin.
  apply repeat_spec in Hin. subst. apply repeat_length.
Qed.

Lemma has_shape_img_scale (shp : nat * nat) (k : F) (a : image_t F) :
  has_shape shp a -> has_shape shp (img_scale k a).
Proof.
  unfold has_shape, img_scale. intros [La Ra]. split.
  - now rewrite length_map.
  - apply Forall_forall. intros row Hin.
    apply in_map_iff in Hin. destruct Hin as (r & <- & Hr).
    rewrite length_map. rewrite Forall_forall in Ra. now apply Ra.
Qed.

Lemma has_shape_shifted (psf : psf_t F) (ycoo xcoo yk xk : list F)
  (n : nat) :
  has_shape (length ycoo, length xcoo) (shifted psf ycoo xcoo yk xk n).
Proof.
  unfold shifted.
  pose proof (has_shape_grid psf
                (map (fun v => fsub v (nth n yk (of_Z 0))) ycoo)
                (map (fun v => fsub v (nth n xk (of_Z 0))) xcoo)) as H.
  now rewrite !length_map in H.
Qed.

Lemma has_shape_blurred (shp : nat * nat) (kvec : list F) (psf : psf_t F)
  (ycoo xcoo yk xk : list F) :
  shp = (length ycoo, length xcoo) ->
  has_shape shp (blurred shp kvec psf ycoo xcoo yk xk).
Proof.
  intros Hs. unfold blurred.
  generalize (seq 0 (length xk)) as ns.
  assert (H0 : has_shape shp (zeros (F := F) shp))
    by apply has_shape_psf_zeros.
  revert H0. generalize (zeros (F := F) shp) as acc.
  intros acc H0 ns. revert acc H0.
  induction ns as [|n ns IH]; intros acc H0; cbn [fold_left];
    [exact H0|].
  apply IH. unfold img_add. apply has_shape_map2; [exact H0|].
  apply has_shape_img_scale. rewrite Hs. apply has_shape_shifted.
Qed.

Lemma length_compress_same {A B} (sel : list bool) (a : list A)
  (b : list B) :
  length a = length sel -> length b = length sel ->
  length (compress sel a) = length (compress sel b).
Proof.
  revert a b. induction sel as [|s sel IH]; intros [|x a] [|y b] La Lb;
    simpl in *; try reflexivity; try discriminate.
  destruct s; simpl; [f_equal|]; apply IH; lia.
Qed.

Lemma length_select_same {A B} (shp : nat * nat) (sel : mask_t)
  (a : list (list A)) (b : list (list B)) :
  has_shape shp sel -> has_shape shp a -> has_shape shp b ->
  length (select sel a) = length (select sel b).
Proof.
  destruct shp as [n m]. unfold has_shape, select. cbn [fst snd].
  intros [Ls Rs] [La Ra] [Lb Rb].
  assert (Lab : length a = length sel /\ length b = length sel) by lia.
  clear Ls La Lb. destruct Lab as [La Lb]. revert a b Ra Rb La Lb.
  induction Rs as [|s sel Hs Rs IH]; intros [|x a] [|y b] Ra Rb La Lb;
    simpl in *; try reflexivity; try discriminate.
  inversion Ra; subst. inversion Rb; subst.
  rewrite !length_app. f_equal.
  - apply length_compress_same; lia.
  - apply IH; auto.
Qed.

Lemma has_shape_fit_aperture (n m : nat) (frame noise : image_t F)
  (mask : mask_t) (xc yc radius : F) :
  shapes_agree coo_mat n m frame noise (Some mask) ->
  has_shape (n, m) (fit_aperture coo_mat frame mask xc yc radius).
Proof.
  intros (Hn & Hf & _ & Hm & Hc). unfold fit_aperture.
  rewrite (shape_of_has_shape n m frame Hn Hf).
  destruct (Hc xc yc) as [Hx Hy].
  destruct (coo_mat (n, m) xc yc) as [xmat ymat]. cbn [fst snd] in Hx, Hy.
  apply has_shape_map2; [|exact Hm]. now apply has_shape_map2.
Qed.

(** The right-hand side and every column built from an image of the
    frame's shape have one entry per selected pixel. *)
Lemma length_rhs (shp : nat * nat) (aperture : mask_t)
  (frame noise : image_t F) :
  has_shape shp aperture -> has_shape shp frame -> has_shape shp noise ->
  length (map2 fdiv (select aperture frame) (select aperture noise))
  = length (select aperture noise).
Proof.
  intros Ha Hf Hn. rewrite length_map2.
  rewrite (length_select_same shp aperture frame noise Ha Hf Hn). lia.
Qed.

Lemma length_column (shp : nat * nat) (aperture : mask_t)
  (noise img : image_t F) :
  has_shape shp aperture -> has_shape shp noise -> has_shape shp img ->
  length (column aperture (select aperture noise) img)
  = length (select aperture noise).
Proof.
  intros Ha Hn Hi. unfold column. rewrite length_map2.
  rewrite (length_select_same shp aperture img noise Ha Hi Hn). lia.
Qed.

(** On a square frame whose arrays agree in shape, both design matrices
    of [fit] are rectangular: every column has one entry per pixel of
    the aperture, as the right-hand side has. *)
Lemma fit_design_rectangular (n : nat) (psf_list : list (psf_t F))
  (psf0 : psf_t F) (frame noise : image_t F) (mask : mask_t)
  (xc yc radius : F) (bg_fit : Z) (kvec yk xk : list F) :
  shapes_agree coo_mat n n frame noise (Some mask) ->
  let shp := shape_of frame in
  let xcoo := map (fun v => fsub v xc) (arange (fst shp)) in
  let ycoo := map (fun v => fsub v yc) (arange (snd shp)) in
  let aperture := fit_aperture coo_mat frame mask xc yc radius in
  let fvec := select aperture frame in
  let nvec := select aperture noise in
  let bgcol := if (bg_fit =? 0)%Z then [inverse_noise nvec] else [] in
  let b := map2 fdiv fvec nvec in
  Forall (fun col => length col = length b)
    (fit_columns1 psf0 aperture nvec ycoo xcoo yk xk ++ bgcol)
  /\ Forall (fun col => length col = length b)
       (fit_columns2 psf_list shp kvec aperture nvec ycoo xcoo yk xk
        ++ bgcol).
Proof.
  intros Hs shp xcoo ycoo aperture fvec nvec bgcol b.
  pose proof (has_shape_fit_aperture n n frame noise mask xc yc radius Hs)
    as Ha.
  destruct Hs as (Hn & Hf & Hno & _ & _).
  assert (Eshp : shp = (n, n)) by now apply shape_of_has_shape.
  assert (Lx : length xcoo = n).
  { unfold xcoo, arange. now rewrite !length_map, length_seq, Eshp. }
  assert (Ly : length ycoo = n).
  { unfold ycoo, arange. now rewrite !length_map, length_seq, Eshp. }
  assert (Lb : length b = length nvec).
  { unfold b, fvec, nvec. now apply (length_rhs (n, n)). }
  assert (Hbg : Forall (fun col => length col = length b) bgcol).
  { unfold bgcol. destruct (bg_fit =? 0)%Z; constructor; [|constructor].
    unfold inverse_noise. now rewrite length_map. }
  split; apply Forall_app; (split; [|exact Hbg]); apply Forall_forall;
    intros col Hin.
  - unfold fit_columns1 in Hin. apply in_map_iff in Hin.
    destruct Hin as (k & <- & _). rewrite Lb. unfold nvec.
    apply (length_column (n, n)); auto.
    rewrite <- Ly at 1. rewrite <- Lx. apply has_shape_shifted.
  - unfold fit_columns2 in Hin. apply in_map_iff in Hin.
    destruct Hin as (psf_m & <- & _). rewrite Lb. unfold nvec.
    apply (length_column (n, n)); auto.
    rewrite <- Eshp. apply has_shape_blurred. now rewrite Lx, Ly.
Qed.

(** C5.  On a square frame whose noise image, mask and coordinate grids
    have the frame's shape, and with a solver that answers every system
    with one coefficient per column, a single-source fit on a non-empty
    PSF library returns its result tuple whatever the flux normaliser
    [wsum] (the sum of PSF integral times weight, background weight left
    out) comes to.  Both systems solved are rectangular, one row per
    pixel of the aperture.  When [wsum] is NaN or equal to 0 a warning is
    printed and 1 takes its place; the coefficient vector returned is the
    weights without the background weight, divided by that normaliser. *)
Theorem fit_degenerate_normalizer :
  forall (psf_list : list (psf_t F)) (frame noise : image_t F)
    (mask : mask_t) (xc yc radius krn_scl : F) (krn_rad bg_fit : Z)
    (w0 : world F) (n : nat),
    shapes_agree coo_mat n n frame noise (Some mask) ->
    (forall k eq_mat res_vec,
        exists x, lstsq k eq_mat res_vec = Ok x
                  /\ length x = length eq_mat) ->
    psf_list <> [] ->
    (0 <= krn_rad)%Z ->
    length (psf_integral psf_list) = length psf_list ->
    exists r w1 kvec w,
      fit coo_mat psf_integral lstsq nnls psf_list frame noise mask xc yc
        radius krn_scl krn_rad bg_fit w0 = (Ok r, w1)
      /\ (exists pass1 pass2,
            solves w1 = solves w0 ++ [pass1; pass2]
            /\ lstsq (length (solves w0)) (fst pass1) (snd pass1) = Ok kvec
            /\ lstsq (S (length (solves w0))) (fst pass2) (snd pass2) = Ok w
            /\ Forall (fun col => length col = length (snd pass1))
                 (fst pass1)
            /\ Forall (fun col => length col = length (snd pass2))
                 (fst pass2))
      /\ let w' := slice w 0 (if (bg_fit =? 0)%Z
                              then (Z.of_nat (length w) - 1)%Z
                              else Z.of_nat (length w)) in
         let wsum := np_sum (map2 fmul (psf_integral psf_list) w') in
         let norm := if fisnan wsum || feqb wsum (of_Z 0) then of_Z 1
                     else wsum in
         length w' = length psf_list
         /\ fit_coeff r = map (fun v => fdiv v norm) w'
         /\ stdout w1
            = stdout w0
              ++ (if fisnan wsum
                  then ["Warning: wsum == NaN encountered"]
                  else if feqb wsum (of_Z 0)
                  then ["Warning: wsum == 0 encountered"]
                  else []).
Proof.
  intros psf_list frame noise mask xc yc radius krn_scl krn_rad bg_fit w0
    n Hshapes Hsolver Hne Hrad Hnorms.
  set (shp := shape_of frame).
  set (xcoo := map (fun v => fsub v xc) (arange (fst shp))).
  set (ycoo := map (fun v => fsub v yc) (arange (snd shp))).
  set (aperture := fit_aperture coo_mat frame mask xc yc radius).
  set (fvec := select aperture frame).
  set (nvec := select aperture noise).
  set (bgcol := if (bg_fit =? 0)%Z then [inverse_noise nvec] else []).
  destruct (kernel_grid_ok krn_scl krn_rad Hrad)
    as (xkern & xk & yk & Hg & Hside).
  destruct (getitem_first psf_list Hne) as [psf0 Hp].
  set (A1 := fit_columns1 psf0 aperture nvec ycoo xcoo yk xk ++ bgcol).
  set (b := map2 fdiv fvec nvec).
  destruct (Hsolver (length (solves w0)) A1 b) as (kvec & Ek & Lk).
  set (A2 := fit_columns2 psf_list shp kvec aperture nvec ycoo xcoo yk xk
             ++ bgcol).
  destruct (Hsolver (S (length (solves w0))) A2 b) as (w & Ew & Lw).
  assert (LA1 : length A1 = (length xk + length bgcol)%nat).
  { unfold A1, fit_columns1.
    now rewrite length_app, length_map, length_seq. }
  assert (LA2 : length A2 = (length psf_list + length bgcol)%nat).
  { unfold A2, fit_columns2. now rewrite length_app, length_map. }
  assert (H1 : _least_square lstsq nnls A1 b false w0
               = (Ok kvec, after_calls w0 [(A1, b)])).
  { rewrite least_square_run, Ek. reflexivity. }
  assert (H2 : _least_square lstsq nnls A2 b false (after_calls w0 [(A1, b)])
               = (Ok w, after_calls (after_calls w0 [(A1, b)]) [(A2, b)])).
  { rewrite least_square_run. cbn [after_calls solves].
    rewrite length_app, Nat.add_comm. cbn [length Nat.add].
    rewrite Ew. reflexivity. }
  set (wb := after_calls (after_calls w0 [(A1, b)]) [(A2, b)]) in *.
  assert (Hrun := fit_run_steps psf_list frame noise mask xc yc radius
                    krn_scl krn_rad bg_fit w0 _ wb xkern xk yk psf0 kvec w
                    Hg Hp H1 ltac:(lia) H2 ltac:(lia)).
  fold shp xcoo ycoo in Hrun.
  set (last_w := if (bg_fit =? 0)%Z then (Z.of_nat (length w) - 1)%Z
                 else Z.of_nat (length w)).
  assert (Lb : (length w = length psf_list + length bgcol)%nat) by lia.
  assert (Hlast : last_w = Z.of_nat (length psf_list)).
  { unfold last_w, bgcol in *. destruct (bg_fit =? 0)%Z; simpl in Lb; lia. }
  assert (Lw' : length (slice w 0 last_w) = length psf_list).
  { rewrite length_slice by lia. lia. }
  assert (Hbg : exists bg,
             (if (bg_fit =? 0)%Z then getitem w (-1) else Ok (of_Z 0))
             = Ok bg).
  { unfold bgcol in Lb. destruct (bg_fit =? 0)%Z; [|eauto].
    apply getitem_last. destruct w; simpl in *; [lia | congruence]. }
  destruct Hbg as [bg Hbg].
  assert (Hk : exists kmat,
             reshape (slice kvec 0 (Z.of_nat (length xk))) (length xkern)
               (length xkern) = Ok kmat).
  { unfold reshape. rewrite length_slice by lia.
    replace (Z.to_nat (Z.of_nat (length xk) - 0)) with (length xk) by lia.
    rewrite Hside, Nat.eqb_refl. eauto. }
  destruct Hk as [kmat Hk].
  assert (Ht : broadcast_mul (psf_integral psf_list) (slice w 0 last_w)
               = Ok (map2 fmul (psf_integral psf_list) (slice w 0 last_w))).
  { unfold broadcast_mul. now rewrite Hnorms, Lw', Nat.eqb_refl. }
  pose proof (fit_normalize_run (psf_integral psf_list) bg_fit (length xk)
                (length xkern)
                (fit_composite psf_list shp kvec w ycoo xcoo yk xk)
                kvec w wb bg kmat _ Hbg Hk Ht) as Hn.
  cbv zeta in Hn. rewrite <- Hrun in Hn.
  eexists _, _, kvec, w. split; [exact Hn|]. split.
  - exists (A1, b), (A2, b). cbn [fst snd solves after_calls wb].
    unfold wb. cbn [after_calls solves]. rewrite <- app_assoc.
    destruct (fit_design_rectangular n psf_list psf0 frame noise mask xc yc
                radius bg_fit kvec yk xk Hshapes) as [R1 R2].
    repeat split; assumption.
  - cbv zeta. fold last_w. cbn [fit_coeff stdout].
    split; [exact Lw'|]. split.
    + destruct (fisnan _); [reflexivity|].
      destruct (feqb _ _); reflexivity.
    + unfold wsum_diagnostic, wb. cbn [after_calls stdout]. reflexivity.
Qed.


End PsfFacts.

(** ** pipe/psf.py over the reals: the geometry of the binary fit *)

Section BinaryGeometry.

Import Psf.
Local Open Scope R_scope.

Variable coo_mat : nat * nat -> R -> R -> image_t R * image_t R.
Variable psf_integral : list (psf_t R) -> list R.
Variable lstsq : nat -> matrix R -> list R -> result (list R).
Variable nnls : matrix R -> list R -> result (list R).

Lemma sqrt_le_radius (d rad : R) :
  0 <= d -> 0 <= rad -> (sqrt d <= rad <-> d <= rad * rad).
Proof.
  intros Hd Hr. split; intros H.
  - rewrite <- (sqrt_sqrt d Hd).
    pose proof (sqrt_pos d). nra.
  - rewrite <- (sqrt_square rad Hr). now apply sqrt_le_1_alt.
Qed.







Section OneSource.

Variable s : source R.
Variables r c : nat.
Hypothesis Hdark : forall b, getpix (apt_of s) r c = Some b -> b = false.





End OneSource.



End BinaryGeometry.

(** ** pipe/psf.py in binary64: the normaliser of the binary fit *)

Section BinaryNormalizer.

Import Psf Examples.
Local Open Scope string_scope.

(** C1, as the code behaves.  On a one-pixel frame that recorded no light
    the weights solved for are 0, so both flux normalisers of
    [fit_binary] are 0.  [fit_binary] divides by them as they are: both
    coefficient vectors it returns are NaN and nothing is printed.  The
    single-source [fit] on the same frame prints its warning, divides by
    1 and returns the coefficient 0. *)
Theorem fit_binary_unguarded_normalizer :
  (exists res w1,
      fit_binary (F := binary64) grid_coo_mat unit_integral zero_lstsq
        zero_nnls [flat_psf] [flat_psf] dark_frame unit_noise None
        (of_Z 0) (of_Z 0) (of_Z 0) (of_Z 0) (of_Z 70) (of_Z 30)
        (fdiv (of_Z 3) (of_Z 10)) 0 fresh_world = (Ok res, w1)
      /\ bin_coeff0 res = [S754_nan]
      /\ bin_coeff1 res = [S754_nan]
      /\ stdout w1 = [])
  /\ (exists r w1,
         fit (F := binary64) grid_coo_mat unit_integral zero_lstsq zero_nnls
           [flat_psf] dark_frame unit_noise [[true]] (of_Z 0) (of_Z 0)
           (of_Z 50) (fdiv (of_Z 3) (of_Z 10)) 0 0 fresh_world = (Ok r, w1)
         /\ fit_coeff r = [S754_zero false]
         /\ stdout w1 = ["Warning: wsum == 0 encountered"]).
Proof.
  split.
  - eexists _, _. split; [vm_compute; reflexivity|].
    repeat split.
  - eexists _, _. split; [vm_compute; reflexivity|].
    repeat split.
Qed.

End BinaryNormalizer.

(** ** More on Python indexing *)

Section IndexFacts.

Context {A : Type}.

Lemma getitem_in_range (l : list A) (n : Z) :
  (0 <= n < Z.of_nat (length l))%Z ->
  exists a, getitem l n = Ok a /\ nth_error l (Z.to_nat n) = Some a.
Proof.
  intros Hn. unfold getitem.
  destruct (Z.ltb_spec n 0); [lia|].
  destruct (Z.leb_spec 0 n); [|lia].
  destruct (Z.ltb_spec n (Z.of_nat (length l))); [|lia]. cbn [andb].
  destruct (nth_error l (Z.to_nat n)) as [a|] eqn:E; [eauto|].
  apply nth_error_None in E. lia.
Qed.

Lemma getitem_out_of_range (l : list A) (n : Z) :
  (n < - Z.of_nat (length l) \/ Z.of_nat (length l) <= n)%Z ->
  getitem l n = Raise IndexError.
Proof.
  intros Hn. unfold getitem.
  destruct (Z.ltb_spec n 0).
  - destruct (Z.leb_spec 0 (n + Z.of_nat (length l))); [|reflexivity].
    destruct (Z.ltb_spec (n + Z.of_nat (length l)) (Z.of_nat (length l)));
      [lia | reflexivity].
  - destruct (Z.leb_spec 0 n); [|lia].
    destruct (Z.ltb_spec n (Z.of_nat (length l))); [lia | reflexivity].
Qed.

Lemma getitem_negative (l : list A) (n : Z) :
  (- Z.of_nat (length l) <= n < 0)%Z ->
  getitem l n = getitem l (n + Z.of_nat (length l)).
Proof.
  intros Hn. unfold getitem.
  destruct (Z.ltb_spec n 0); [|lia].
  destruct (Z.ltb_spec (n + Z.of_nat (length l)) 0); [lia|]. reflexivity.
Qed.

Lemma getitem_ok_range (l : list A) (n : Z) (a : A) :
  getitem l n = Ok a ->
  (- Z.of_nat (length l) <= n < Z.of_nat (length l))%Z.
Proof.
  intros H.
  destruct (Z_lt_le_dec n (- Z.of_nat (length l))) as [Hlo|Hlo];
    [rewrite getitem_out_of_range in H by lia; discriminate|].
  destruct (Z_lt_le_dec n (Z.of_nat (length l))) as [Hhi|Hhi]; [lia|].
  rewrite getitem_out_of_range in H by lia; discriminate.
Qed.

Lemma getitem_app_tail (pre pre' rest : list A) (n : Z) :
  length pre = length pre' ->
  (Z.of_nat (length pre) <= n)%Z ->
  getitem (pre ++ rest) n = getitem (pre' ++ rest) n.
Proof.
  intros Hl Hn. unfold getitem. rewrite !length_app, <- Hl.
  destruct (Z.ltb_spec n 0); [lia|].
  destruct ((0 <=? n)%Z && _)%bool; [|reflexivity].
  rewrite !nth_error_app2 by lia. now rewrite Hl.
Qed.

Lemma getitem_raise (l : list A) (n : Z) (e : exn) :
  getitem l n = Raise e -> e = IndexError.
Proof.
  unfold getitem. destruct (_ && _)%bool; [|congruence].
  destruct (nth_error l _); congruence.
Qed.

End IndexFacts.

Lemma compress_map_filter {A B} (p : A -> bool) (f : A -> B) (l : list A) :
  compress (map p l) (map f l) = map f (filter p l).
Proof.
  induction l as [|a l IH]; simpl; [reflexivity|].
  destruct (p a); simpl; now rewrite IH.
Qed.

Lemma filter_id_map {A} (p : A -> bool) (l : list A) :
  length (filter (fun b : bool => b) (map p l)) = length (filter p l).
Proof.
  induction l as [|a l IH]; simpl; [reflexivity|].
  destruct (p a); simpl; now rewrite IH.
Qed.

Lemma compress_all_true {A} (l : list A) :
  compress (repeat true (length l)) l = l.
Proof. induction l as [|a l IH]; simpl; [reflexivity | now rewrite IH]. Qed.

Lemma nth_error_concat_uniform {A} (rows : list (list A)) (L a b : nat) :
  Forall (fun row => length row = L) rows ->
  (b < L)%nat ->
  nth_error (concat rows) (a * L + b) =
  match nth_error rows a with
  | Some row => nth_error row b
  | None => None
  end.
Proof.
  intros Hrows Hb. revert a.
  induction Hrows as [|row rows Hrow Hrows IH]; intros a.
  - destruct a; cbn [concat nth_error]; now destruct (_ + _)%nat.
  - cbn [concat]. destruct a as [|a]; cbn [nth_error].
    + cbn [Nat.mul Nat.add]. apply nth_error_app1. lia.
    + rewrite nth_error_app2 by (cbn [Nat.mul]; lia).
      replace (S a * L + b - length row)%nat with (a * L + b)%nat
        by (cbn [Nat.mul]; lia).
      apply IH.
Qed.

Lemma length_concat_rows {A B} (f : A -> list B) (L : nat) (ys : list A) :
  (forall y, length (f y) = L) ->
  length (concat (map f ys)) = (length ys * L)%nat.
Proof.
  intros Hf. induction ys as [|y ys IH]; cbn [map concat length];
    [reflexivity|].
  rewrite length_app, Hf, IH. reflexivity.
Qed.

(** ** Further properties of syntstar.py *)

Section SyntstarMore.

Import Syntstar.
Local Open Scope R_scope.

Lemma deg2rad_plus (a b : R) : deg2rad (a + b) = deg2rad a + deg2rad b.
Proof. unfold deg2rad. lra. Qed.

(** X1.  A rotation keeps the distance of a position from the target,
    rotating by [a] and then by [b] is rotating by [a + b], and the roll
    angle 0 moves nothing. *)
Theorem rotate_position_isometry :
  forall x y a b : R,
    let p := rotate_position x y a in
    fst p * fst p + snd p * snd p = x * x + y * y
    /\ rotate_position (fst p) (snd p) b = rotate_position x y (a + b)
    /\ rotate_position x y 0 = (x, y).
Proof.
  intros x y a b p. unfold p, rotate_position. cbn [fst snd].
  pose proof (sin2_cos2 (deg2rad a)) as U. unfold Rsqr in U.
  split; [|split].
  - set (c := cos (deg2rad a)) in *. set (s := sin (deg2rad a)) in *.
    replace ((x * c + y * s) * (x * c + y * s)
             + (- x * s + y * c) * (- x * s + y * c))
      with ((x * x + y * y) * (s * s + c * c)) by ring.
    rewrite U. ring.
  - rewrite deg2rad_plus, cos_plus, sin_plus. f_equal; ring.
  - unfold deg2rad. rewrite Rmult_0_l, cos_0, sin_0. f_equal; ring.
Qed.

Lemma rotate_entry_lengths (self : star_bg) (rolldeg : R) :
  length (fst (rotate_cat self rolldeg)) = length (cat self)
  /\ length (snd (rotate_cat self rolldeg)) = length (cat self).
Proof. unfold rotate_cat. cbn [fst snd]. now rewrite !length_map. Qed.

(** X2.  [rotate_entry] gives the pair that [rotate_cat] holds at the same
    index, [rotate_cat] keeps the size of the catalogue, and an index
    outside the catalogue raises [IndexError]. *)
Theorem rotate_entry_agrees_with_rotate_cat :
  forall (self : star_bg) (rolldeg : R) (entry : Z),
    let dx := fst (rotate_cat self rolldeg) in
    let dy := snd (rotate_cat self rolldeg) in
    length dx = length (cat self)
    /\ length dy = length (cat self)
    /\ rotate_entry self entry rolldeg
       = (x <- getitem dx entry ;; y <- getitem dy entry ;; Ok (x, y))
    /\ ((entry < - catsize self \/ catsize self <= entry)%Z ->
        rotate_entry self entry rolldeg = Raise IndexError)
    /\ ((- catsize self <= entry < catsize self)%Z ->
        exists p, rotate_entry self entry rolldeg = Ok p).
Proof.
  intros self rolldeg entry dx dy. unfold dx, dy, rotate_cat, rotate_entry.
  cbn [fst snd]. rewrite !length_map.
  split; [reflexivity|]. split; [reflexivity|]. split; [|split].
  - rewrite !getitem_map.
    destruct (getitem (cat self) entry) as [s|e]; cbn [bind]; [|reflexivity].
    now rewrite <- surjective_pairing.
  - intros H. unfold catsize in H.
    now rewrite getitem_out_of_range.
  - intros H. unfold catsize in H.
    destruct (Z_lt_le_dec entry 0) as [Hneg|Hpos].
    + rewrite getitem_negative by lia.
      destruct (getitem_in_range (cat self)
                  (entry + Z.of_nat (length (cat self)))) as (s & E & _);
        [lia|].
      rewrite E. cbn [bind]. eauto.
    + destruct (getitem_in_range (cat self) entry) as (s & E & _); [lia|].
      rewrite E. cbn [bind]. eauto.
Qed.

(** X3.  [brightest] never raises.  It is 0 when no background star lies
    strictly within [radius] of the target; otherwise it is the flux
    ratio of one such star and no such star has a larger one.  The target
    itself, entry 0, is never counted. *)
Theorem brightest_is_max_within_radius :
  forall (self : star_bg) (radius : R),
    let near (s : star) :=
      xpos s * xpos s + ypos s * ypos s < radius * radius in
    let background := skipn 1 (cat self) in
    exists v,
      brightest self radius = Ok v
      /\ ((forall s, In s background -> ~ near s) -> v = 0)
      /\ ((exists s, In s background /\ near s) ->
          (exists s, In s background /\ near s /\ v = fscale s)
          /\ (forall s, In s background -> near s -> fscale s <= v)).
Proof.
  intros self radius near background. unfold brightest. fold background.
  set (nearb := fun s : star =>
         if Rlt_dec (xpos s * xpos s + ypos s * ypos s) (radius * radius)
         then true else false).
  assert (Hb : forall s, nearb s = true <-> near s).
  { intros s. unfold nearb, near. destruct (Rlt_dec _ _); split; intros;
      try reflexivity; try assumption; try discriminate; contradiction. }
  rewrite map_map. change (map (fun x : star => _) background)
    with (map nearb background).
  rewrite filter_id_map, compress_map_filter.
  destruct (filter nearb background) as [|s0 l] eqn:Ef.
  - cbn [length Nat.ltb Nat.leb]. exists 0. split; [reflexivity|].
    split; [reflexivity|].
    intros (s & Hin & Hn). exfalso.
    assert (Hs : In s (filter nearb background))
      by (apply filter_In; split; [assumption | now apply Hb]).
    rewrite Ef in Hs. contradiction.
  - cbn [length Nat.ltb Nat.leb].
    destruct (np_max_spec (map fscale (s0 :: l))) as (m & Em & Hin & Hmax);
      [discriminate|].
    exists m. split; [exact Em|]. split.
    + intros Hnone. exfalso.
      assert (Hs : In s0 (filter nearb background))
        by (rewrite Ef; now left).
      apply filter_In in Hs as [Hs1 Hs2]. apply (Hnone s0 Hs1).
      now apply Hb.
    + intros _. split.
      * apply in_map_iff in Hin as (s & <- & Hs).
        rewrite <- Ef in Hs. apply filter_In in Hs as [Hs1 Hs2].
        exists s. repeat split; [assumption | now apply Hb].
      * intros s Hs Hn. apply Hmax. apply in_map. rewrite <- Ef.
        apply filter_In. split; [assumption | now apply Hb].
Qed.

Lemma in_range (lo hi n : Z) : In n (range lo hi) <-> (lo <= n < hi)%Z.
Proof.
  unfold range. rewrite in_map_iff. split.
  - intros (k & <- & Hk). apply in_seq in Hk. lia.
  - intros H. exists (Z.to_nat (n - lo)). split; [lia|].
    apply in_seq. lia.
Qed.

Lemma draw_all_ext (f g : image_t -> Z -> result image_t) (ids : list Z)
  (img : image_t) :
  (forall im n, In n ids -> f im n = g im n) ->
  draw_all f ids img = draw_all g ids img.
Proof.
  revert img; induction ids as [|n ids IH]; intros img H; simpl;
    [reflexivity|].
  rewrite (H img n) by now left.
  destruct (g img n); cbn [bind]; [|reflexivity].
  apply IH. intros; apply H; now right.
Qed.

(** A catalogue star is drawn without an error. *)
Lemma draw_star_ok self x0 y0 rolldeg psf_fun shp limflux max_psf_rad img n :
  (- catsize self <= n < catsize self)%Z ->
  exists img',
    draw_star self (fst (rotate_cat self rolldeg))
      (snd (rotate_cat self rolldeg)) x0 y0 psf_fun shp limflux max_psf_rad
      img n = Ok img'.
Proof.
  intros Hn. unfold catsize in Hn.
  assert (Hs : exists s, getitem (cat self) n = Ok s).
  { destruct (Z_lt_le_dec n 0).
    - rewrite getitem_negative by lia.
      destruct (getitem_in_range (cat self)
                  (n + Z.of_nat (length (cat self)))) as (s & E & _);
        [lia | eauto].
    - destruct (getitem_in_range (cat self) n) as (s & E & _);
        [lia | eauto]. }
  destruct Hs as [s Hs].
  destruct (getitem_rotate_cat self rolldeg n s Hs) as (Ef & Ex & Ey).
  unfold draw_star. rewrite Ef, Ex, Ey. cbn [bind].
  destruct (Rlt_dec _ _); [eauto|].
  destruct (_ >=? _)%Z; [eauto|]. destruct (_ <=? 0)%Z; [eauto|].
  destruct (_ >=? _)%Z; [eauto|]. destruct (_ <=? 0)%Z; [eauto|].
  unfold meshgrid. eauto.
Qed.

(** An index outside the catalogue stops the drawing. *)
Lemma draw_star_bad_index self dx dy x0 y0 psf_fun shp limflux max_psf_rad
  img n :
  (n < - catsize self \/ catsize self <= n)%Z ->
  draw_star self dx dy x0 y0 psf_fun shp limflux max_psf_rad img n
  = Raise IndexError.
Proof.
  intros Hn. unfold draw_star, catsize in *.
  rewrite getitem_out_of_range by (rewrite length_map; exact Hn).
  reflexivity.
Qed.

Lemma draw_all_ok self x0 y0 rolldeg psf_fun shp limflux max_psf_rad ids :
  (forall n, In n ids -> (- catsize self <= n < catsize self)%Z) ->
  forall img, has_shape shp img ->
  exists img',
    draw_all (draw_star self (fst (rotate_cat self rolldeg))
                (snd (rotate_cat self rolldeg)) x0 y0 psf_fun shp limflux
                max_psf_rad) ids img = Ok img'
    /\ has_shape shp img'.
Proof.
  induction ids as [|n ids IH]; intros Hids img Himg; cbn [draw_all].
  - eauto.
  - destruct (draw_star_ok self x0 y0 rolldeg psf_fun shp limflux
                max_psf_rad img n) as [im E]; [apply Hids; now left|].
    rewrite E. cbn [bind]. apply IH.
    + intros; apply Hids; now right.
    + eapply has_shape_draw_star; eassumption.
Qed.

(** X4.  Without [single_id], [image] returns an image of the requested
    shape whenever [target] is at least minus the catalogue size, and
    raises [IndexError] for a smaller [target]. *)
Theorem image_returns_requested_shape :
  forall (self : star_bg) (x0 y0 rolldeg : R) (psf_fun : psf_t)
    (shp : option (nat * nat)) (target : Z) (limflux : R) (max_psf_rad : Z),
    let shp' := match shp with None => shape self | Some s => s end in
    ((- catsize self <= target)%Z ->
     exists img,
       image self x0 y0 rolldeg psf_fun shp target limflux None max_psf_rad
       = Ok img
       /\ has_shape shp' img)
    /\ ((target < - catsize self)%Z ->
        image self x0 y0 rolldeg psf_fun shp target limflux None max_psf_rad
        = Raise IndexError).
Proof.
  intros self x0 y0 rolldeg psf_fun shp target limflux max_psf_rad shp'.
  unfold image. fold shp'.
  rewrite (surjective_pairing (rotate_cat self rolldeg)). split.
  - intros Ht. apply draw_all_ok; [|apply has_shape_zeros].
    intros n Hn. apply in_range in Hn. lia.
  - intros Ht. unfold range.
    assert (Hc : (0 <= catsize self)%Z) by (unfold catsize; lia).
    destruct (Z.to_nat (catsize self - target)) as [|k] eqn:Ek; [lia|].
    cbn [seq map draw_all]. rewrite draw_star_bad_index by lia.
    reflexivity.
Qed.

(** X5.  With [single_id] the image is of that one star: an index outside
    the catalogue raises [IndexError], and a negative index inside it
    draws the star counted from the end. *)
Theorem image_single_id_index :
  forall (self : star_bg) (x0 y0 rolldeg : R) (psf_fun : psf_t)
    (shp : option (nat * nat)) (target : Z) (limflux : R) (k : Z)
    (max_psf_rad : Z),
    ((k < - catsize self \/ catsize self <= k)%Z ->
     image self x0 y0 rolldeg psf_fun shp target limflux (Some k) max_psf_rad
     = Raise IndexError)
    /\ ((- catsize self <= k < 0)%Z ->
        image self x0 y0 rolldeg psf_fun shp target limflux (Some k)
          max_psf_rad
        = image self x0 y0 rolldeg psf_fun shp target limflux
            (Some (k + catsize self)%Z) max_psf_rad)
    /\ ((- catsize self <= k < catsize self)%Z ->
        exists img,
          image self x0 y0 rolldeg psf_fun shp target limflux (Some k)
            max_psf_rad = Ok img
          /\ has_shape (match shp with None => shape self | Some s => s end)
               img).
Proof.
  intros self x0 y0 rolldeg psf_fun shp target limflux k max_psf_rad.
  unfold image. rewrite (surjective_pairing (rotate_cat self rolldeg)).
  split; [|split].
  - intros Hk. cbn [draw_all]. now rewrite draw_star_bad_index.
  - intros Hk. cbn [draw_all]. f_equal.
    unfold draw_star, catsize in *.
    destruct (rotate_entry_lengths self rolldeg) as [Lx Ly].
    rewrite (getitem_negative (map fscale (cat self))) by
      (rewrite length_map; lia).
    rewrite (getitem_negative (fst (rotate_cat self rolldeg))) by
      (rewrite Lx; lia).
    rewrite (getitem_negative (snd (rotate_cat self rolldeg))) by
      (rewrite Ly; lia).
    rewrite length_map, Lx, Ly. reflexivity.
  - intros Hk. apply draw_all_ok; [|apply has_shape_zeros].
    intros n [<-|[]]. exact Hk.
Qed.

(** X6.  Without [single_id], the image does not depend on the entries
    that [target] skips: two catalogues that differ only in their first
    [target] (or fewer) entries give the same image. *)
Theorem image_ignores_skipped_entries :
  forall (scl scl' : R) (pre pre' rest : list star) (shp0 : nat * nat)
    (x0 y0 rolldeg : R) (psf_fun : psf_t) (shp : option (nat * nat))
    (target : Z) (limflux : R) (max_psf_rad : Z),
    length pre = length pre' ->
    (Z.of_nat (length pre) <= target)%Z ->
    image {| pxl_scl := scl; cat := pre ++ rest; shape := shp0 |}
      x0 y0 rolldeg psf_fun shp target limflux None max_psf_rad
    = image {| pxl_scl := scl'; cat := pre' ++ rest; shape := shp0 |}
        x0 y0 rolldeg psf_fun shp target limflux None max_psf_rad.
Proof.
  intros scl scl' pre pre' rest shp0 x0 y0 rolldeg psf_fun shp target limflux
    max_psf_rad Hl Ht.
  unfold image, rotate_cat, catsize. cbn [cat shape fst snd].
  rewrite !length_app, Hl.
  apply draw_all_ext. intros im n Hn. apply in_range in Hn.
  unfold draw_star. cbn [cat].
  rewrite !map_app.
  rewrite (getitem_app_tail (map fscale pre) (map fscale pre')) by
    (rewrite ?length_map; lia).
  rewrite (getitem_app_tail
             (map fst (map (fun s => rotate_position (xpos s) (ypos s)
                                       rolldeg) pre))
             (map fst (map (fun s => rotate_position (xpos s) (ypos s)
                                       rolldeg) pre'))) by
    (rewrite ?length_map; lia).
  rewrite (getitem_app_tail
             (map snd (map (fun s => rotate_position (xpos s) (ypos s)
                                       rolldeg) pre))
             (map snd (map (fun s => rotate_position (xpos s) (ypos s)
                                       rolldeg) pre'))) by
    (rewrite ?length_map; lia).
  reflexivity.
Qed.

Lemma draw_all_unchanged (f : image_t -> Z -> result image_t) (ids : list Z)
  (img : image_t) :
  (forall im n, In n ids -> f im n = Ok im) -> draw_all f ids img = Ok img.
Proof.
  induction ids as [|n ids IH]; intros H; cbn [draw_all]; [reflexivity|].
  rewrite (H img n) by now left. cbn [bind].
  apply IH. intros; apply H; now right.
Qed.

(** X7.  Without [single_id], when every catalogue entry from [target] on
    is fainter than [limflux] (in particular when [target] skips the
    whole catalogue) the image is the zero image of the requested
    shape. *)
Theorem image_of_faint_field_is_zero :
  forall (self : star_bg) (x0 y0 rolldeg : R) (psf_fun : psf_t)
    (shp : option (nat * nat)) (target : Z) (limflux : R) (max_psf_rad : Z),
    (- catsize self <= target)%Z ->
    (forall n s, (target <= n)%Z -> getitem (cat self) n = Ok s ->
                 fscale s < limflux) ->
    image self x0 y0 rolldeg psf_fun shp target limflux None max_psf_rad
    = Ok (zeros (match shp with None => shape self | Some s => s end)).
Proof.
  intros self x0 y0 rolldeg psf_fun shp target limflux max_psf_rad Ht Hfaint.
  unfold image. rewrite (surjective_pairing (rotate_cat self rolldeg)).
  apply draw_all_unchanged. intros im n Hn. apply in_range in Hn.
  unfold catsize in *.
  assert (Hs : exists s, getitem (cat self) n = Ok s).
  { destruct (Z_lt_le_dec n 0).
    - rewrite getitem_negative by lia.
      destruct (getitem_in_range (cat self)
                  (n + Z.of_nat (length (cat self)))) as (s & E & _);
        [lia | eauto].
    - destruct (getitem_in_range (cat self) n) as (s & E & _);
        [lia | eauto]. }
  destruct Hs as [s Hs]. unfold draw_star.
  rewrite getitem_map, Hs. cbn [bind].
  destruct (Rlt_dec (fscale s) limflux) as [|Hn']; [reflexivity|].
  exfalso. apply Hn'. apply (Hfaint n s); [lia | exact Hs].
Qed.

(** [int] of a number that is not negative is not negative. *)
Lemma int_nonneg (x : R) : 0 <= x -> (0 <= int x)%Z.
Proof.
  intros Hx. unfold int. destruct (Rle_dec 0 x); [|contradiction].
  destruct (base_Int_part x) as [_ H].
  assert (H1 : -1 < IZR (Int_part x)) by lra.
  apply lt_IZR in H1. lia.
Qed.

Lemma linspace_ok (start stop : R) (num : Z) :
  (0 <= num)%Z ->
  exists l, linspace start stop num = Ok l /\ length l = Z.to_nat num.
Proof.
  intros Hn. unfold linspace.
  destruct (Z.ltb_spec num 0); [lia|].
  destruct (Z.eqb_spec num 1) as [->|].
  - eexists; split; reflexivity.
  - eexists; split; [reflexivity|]. now rewrite length_map, length_seq.
Qed.

Lemma has_shape_img_add (shp : nat * nat) (a b : image_t) :
  has_shape shp a -> has_shape shp b -> has_shape shp (img_add a b).
Proof.
  intros [La Ra] [Lb Rb]. unfold has_shape, img_add.
  rewrite length_map2, La, Lb, Nat.min_id. split; [reflexivity|].
  clear La Lb. revert b Rb.
  induction Ra as [|ra a Hra Ra IH]; intros [|rb b] Rb; cbn [map2];
    constructor.
  - inversion Rb; subst. rewrite length_map2. lia.
  - inversion Rb; subst. now apply IH.
Qed.

Lemma has_shape_img_div (shp : nat * nat) (a : image_t) (d : R) :
  has_shape shp a -> has_shape shp (img_div a d).
Proof.
  intros [La Ra]. unfold has_shape, img_div. rewrite length_map.
  split; [assumption|]. apply Forall_map.
  eapply Forall_impl; [|exact Ra]. intros row E. now rewrite length_map.
Qed.

Lemma blur_all_ok (render : R -> result image_t) (shp : nat * nat) (N : Z)
  (rolldegs : list R) :
  (forall roll, exists img, render roll = Ok img /\ has_shape shp img) ->
  forall acc, has_shape shp acc ->
  exists out, blur_all render N rolldegs acc = Ok out /\ has_shape shp out.
Proof.
  intros Hr. induction rolldegs as [|roll rest IH]; intros acc Hacc;
    cbn [blur_all]; [eauto|].
  destruct (Hr roll) as (img & E & Hs). rewrite E. cbn [bind].
  apply IH. apply has_shape_img_add; [assumption|].
  now apply has_shape_img_div.
Qed.

Lemma image_ok self x0 y0 rolldeg psf_fun shp target limflux single_id
  max_psf_rad :
  valid_ids self target single_id ->
  exists img,
    image self x0 y0 rolldeg psf_fun (Some shp) target limflux single_id
      max_psf_rad = Ok img
    /\ has_shape shp img.
Proof.
  intros Hv. unfold image.
  rewrite (surjective_pairing (rotate_cat self rolldeg)).
  apply draw_all_ok; [|apply has_shape_zeros].
  destruct single_id as [k|]; cbn [valid_ids] in Hv.
  - intros n [<-|[]]. exact Hv.
  - intros n Hn. apply in_range in Hn. lia.
Qed.

Lemma rotblur_blur_ok self x0 y0 rolldeg blurdeg psf_fun oversample shp
  target limflux single_id max_psf_rad :
  let shp' := match shp with None => shape self | Some s => s end in
  0 <= blurdeg ->
  0 < oversample ->
  (0 < Nat.max (fst shp') (snd shp'))%nat ->
  valid_ids self target single_id ->
  exists img,
    rotblur self x0 y0 rolldeg blurdeg psf_fun oversample shp target
      limflux single_id max_psf_rad = Ok img
    /\ has_shape shp' img.
Proof.
  intros shp' Hb Ho Hm Hv.
  set (resolution :=
         rad2deg (1 / INR (Nat.max (fst shp') (snd shp'))) / oversample).
  assert (Hres : 0 < resolution).
  { unfold resolution, rad2deg.
    assert (0 < INR (Nat.max (fst shp') (snd shp'))) by now apply lt_0_INR.
    pose proof PI_RGT_0.
    apply Rdiv_lt_0_compat; [|assumption].
    apply Rmult_lt_0_compat.
    - apply Rdiv_lt_0_compat; lra.
    - apply Rdiv_lt_0_compat; lra. }
  assert (HN : (0 <= int (blurdeg / resolution))%Z).
  { apply int_nonneg. apply Rmult_le_pos; [assumption|].
    left. now apply Rinv_0_lt_compat. }
  unfold rotblur. fold shp'. fold resolution.
  destruct (linspace_ok (-1) 1 (int (blurdeg / resolution) + 1))
    as (ls & E & _); [lia|].
  rewrite E. cbn [bind].
  apply blur_all_ok; [|apply has_shape_zeros].
  intros roll. now apply image_ok.
Qed.

(** X8.  For a blur angle that is not negative, a positive oversampling
    and an image with at least one pixel along one axis, [rotblur]
    returns an image of the requested shape, provided the catalogue
    indices it is asked for are valid; it then averages
    int(blurdeg / resolution) + 1 >= 1 renders. *)
Theorem rotblur_returns_requested_shape :
  forall (self : star_bg) (x0 y0 rolldeg blurdeg : R) (psf_fun : psf_t)
    (oversample : R) (shp : option (nat * nat)) (target : Z) (limflux : R)
    (single_id : option Z) (max_psf_rad : Z),
    let shp' := match shp with None => shape self | Some s => s end in
    let resolution :=
      rad2deg (1 / INR (Nat.max (fst shp') (snd shp'))) / oversample in
    0 <= blurdeg ->
    0 < oversample ->
    (0 < Nat.max (fst shp') (snd shp'))%nat ->
    valid_ids self target single_id ->
    (1 <= int (blurdeg / resolution) + 1)%Z
    /\ exists img,
         rotblur self x0 y0 rolldeg blurdeg psf_fun oversample shp target
           limflux single_id max_psf_rad = Ok img
         /\ has_shape shp' img.
Proof.
  intros self x0 y0 rolldeg blurdeg psf_fun oversample shp target limflux
    single_id max_psf_rad shp' resolution Hb Ho Hm Hv.
  assert (Hres : 0 < resolution).
  { unfold resolution, rad2deg.
    assert (0 < INR (Nat.max (fst shp') (snd shp'))) by now apply lt_0_INR.
    pose proof PI_RGT_0.
    apply Rdiv_lt_0_compat; [|assumption].
    apply Rmult_lt_0_compat.
    - apply Rdiv_lt_0_compat; lra.
    - apply Rdiv_lt_0_compat; lra. }
  assert (HN : (0 <= int (blurdeg / resolution))%Z).
  { apply int_nonneg. apply Rmult_le_pos; [assumption|].
    left. now apply Rinv_0_lt_compat. }
  split; [lia|].
  unfold rotblur. fold shp'. fold resolution.
  destruct (linspace_ok (-1) 1 (int (blurdeg / resolution) + 1))
    as (ls & E & _); [lia|].
  rewrite E. cbn [bind].
  apply blur_all_ok; [|apply has_shape_zeros].
  intros roll. now apply image_ok.
Qed.

Lemma sum_axis0_acc (W : nat) (rb : image_t) (acc : list R) (k : nat) :
  Forall (fun row => length row = W) rb ->
  length acc = W ->
  (k < W)%nat ->
  length (fold_left (map2 Rplus) rb acc) = W
  /\ nth k (fold_left (map2 Rplus) rb acc) 0
     = fold_left Rplus (map (fun row => nth k row 0) rb) (nth k acc 0).
Proof.
  intros Hrb. revert acc.
  induction Hrb as [|row rb Hrow Hrb IH]; intros acc Hacc Hk;
    cbn [fold_left map]; [auto|].
  assert (Hl : length (map2 Rplus acc row) = W)
    by (rewrite length_map2; lia).
  destruct (IH _ Hl Hk) as [IH1 IH2]. split; [exact IH1|].
  rewrite IH2. f_equal.
  assert (Hn : nth_error (map2 Rplus acc row) k
               = Some (nth k acc 0 + nth k row 0)).
  { rewrite nth_error_map2.
    rewrite (nth_error_nth' acc 0) by lia.
    rewrite (nth_error_nth' row 0) by lia. reflexivity. }
  now apply nth_error_nth with (d := 0) in Hn.
Qed.

(** X9.  Under the same conditions [smear] returns one value per image
    column: entry [k] is the sum over the rows of column [k] of the
    rotation-blurred image that includes the target ([target] = 0). *)
Theorem smear_sums_columns :
  forall (self : star_bg) (x0 y0 rolldeg blurdeg : R) (psf_fun : psf_t)
    (oversample : R) (shp : option (nat * nat)) (limflux : R)
    (max_psf_rad : Z),
    let shp' := match shp with None => shape self | Some s => s end in
    0 <= blurdeg ->
    0 < oversample ->
    (0 < Nat.max (fst shp') (snd shp'))%nat ->
    exists rb trail,
      rotblur self x0 y0 rolldeg blurdeg psf_fun oversample shp 0 limflux
        None max_psf_rad = Ok rb
      /\ smear self x0 y0 rolldeg blurdeg psf_fun oversample shp limflux
           max_psf_rad = Ok trail
      /\ length trail = snd shp'
      /\ forall k, (k < snd shp')%nat ->
           nth k trail 0 = np_sum (map (fun row => nth k row 0) rb).
Proof.
  intros self x0 y0 rolldeg blurdeg psf_fun oversample shp limflux
    max_psf_rad shp' Hb Ho Hm.
  assert (Hv : valid_ids self 0 None)
    by (cbn [valid_ids]; unfold catsize; lia).
  assert (Hm' : (0 < Nat.max (fst (match Some shp' with
                                   | None => shape self | Some s => s end))
                     (snd (match Some shp' with
                           | None => shape self | Some s => s end)))%nat)
    by exact Hm.
  destruct (rotblur_blur_ok self x0 y0 rolldeg blurdeg psf_fun oversample
              (Some shp') 0 limflux None max_psf_rad Hb Ho Hm' Hv)
    as (rb & E & Hs).
  assert (E' : rotblur self x0 y0 rolldeg blurdeg psf_fun oversample shp 0
                 limflux None max_psf_rad = Ok rb)
    by (rewrite <- E; unfold rotblur, shp'; destruct shp; reflexivity).
  exists rb, (sum_axis0 (snd shp') rb).
  split; [exact E'|]. unfold smear. fold shp'. rewrite E. cbn [bind].
  split; [reflexivity|].
  destruct Hs as [_ Hrows]. cbn [snd] in Hrows.
  destruct (Nat.eq_dec (snd shp') 0) as [Hz|Hz].
  - split; [|intros k Hk; lia].
    unfold sum_axis0. rewrite Hz. cbn [repeat].
    clear - Hrows Hz. rewrite Hz in Hrows.
    induction Hrows as [|row rb Hrow Hrb IH]; cbn [fold_left]; [reflexivity|].
    destruct row; [exact IH | discriminate].
  - assert (H0 : (0 < snd shp')%nat) by lia.
    split.
    + apply (sum_axis0_acc (snd shp') rb (repeat 0 (snd shp')) 0 Hrows);
        [apply repeat_length | exact H0].
    + intros k Hk. unfold sum_axis0, np_sum.
      destruct (sum_axis0_acc (snd shp') rb (repeat 0 (snd shp')) k Hrows)
        as [_ Hsum]; [apply repeat_length | exact Hk |].
      rewrite Hsum. f_equal. apply nth_repeat.
Qed.

Lemma getpix_zeros (shp : nat * nat) (row col : nat) :
  (row < fst shp)%nat -> (col < snd shp)%nat ->
  getpix (zeros shp) row col = Some 0.
Proof.
  intros Hr Hc. unfold getpix, zeros.
  rewrite (nth_error_repeat _ Hr). now apply nth_error_repeat.
Qed.

(** X10.  Every pixel of the image is the sum, over the catalogue entries
    that are drawn, of what each star adds there: nothing for a star
    below [limflux] or whose stamp does not cover the pixel, and
    otherwise its flux ratio times the PSF at the pixel's offset from the
    star, or times 0 beyond [psf_rad] from the star. *)
Theorem image_pixel_is_sum_of_stars :
  forall (self : star_bg) (x0 y0 rolldeg : R) (psf_fun : psf_t)
    (shp : option (nat * nat)) (target : Z) (limflux : R)
    (single_id : option Z) (max_psf_rad : Z) (row col : nat),
    let shp' := match shp with None => shape self | Some s => s end in
    let id_range := match single_id with
                    | None => range target (catsize self)
                    | Some k => [k]
                    end in
    let term (n : Z) : R :=
      match getitem (cat self) n with
      | Raise _ => 0
      | Ok s =>
          let dxn := fst (rotate_position (xpos s) (ypos s) rolldeg) in
          let dyn := snd (rotate_position (xpos s) (ypos s) rolldeg) in
          let r := psf_radius (fscale s) max_psf_rad in
          let i := int (x0 + dxn) in
          let j := int (y0 + dyn) in
          let inside :=
            ((j - r <=? Z.of_nat row) && (Z.of_nat row <? j + r)
             && (Z.of_nat row <? Z.of_nat (fst shp'))
             && (i - r <=? Z.of_nat col) && (Z.of_nat col <? i + r)
             && (Z.of_nat col <? Z.of_nat (snd shp')))%Z in
          let x := INR col - x0 - dxn in
          let y := INR row - y0 - dyn in
          if Rlt_dec (fscale s) limflux then 0
          else if inside
          then fscale s * (if Rgt_dec (x * x + y * y) (IZR (r * r)) then 0
                           else psf_fun y x)
          else 0
      end in
    valid_ids self target single_id ->
    (row < fst shp')%nat ->
    (col < snd shp')%nat ->
    exists img,
      image self x0 y0 rolldeg psf_fun shp target limflux single_id
        max_psf_rad = Ok img
      /\ getpix img row col = Some (fold_left Rplus (map term id_range) 0).
Proof.
  intros self x0 y0 rolldeg psf_fun shp target limflux single_id max_psf_rad
    row col shp' id_range term Hv Hr Hc.
  unfold image. fold shp'. fold id_range.
  rewrite (surjective_pairing (rotate_cat self rolldeg)).
  assert (Hids : forall n, In n id_range ->
                           (- catsize self <= n < catsize self)%Z).
  { unfold id_range. destruct single_id as [k|]; cbn [valid_ids] in Hv.
    - intros n [<-|[]]. exact Hv.
    - intros n Hn. apply in_range in Hn. lia. }
  generalize (getpix_zeros shp' row col Hr Hc).
  generalize (zeros shp') as img. generalize 0 as v.
  clear Hv. induction id_range as [|n ids IH]; intros v img Hpix;
    cbn [draw_all map fold_left].
  - eauto.
  - assert (Hs : exists s, getitem (cat self) n = Ok s).
    { specialize (Hids n (or_introl eq_refl)). unfold catsize in Hids.
      destruct (Z_lt_le_dec n 0).
      - rewrite getitem_negative by lia.
        destruct (getitem_in_range (cat self)
                    (n + Z.of_nat (length (cat self)))) as (s & E & _);
          [lia | eauto].
      - destruct (getitem_in_range (cat self) n) as (s & E & _);
          [lia | eauto]. }
    destruct Hs as [s Hs].
    destruct (draw_star_pixel self x0 y0 rolldeg psf_fun shp' limflux
                max_psf_rad img n s row col v Hs Hpix) as (img' & E & Hp).
    rewrite E. cbn [bind].
    assert (Et : term n = _) by (unfold term; rewrite Hs; reflexivity).
    rewrite Et. apply IH; [|exact Hp].
    intros; apply Hids; now right.
Qed.

End SyntstarMore.

(** ** Further properties of psf_worker.py *)

Section PsfWorkerMore.

Import PsfWorker.
Local Open Scope R_scope.

Lemma int_le_m1 (x : R) : x <= -1 -> (int x <= -1)%Z.
Proof.
  intros Hx. unfold int. destruct (Rle_dec 0 x); [lra|].
  destruct (base_Int_part (- x)) as [_ H].
  assert (H1 : 0 < IZR (Int_part (- x))) by lra.
  apply lt_IZR in H1. lia.
Qed.

Lemma int_gt_m1 (x : R) : -1 < x -> (0 <= int x)%Z.
Proof.
  intros Hx. destruct (Rle_dec 0 x) as [H0|H0]; [now apply int_nonneg|].
  unfold int. destruct (Rle_dec 0 x); [contradiction|].
  destruct (base_Int_part (- x)) as [H _].
  assert (H1 : IZR (Int_part (- x)) < 1) by lra.
  apply lt_IZR in H1. lia.
Qed.

(** X11.  [make_psf] raises [ValueError] for a radius that is not
    positive (the knot count int(2 (radius - 1) + 1) is then negative),
    whatever the samples, and [UnboundLocalError] for a positive radius
    with no pass to run; in neither case does the result depend on the
    spline fitter. *)
Theorem make_psf_without_a_pass :
  forall (LSQBivariateSpline :
            list R -> list R -> list R -> list R -> list R -> list R ->
            Z -> Z -> result spline)
    (pix : list sample) (radius : R) (polydeg niter : Z),
    (radius <= 0 ->
     make_psf LSQBivariateSpline pix radius polydeg niter = Raise ValueError)
    /\ (0 < radius -> (niter <= 0)%Z ->
        make_psf LSQBivariateSpline pix radius polydeg niter
        = Raise UnboundLocalError).
Proof.
  intros LSQ pix radius polydeg niter. unfold make_psf, linspace. split.
  - intros Hr.
    assert (H : (int (2 * (radius - 1) + 1) <= -1)%Z)
      by (apply int_le_m1; lra).
    destruct (Z.ltb_spec (int (2 * (radius - 1) + 1)) 0); [reflexivity | lia].
  - intros Hr Hn.
    assert (H : (0 <= int (2 * (radius - 1) + 1))%Z)
      by (apply int_gt_m1; lra).
    destruct (Z.ltb_spec (int (2 * (radius - 1) + 1)) 0); [lia|].
    replace (Z.to_nat niter) with 0%nat by lia.
    destruct (_ =? 1)%Z; reflexivity.
Qed.

Lemma for_range_raise {St} (n : nat) (body : St -> result St) (st : St) :
  (forall s, exists e, body s = Raise e) ->
  n <> 0%nat -> exists e, for_range n body st = Raise e.
Proof.
  intros Hb Hn. destruct n as [|n]; [congruence|].
  cbn [for_range]. destruct (Hb st) as [e E]. rewrite E. cbn [bind]. eauto.
Qed.

(** X12.  [filter_pix] raises [ValueError] on an empty sample table, and
    [make_psf] never returns a spline for one: it raises, whatever the
    radius, the number of passes and the answers of the spline fitter. *)
Theorem make_psf_empty_table_raises :
  forall (LSQBivariateSpline :
            list R -> list R -> list R -> list R -> list R -> list R ->
            Z -> Z -> result spline)
    (psf_spline : spline) (clip radius : R) (polydeg niter : Z),
    filter_pix psf_spline [] clip = Raise ValueError
    /\ exists e,
         make_psf LSQBivariateSpline [] radius polydeg niter = Raise e.
Proof.
  intros LSQ psf_spline clip radius polydeg niter.
  split; [reflexivity|]. unfold make_psf.
  destruct (linspace _ _ _) as [t|e]; [|cbn [bind]; eauto]. cbn [bind].
  destruct (Z.to_nat niter) as [|n] eqn:En.
  - cbn [for_range bind fst]. eauto.
  - destruct (for_range_raise (S n)
                (make_psf_pass LSQ [] (nanmedian (map pe [])) t polydeg)
                (None, repeat true (length (@nil sample)))) as [e E].
    + intros st. unfold make_psf_pass.
      destruct (fit_selected LSQ [] _ t polydeg (snd st)) as [sp|e];
        cbn [bind]; [|eauto].
      exists ValueError. reflexivity.
    + discriminate.
    + rewrite E. cbn [bind]. eauto.
Qed.

(** X13.  For a whole radius [n] >= 1 the knots handed to every spline
    fit are the 2 n - 1 whole numbers from -(n - 1) to n - 1, one unit
    apart. *)
Theorem make_psf_unit_knots :
  forall (LSQBivariateSpline :
            list R -> list R -> list R -> list R -> list R -> list R ->
            Z -> Z -> result spline)
    (pix : list sample) (n polydeg niter : Z),
    (1 <= n)%Z ->
    let t := map (fun k => IZR (Z.of_nat k - (n - 1)))
               (seq 0 (Z.to_nat (2 * n - 1))) in
    linspace (- (IZR n - 1)) (IZR n - 1) (int (2 * (IZR n - 1) + 1)) = Ok t
    /\ make_psf LSQBivariateSpline pix (IZR n) polydeg niter
       = (st <- for_range (Z.to_nat niter)
                  (make_psf_pass LSQBivariateSpline pix
                     (nanmedian (map pe pix)) t polydeg)
                  (None, repeat true (length pix)) ;;
          match fst st with
          | Some psf_spline => Ok psf_spline
          | None => Raise UnboundLocalError
          end).
Proof.
  intros LSQ pix n polydeg niter Hn t.
  assert (E : linspace (- (IZR n - 1)) (IZR n - 1)
                (int (2 * (IZR n - 1) + 1)) = Ok t).
  { replace (2 * (IZR n - 1) + 1) with (IZR (2 * n - 1))
      by (rewrite minus_IZR, mult_IZR; lra).
    rewrite int_IZR. unfold linspace.
    destruct (Z.ltb_spec (2 * n - 1) 0); [lia|].
    destruct (Z.eqb_spec (2 * n - 1) 1) as [H1|H1].
    - assert (n = 1%Z) by lia. subst n. unfold t. cbn [Z.to_nat seq map].
      simpl. do 2 f_equal. lra.
    - f_equal. unfold t. apply map_ext. intros k.
      replace (2 * n - 1 - 1)%Z with (2 * (n - 1))%Z by lia.
      rewrite !minus_IZR, mult_IZR, <- INR_IZR_INZ, minus_IZR.
      assert (IZR n - 1 <> 0).
      { assert (2 <= n)%Z by lia.
        assert (2 <= IZR n) by now apply IZR_le. lra. }
      field. lra. }
  split; [exact E|]. unfold make_psf. rewrite E. reflexivity.
Qed.

Lemma np_sum_zeros (n : nat) : np_sum (repeat 0 n) = 0.
Proof.
  unfold np_sum. induction n as [|n IH]; cbn [repeat fold_left];
    [reflexivity|].
  now rewrite Rplus_0_l.
Qed.

Lemma np_mean_zeros (n : nat) : np_mean (repeat 0 n) = 0.
Proof.
  unfold np_mean. rewrite np_sum_zeros. unfold Rdiv. apply Rmult_0_l.
Qed.

Lemma np_std_zeros (n : nat) : np_std (repeat 0 n) = 0.
Proof.
  unfold np_std. cbv zeta. rewrite np_mean_zeros.
  assert (E : map (fun v => Rabs (v - 0) * Rabs (v - 0)) (repeat 0 n)
              = repeat 0 n).
  { induction n as [|k IH]; cbn [repeat map]; [reflexivity|].
    rewrite IH. f_equal. rewrite Rminus_0_r, Rabs_R0. lra. }
  rewrite E, np_mean_zeros. apply sqrt_0.
Qed.

(** X14.  A spline that passes through every sample makes [filter_pix]
    reject every sample: the residual scale is then 0 and no residual is
    strictly below 0. *)
Theorem filter_pix_rejects_exact_fit :
  forall (psf_spline : spline) (pix : list sample) (clip : R),
    pix <> [] ->
    (forall p, In p pix -> pz p = psf_spline (px p) (py p)) ->
    filter_pix psf_spline pix clip = Ok (repeat false (length pix)).
Proof.
  intros sp pix clip Hne Hfit. unfold filter_pix.
  destruct (np_max_spec (map (fun p => sp (px p) (py p)) pix))
    as (m & Em & _); [destruct pix; [congruence | discriminate]|].
  rewrite Em. cbn [bind]. f_equal.
  set (k := 1 / 10 * m).
  assert (Es : map2 (fun v f => (v - f) / (Rabs f + k)) (map pz pix)
                 (map (fun p => sp (px p) (py p)) pix)
               = repeat 0 (length pix)).
  { clear Em Hne. induction pix as [|p l IH]; cbn [map map2 repeat length];
      [reflexivity|].
    rewrite IH by (intros; apply Hfit; now right). f_equal.
    rewrite (Hfit p) by now left. unfold Rdiv. rewrite Rminus_diag. lra. }
  rewrite Es, np_std_zeros.
  clear Em Hne Es. induction pix as [|p l IH]; cbn [map map2 repeat length];
    [reflexivity|].
  rewrite IH by (intros; apply Hfit; now right). f_equal.
  rewrite (Hfit p) by now left.
  destruct (Rlt_dec _ _) as [H|]; [|reflexivity].
  exfalso. rewrite Rminus_diag, Rabs_R0 in H. lra.
Qed.

End PsfWorkerMore.

(** ** Further properties of pipe/psf.py *)

Section PsfMore.

Import Psf.
Local Open Scope string_scope.

Context {F : Type} {AF : Arith F}.
Variable coo_mat : nat * nat -> F -> F -> image_t F * image_t F.
Variable psf_integral : list (psf_t F) -> list F.
Variable lstsq : nat -> matrix F -> list F -> result (list F).
Variable nnls : matrix F -> list F -> result (list F).

Lemma kernel_grid_negative (krn_scl : F) (krn_rad : Z) :
  (krn_rad < 0)%Z -> kernel_grid krn_scl krn_rad = Raise ValueError.
Proof.
  intros Hk. unfold kernel_grid, linspace.
  destruct (Z.ltb_spec (2 * krn_rad + 1) 0); [reflexivity | lia].
Qed.

(** X15.  For a frame, noise image, mask and coordinate grids that
    agree in shape, a negative [krn_rad] makes both fitters raise
    [ValueError] (np.linspace is asked for a negative number of samples)
    before any solve: no call of the solver is made and nothing is
    printed. *)
Theorem fitters_reject_negative_kernel_radius :
  forall (psf_list0 psf_list1 : list (psf_t F)) (frame noise : image_t F)
    (mask : mask_t) (omask : option mask_t)
    (xc0 yc0 xc1 yc1 radius psfrad fitrad krn_scl : F) (krn_rad bg_fit : Z)
    (w0 : world F) (n m : nat),
    (krn_rad < 0)%Z ->
    (shapes_agree coo_mat n m frame noise (Some mask) ->
     fit coo_mat psf_integral lstsq nnls psf_list0 frame noise mask xc0 yc0
       radius krn_scl krn_rad bg_fit w0 = (Raise ValueError, w0))
    /\ (shapes_agree coo_mat n m frame noise omask ->
        fit_binary coo_mat psf_integral lstsq nnls psf_list0 psf_list1 frame
          noise omask xc0 yc0 xc1 yc1 psfrad fitrad krn_scl krn_rad w0
        = (Raise ValueError, w0)).
Proof.
  intros. split; intros _.
  - unfold fit, mbind, lift. now rewrite kernel_grid_negative.
  - unfold fit_binary, mbind, lift. now rewrite kernel_grid_negative.
Qed.

(** X16.  On a square frame whose noise image, mask and coordinate
    grids have the frame's shape, and with a [krn_rad] that is not
    negative, [fit_binary] raises [IndexError] before any solve as soon
    as one of its two PSF libraries is empty. *)
Theorem fit_binary_rejects_empty_library :
  forall (psf_list0 psf_list1 : list (psf_t F)) (frame noise : image_t F)
    (omask : option mask_t)
    (xc0 yc0 xc1 yc1 psfrad fitrad krn_scl : F) (krn_rad : Z)
    (w0 : world F) (n : nat),
    shapes_agree coo_mat n n frame noise omask ->
    (0 <= krn_rad)%Z ->
    psf_list0 = [] \/ psf_list1 = [] ->
    fit_binary coo_mat psf_integral lstsq nnls psf_list0 psf_list1 frame
      noise omask xc0 yc0 xc1 yc1 psfrad fitrad krn_scl krn_rad w0
    = (Raise IndexError, w0).
Proof.
  intros psf_list0 psf_list1 frame noise omask xc0 yc0 xc1 yc1
    psfrad fitrad krn_scl krn_rad w0 n _ Hk Hl.
  destruct (kernel_grid_ok krn_scl krn_rad Hk) as (xkern & xk & yk & Hg & _).
  unfold fit_binary, mbind, lift. rewrite Hg.
  destruct Hl as [-> | ->]; [reflexivity|].
  destruct (getitem psf_list0 0) eqn:E; [reflexivity|].
  apply getitem_raise in E. now subst.
Qed.

(** What any solve does to the world. *)
Lemma least_square_any (eq_mat : matrix F) (res_vec : list F)
  (w w' : world F) (res : result (list F)) :
  _least_square lstsq nnls eq_mat res_vec false w = (res, w') ->
  exists calls,
    solves w' = solves w ++ calls
    /\ (1 <= length calls <= 2)%nat
    /\ (forall c, In c calls -> c = (eq_mat, res_vec))
    /\ stdout w' = stdout w.
Proof.
  rewrite least_square_run.
  destruct (lstsq (length (solves w)) eq_mat res_vec);
    intros H; injection H as _ <-; eexists;
    (split; [reflexivity|]); cbn [length]; (split; [lia|]);
    (split; [|reflexivity]); intros c Hc; cbn [In] in Hc; intuition.
Qed.

(** What the normalisation does to the world. *)
Lemma fit_normalize_any (psf_norms : list F) (bg_fit : Z) (Nk side : nat)
  (psf : image_t F) (kvec w : list F) (wb w1 : world F)
  (res : result (fit_result F)) :
  fit_normalize psf_norms bg_fit Nk side psf kvec w wb = (res, w1) ->
  solves w1 = solves wb
  /\ (exists out, stdout w1 = stdout wb ++ out /\ (length out <= 1)%nat)
  /\ (forall e, res = Raise e -> stdout w1 = stdout wb).
Proof.
  unfold fit_normalize, mbind, lift, ret, py_print. intros H.
  assert (Hraise : forall e, (Raise e, wb) = (res, w1) ->
            solves w1 = solves wb
            /\ (exists out, stdout w1 = stdout wb ++ out
                            /\ (length out <= 1)%nat)
            /\ (forall e, res = Raise e -> stdout w1 = stdout wb)).
  { intros e E; injection E as _ <-. split; [reflexivity|]. split; [|auto].
    exists []. rewrite app_nil_r. split; [reflexivity | cbn; lia]. }
  destruct (if (bg_fit =? 0)%Z then _ else _) as [[[bg last_w] last_k]|e];
    [|now apply (Hraise e)].
  destruct (reshape _ side side) as [kmat|e]; [|now apply (Hraise e)].
  destruct (broadcast_mul _ _) as [terms|e]; [|now apply (Hraise e)].
  destruct (fisnan (np_sum terms)).
  { injection H as <- <-. cbn [solves stdout]. split; [reflexivity|].
    split; [|discriminate].
    eexists; split; [reflexivity | cbn; lia]. }
  destruct (feqb (np_sum terms) (of_Z 0)).
  { injection H as <- <-. cbn [solves stdout]. split; [reflexivity|].
    split; [|discriminate].
    eexists; split; [reflexivity | cbn; lia]. }
  injection H as <- <-. split; [reflexivity|]. split; [|discriminate].
  exists []. rewrite app_nil_r. split; [reflexivity | cbn; lia].
Qed.

(** X17.  Whatever the solver does, a call of [fit] makes at most four
    calls of it, all with the right-hand side [fvec / nvec], and prints
    at most one line; a call that returns made at least two solver calls
    and a call that raises printed nothing. *)
Theorem fit_solver_calls_and_output :
  forall (psf_list : list (psf_t F)) (frame noise : image_t F)
    (mask : mask_t) (xc yc radius krn_scl : F) (krn_rad bg_fit : Z)
    (w0 w1 : world F) (res : result (fit_result F)),
    fit coo_mat psf_integral lstsq nnls psf_list frame noise mask xc yc
      radius krn_scl krn_rad bg_fit w0 = (res, w1) ->
    let aperture := fit_aperture coo_mat frame mask xc yc radius in
    let rhs := map2 fdiv (select aperture frame) (select aperture noise) in
    exists calls out,
      solves w1 = solves w0 ++ calls
      /\ (length calls <= 4)%nat
      /\ (forall c, In c calls -> snd c = rhs)
      /\ stdout w1 = stdout w0 ++ out
      /\ (length out <= 1)%nat
      /\ (forall r, res = Ok r -> (2 <= length calls)%nat)
      /\ (forall e, res = Raise e -> out = []).
Proof.
  intros psf_list frame noise mask xc yc radius krn_scl krn_rad bg_fit w0 w1
    res Hrun aperture rhs.
  unfold fit, mbind, lift in Hrun. fold aperture in Hrun. fold rhs in Hrun.
  assert (Stop : forall (w : world F) calls e,
            solves w = solves w0 ++ calls -> (length calls <= 4)%nat ->
            (forall c, In c calls -> snd c = rhs) ->
            stdout w = stdout w0 ->
            (Raise e, w) = (res, w1) ->
            exists calls out,
              solves w1 = solves w0 ++ calls
              /\ (length calls <= 4)%nat
              /\ (forall c, In c calls -> snd c = rhs)
              /\ stdout w1 = stdout w0 ++ out
              /\ (length out <= 1)%nat
              /\ (forall r, res = Ok r -> (2 <= length calls)%nat)
              /\ (forall e, res = Raise e -> out = [])).
  { intros w calls e Hs Hl Hc Ho E. injection E as <- <-.
    exists calls, []. rewrite app_nil_r.
    repeat split; auto; try discriminate. }
  assert (Nil : solves w0 = solves w0 ++ []) by now rewrite app_nil_r.
  assert (Len0 : (length (@nil (matrix F * list F)) <= 4)%nat)
    by (cbn; lia).
  assert (In0 : forall c : matrix F * list F, In c [] -> snd c = rhs)
    by (intros c []).
  destruct (kernel_grid krn_scl krn_rad) as [[[xkern xk] yk]|e];
    [|exact (Stop w0 [] e Nil Len0 In0 eq_refl Hrun)].
  destruct (getitem psf_list 0) as [psf0|e];
    [|exact (Stop w0 [] e Nil Len0 In0 eq_refl Hrun)].
  destruct (_least_square lstsq nnls _ rhs false w0) as [r1 wa] eqn:E1.
  destruct (least_square_any _ _ _ _ _ E1) as (c1 & Hs1 & Hl1 & Hc1 & Ho1).
  assert (Hr1 : forall c, In c c1 -> snd c = rhs)
    by (intros c Hc; now rewrite (Hc1 c Hc)).
  destruct r1 as [kvec|e];
    [|exact (Stop wa c1 e Hs1 ltac:(lia) Hr1 Ho1 Hrun)].
  destruct (check_index (length kvec) (length xk)) as [[]|e];
    [|exact (Stop wa c1 e Hs1 ltac:(lia) Hr1 Ho1 Hrun)].
  destruct (_least_square lstsq nnls _ rhs false wa) as [r2 wb] eqn:E2.
  destruct (least_square_any _ _ _ _ _ E2) as (c2 & Hs2 & Hl2 & Hc2 & Ho2).
  assert (Hs12 : solves wb = solves w0 ++ c1 ++ c2)
    by (rewrite Hs2, Hs1; now rewrite app_assoc).
  assert (Hl12 : (2 <= length (c1 ++ c2) <= 4)%nat)
    by (rewrite length_app; lia).
  assert (Hr12 : forall c, In c (c1 ++ c2) -> snd c = rhs).
  { intros c Hc. apply in_app_or in Hc as [Hc|Hc]; [now apply Hr1|].
    now rewrite (Hc2 c Hc). }
  assert (Ho12 : stdout wb = stdout w0) by congruence.
  destruct r2 as [w|e];
    [|exact (Stop wb (c1 ++ c2) e Hs12 ltac:(lia) Hr12 Ho12 Hrun)].
  destruct (check_index (length w) (length psf_list)) as [[]|e];
    [|exact (Stop wb (c1 ++ c2) e Hs12 ltac:(lia) Hr12 Ho12 Hrun)].
  destruct (fit_normalize_any _ _ _ _ _ _ _ _ _ _ Hrun)
    as (Hsn & (out & Hout & Hlo) & Hquiet).
  exists (c1 ++ c2), out. rewrite Hsn, Hout, Ho12.
  repeat split; auto; try lia.
  intros e ->. specialize (Hquiet e eq_refl).
  rewrite Hout in Hquiet.
  rewrite <- (app_nil_r (stdout wb)) in Hquiet at 2.
  now apply app_inv_head in Hquiet.
Qed.

(** X18.  Whatever the solver does, a call of [fit_binary] makes at most
    six calls of it, all with the right-hand side [fvec / nvec], and
    never prints; a call that returns made at least three solver
    calls. *)
Theorem fit_binary_solver_calls_and_output :
  forall (psf_list0 psf_list1 : list (psf_t F)) (frame noise : image_t F)
    (mask : option mask_t) (xc0 yc0 xc1 yc1 psfrad fitrad krn_scl : F)
    (krn_rad : Z) (w0 w1 : world F) (res : result (fit_binary_result F)),
    fit_binary coo_mat psf_integral lstsq nnls psf_list0 psf_list1 frame
      noise mask xc0 yc0 xc1 yc1 psfrad fitrad krn_scl krn_rad w0
    = (res, w1) ->
    let aperture :=
      binary_aperture coo_mat frame mask xc0 yc0 xc1 yc1 fitrad in
    let rhs := map2 fdiv (select aperture frame) (select aperture noise) in
    exists calls,
      solves w1 = solves w0 ++ calls
      /\ (length calls <= 6)%nat
      /\ (forall c, In c calls -> snd c = rhs)
      /\ stdout w1 = stdout w0
      /\ (forall r, res = Ok r -> (3 <= length calls)%nat).
Proof.
  intros psf_list0 psf_list1 frame noise mask xc0 yc0 xc1 yc1 psfrad fitrad
    krn_scl krn_rad w0 w1 res Hrun aperture rhs.
  unfold fit_binary, mbind, lift, ret in Hrun.
  fold aperture in Hrun. fold rhs in Hrun.
  assert (Stop : forall (w : world F) calls e,
            solves w = solves w0 ++ calls -> (length calls <= 6)%nat ->
            (forall c, In c calls -> snd c = rhs) ->
            stdout w = stdout w0 ->
            (Raise e, w) = (res, w1) ->
            exists calls,
              solves w1 = solves w0 ++ calls
              /\ (length calls <= 6)%nat
              /\ (forall c, In c calls -> snd c = rhs)
              /\ stdout w1 = stdout w0
              /\ (forall r, res = Ok r -> (3 <= length calls)%nat)).
  { intros w calls e Hs Hl Hc Ho E. injection E as <- <-.
    exists calls. repeat split; auto; try discriminate. }
  assert (Nil : solves w0 = solves w0 ++ []) by now rewrite app_nil_r.
  assert (Len0 : (length (@nil (matrix F * list F)) <= 6)%nat)
    by (cbn; lia).
  assert (In0 : forall c : matrix F * list F, In c [] -> snd c = rhs)
    by (intros c []).
  destruct (kernel_grid krn_scl krn_rad) as [[[xkern xk] yk]|e];
    [|exact (Stop w0 [] e Nil Len0 In0 eq_refl Hrun)].
  destruct (getitem psf_list0 0) as [p0|e];
    [|exact (Stop w0 [] e Nil Len0 In0 eq_refl Hrun)].
  destruct (getitem psf_list1 0) as [p1|e];
    [|exact (Stop w0 [] e Nil Len0 In0 eq_refl Hrun)].
  destruct (_least_square lstsq nnls _ rhs false w0) as [r1 wa] eqn:E1.
  destruct (least_square_any _ _ _ _ _ E1) as (c1 & Hs1 & Hl1 & Hc1 & Ho1).
  assert (Hr1 : forall c, In c c1 -> snd c = rhs)
    by (intros c Hc; now rewrite (Hc1 c Hc)).
  destruct r1 as [kvec1|e];
    [|exact (Stop wa c1 e Hs1 ltac:(lia) Hr1 Ho1 Hrun)].
  destruct (getitem kvec1 (-1)) as [bg1|e];
    [|exact (Stop wa c1 e Hs1 ltac:(lia) Hr1 Ho1 Hrun)].
  destruct (check_index (length psf_list1) (length psf_list0)) as [[]|e];
    [|exact (Stop wa c1 e Hs1 ltac:(lia) Hr1 Ho1 Hrun)].
  destruct (check_index (length kvec1) (2 * length xk)) as [[]|e];
    [|exact (Stop wa c1 e Hs1 ltac:(lia) Hr1 Ho1 Hrun)].
  destruct (_least_square lstsq nnls _ rhs false wa) as [r2 wb] eqn:E2.
  destruct (least_square_any _ _ _ _ _ E2) as (c2 & Hs2 & Hl2 & Hc2 & Ho2).
  assert (Hs12 : solves wb = solves w0 ++ c1 ++ c2)
    by (rewrite Hs2, Hs1; now rewrite app_assoc).
  assert (Hr12 : forall c, In c (c1 ++ c2) -> snd c = rhs).
  { intros c Hc. apply in_app_or in Hc as [Hc|Hc]; [now apply Hr1|].
    now rewrite (Hc2 c Hc). }
  assert (Hl12 : (length (c1 ++ c2) <= 6)%nat) by (rewrite length_app; lia).
  assert (Ho12 : stdout wb = stdout w0) by congruence.
  destruct r2 as [w|e];
    [|exact (Stop wb (c1 ++ c2) e Hs12 Hl12 Hr12 Ho12 Hrun)].
  destruct (check_index (length w) (2 * length psf_list0)) as [[]|e];
    [|exact (Stop wb (c1 ++ c2) e Hs12 Hl12 Hr12 Ho12 Hrun)].
  destruct (_least_square lstsq nnls _ rhs false wb) as [r3 wc] eqn:E3.
  destruct (least_square_any _ _ _ _ _ E3) as (c3 & Hs3 & Hl3 & Hc3 & Ho3).
  assert (Hs123 : solves wc = solves w0 ++ c1 ++ c2 ++ c3)
    by (rewrite Hs3, Hs12; now rewrite <- !app_assoc).
  assert (Hr123 : forall c, In c (c1 ++ c2 ++ c3) -> snd c = rhs).
  { intros c Hc. rewrite app_assoc in Hc.
    apply in_app_or in Hc as [Hc|Hc]; [now apply Hr12|].
    now rewrite (Hc3 c Hc). }
  assert (Hl123 : (3 <= length (c1 ++ c2 ++ c3) <= 6)%nat)
    by (rewrite !length_app; lia).
  assert (Ho123 : stdout wc = stdout w0) by congruence.
  assert (Hl6 : (length (c1 ++ c2 ++ c3) <= 6)%nat) by lia.
  destruct r3 as [kvec|e];
    [|exact (Stop wc _ e Hs123 Hl6 Hr123 Ho123 Hrun)].
  destruct (getitem kvec (-1)) as [bg|e];
    [|exact (Stop wc _ e Hs123 Hl6 Hr123 Ho123 Hrun)].
  destruct (check_index (length kvec) (2 * length xk)) as [[]|e];
    [|exact (Stop wc _ e Hs123 Hl6 Hr123 Ho123 Hrun)].
  destruct (reshape (slice kvec 0 _) _ _) as [kmat0|e];
    [|exact (Stop wc _ e Hs123 Hl6 Hr123 Ho123 Hrun)].
  destruct (reshape (slice kvec (Z.of_nat (length xk)) _) _ _) as [kmat1|e];
    [|exact (Stop wc _ e Hs123 Hl6 Hr123 Ho123 Hrun)].
  destruct (broadcast_mul (psf_integral psf_list0) _) as [terms0|e];
    [|exact (Stop wc _ e Hs123 Hl6 Hr123 Ho123 Hrun)].
  destruct (broadcast_mul (psf_integral psf_list1) _) as [terms1|e];
    [|exact (Stop wc _ e Hs123 Hl6 Hr123 Ho123 Hrun)].
  injection Hrun as <- <-.
  exists (c1 ++ c2 ++ c3). repeat split; auto; lia.
Qed.

Lemma has_shape_binary_aperture (n m : nat) (frame noise : image_t F)
  (omask : option mask_t) (xc0 yc0 xc1 yc1 fitrad : F) :
  shapes_agree coo_mat n m frame noise omask ->
  has_shape (n, m)
    (binary_aperture coo_mat frame omask xc0 yc0 xc1 yc1 fitrad).
Proof.
  intros (Hn & Hf & _ & Hm & Hc). unfold binary_aperture.
  rewrite (shape_of_has_shape n m frame Hn Hf).
  destruct (Hc xc0 yc0) as [Hx0 Hy0]. destruct (Hc xc1 yc1) as [Hx1 Hy1].
  destruct (coo_mat (n, m) xc0 yc0) as [xmat0 ymat0].
  destruct (coo_mat (n, m) xc1 yc1) as [xmat1 ymat1].
  cbn [fst snd] in *.
  assert (Ha : has_shape (n, m)
                 (map2 (map2 (fun a b => Bool.eqb (a && b) false))
                    (far_from xmat0 ymat0 fitrad)
                    (far_from xmat1 ymat1 fitrad))).
  { unfold far_from. apply has_shape_map2; now apply has_shape_map2. }
  destruct omask as [mk|]; [|exact Ha]. now apply has_shape_map2.
Qed.

Lemma has_shape_binary_image1 (n : nat) (psf_list : list (psf_t F))
  (frame noise : image_t F) (omask : option mask_t) (xc yc psfrad : F)
  (yk xk : list F) (k : nat) :
  shapes_agree coo_mat n n frame noise omask ->
  has_shape (n, n)
    (binary_image1
       (binary_source coo_mat psf_list (shape_of frame) xc yc psfrad)
       yk xk k).
Proof.
  intros (Hn & Hf & _ & _ & Hc).
  rewrite (shape_of_has_shape n n frame Hn Hf).
  unfold binary_image1, masked, binary_source.
  destruct (Hc xc yc) as [Hx Hy].
  destruct (coo_mat (n, n) xc yc) as [xmat ymat]. cbn [fst snd] in *.
  cbn [psf_list_of ycoo_of xcoo_of apt_of nth_psf].
  unfold img_mask. apply has_shape_map2.
  - pose proof (has_shape_shifted
                  (nth 0 psf_list (fun _ _ : F => of_Z 0))
                  (map (fun v => fsub v yc) (arange n))
                  (map (fun v => fsub v xc) (arange n)) yk xk k) as H.
    unfold arange in H. now rewrite !length_map, !length_seq in H.
  - unfold psf_disk. now apply has_shape_map2.
Qed.

(** On a square frame whose arrays agree in shape, the first design
    matrix of [fit_binary] is rectangular. *)
Lemma binary_design1_rectangular (n : nat)
  (psf_list0 psf_list1 : list (psf_t F)) (frame noise : image_t F)
  (omask : option mask_t) (xc0 yc0 xc1 yc1 psfrad fitrad : F)
  (yk xk : list F) :
  shapes_agree coo_mat n n frame noise omask ->
  let shp := shape_of frame in
  let aperture :=
    binary_aperture coo_mat frame omask xc0 yc0 xc1 yc1 fitrad in
  let nvec := select aperture noise in
  let b := map2 fdiv (select aperture frame) nvec in
  Forall (fun col => length col = length b)
    (binary_design aperture nvec
       (binary_image1
          (binary_source coo_mat psf_list0 shp xc0 yc0 psfrad) yk xk)
       (binary_image1
          (binary_source coo_mat psf_list1 shp xc1 yc1 psfrad) yk xk)
       (length xk)).
Proof.
  intros Hs shp aperture nvec b.
  pose proof (has_shape_binary_aperture n n frame noise omask xc0 yc0 xc1
                yc1 fitrad Hs) as Ha.
  assert (Hf : has_shape (n, n) frame) by apply Hs.
  assert (Hno : has_shape (n, n) noise) by apply Hs.
  assert (Lb : length b = length nvec).
  { unfold b, nvec. now apply (length_rhs (n, n)). }
  unfold binary_design. rewrite !Forall_app. repeat split.
  - apply Forall_forall. intros col Hin. apply in_map_iff in Hin.
    destruct Hin as (k & <- & _). rewrite Lb. unfold nvec.
    apply (length_column (n, n)); auto.
    now apply (has_shape_binary_image1 n psf_list0 frame noise omask).
  - apply Forall_forall. intros col Hin. apply in_map_iff in Hin.
    destruct Hin as (k & <- & _). rewrite Lb. unfold nvec.
    apply (length_column (n, n)); auto.
    now apply (has_shape_binary_image1 n psf_list1 frame noise omask).
  - constructor; [|constructor]. unfold inverse_noise.
    now rewrite length_map.
Qed.

(** X19.  On a square frame whose noise image, mask and coordinate grids
    have the frame's shape: when the solver fails on the first solve and
    again on its retry, the fitter raises the error of the retry after
    exactly those two calls, both on the first design matrix, which is
    rectangular; nothing is printed. *)
Theorem fitters_raise_when_solver_keeps_failing :
  forall (psf_list0 psf_list1 : list (psf_t F)) (frame noise : image_t F)
    (mask : mask_t) (omask : option mask_t)
    (xc0 yc0 xc1 yc1 radius psfrad fitrad krn_scl : F) (krn_rad bg_fit : Z)
    (w0 : world F) (e1 e2 : exn) (n : nat),
    (0 <= krn_rad)%Z ->
    psf_list0 <> [] ->
    (forall eq_mat res_vec,
        lstsq (length (solves w0)) eq_mat res_vec = Raise e1) ->
    (forall eq_mat res_vec,
        lstsq (S (length (solves w0))) eq_mat res_vec = Raise e2) ->
    (shapes_agree coo_mat n n frame noise (Some mask) ->
     exists call,
       fit coo_mat psf_integral lstsq nnls psf_list0 frame noise mask
         xc0 yc0 radius krn_scl krn_rad bg_fit w0
       = (Raise e2, after_calls w0 [call; call])
       /\ Forall (fun col => length col = length (snd call)) (fst call))
    /\ (shapes_agree coo_mat n n frame noise omask ->
        psf_list1 <> [] ->
        exists call,
          fit_binary coo_mat psf_integral lstsq nnls psf_list0 psf_list1
            frame noise omask xc0 yc0 xc1 yc1 psfrad fitrad krn_scl krn_rad
            w0
          = (Raise e2, after_calls w0 [call; call])
          /\ Forall (fun col => length col = length (snd call))
               (fst call)).
Proof.
  intros psf_list0 psf_list1 frame noise mask omask xc0 yc0 xc1 yc1 radius
    psfrad fitrad krn_scl krn_rad bg_fit w0 e1 e2 n Hk Hne H1 H2.
  destruct (kernel_grid_ok krn_scl krn_rad Hk) as (xkern & xk & yk & Hg & _).
  destruct (getitem_first psf_list0 Hne) as [p0 Hp0].
  split.
  - intros Hs. eexists. split.
    + unfold fit, mbind, lift. rewrite Hg, Hp0.
      rewrite least_square_run, H1, H2. reflexivity.
    + cbn [fst snd].
      apply (fit_design_rectangular coo_mat n psf_list0 p0 frame noise mask
               xc0 yc0 radius bg_fit [] yk xk Hs).
  - intros Hs Hne1. destruct (getitem_first psf_list1 Hne1) as [p1 Hp1].
    eexists. split.
    + unfold fit_binary, mbind, lift. rewrite Hg, Hp0, Hp1.
      rewrite least_square_run, H1, H2. reflexivity.
    + cbn [fst snd].
      apply (binary_design1_rectangular n psf_list0 psf_list1 frame noise
               omask xc0 yc0 xc1 yc1 psfrad fitrad yk xk Hs).
Qed.

Lemma linspace_length (start stop : F) (num : Z) :
  (0 <= num)%Z ->
  exists l, linspace start stop num = Ok l /\ length l = Z.to_nat num.
Proof.
  intros Hn. unfold linspace.
  destruct (Z.ltb_spec num 0); [lia|].
  destruct (Z.eqb_spec num 0) as [->|]; [eexists; split; reflexivity|].
  destruct (Z.eqb_spec num 1) as [->|]; [eexists; split; reflexivity|].
  eexists; split; [reflexivity|].
  rewrite length_app, length_map, length_seq. cbn [length]. lia.
Qed.

(** The offsets of the blur grid: [side] values along each axis, [xk]
    running fastest. *)
Lemma kernel_grid_layout (krn_scl : F) (krn_rad : Z) xkern xk yk :
  kernel_grid krn_scl krn_rad = Ok (xkern, xk, yk) ->
  let side := Z.to_nat (2 * krn_rad + 1) in
  (0 <= krn_rad)%Z
  /\ length xkern = side
  /\ length xk = (side * side)%nat
  /\ length yk = (side * side)%nat
  /\ forall a b, (a < side)%nat -> (b < side)%nat ->
       nth_error xk (a * side + b) = nth_error xkern b
       /\ nth_error yk (a * side + b) = nth_error xkern a
       /\ exists v, nth_error xkern b = Some v.
Proof.
  intros Hg side. unfold kernel_grid in Hg.
  assert (Hk : (0 <= krn_rad)%Z).
  { destruct (Z_lt_le_dec krn_rad 0) as [Hneg|]; [|assumption].
    unfold linspace in Hg.
    destruct (Z.ltb_spec (2 * krn_rad + 1) 0); [discriminate | lia]. }
  destruct (linspace_length (fmul (fopp krn_scl) (of_Z krn_rad))
              (fmul krn_scl (of_Z krn_rad)) (2 * krn_rad + 1))
    as (l & El & Ll); [lia|].
  rewrite El in Hg. cbn [bind meshgrid] in Hg. injection Hg as <- <- <-.
  fold side in Ll.
  split; [exact Hk|]. split; [exact Ll|].
  split; [rewrite (length_concat_const l side l Ll); now rewrite Ll|].
  split.
  { rewrite (length_concat_rows _ side l); [now rewrite Ll|].
    intros y. now rewrite length_map. }
  intros a b Ha Hb.
  assert (Hva : exists va, nth_error l a = Some va).
  { destruct (nth_error l a) eqn:E; [eauto|].
    apply nth_error_None in E. lia. }
  assert (Hvb : exists vb, nth_error l b = Some vb).
  { destruct (nth_error l b) eqn:E; [eauto|].
    apply nth_error_None in E. lia. }
  destruct Hva as [va Hva]. destruct Hvb as [vb Hvb].
  split; [|split; [|eauto]].
  - rewrite (nth_error_concat_uniform _ side a b).
    + rewrite nth_error_map, Hva. reflexivity.
    + apply Forall_forall. intros row Hin. apply in_map_iff in Hin
        as (y & <- & _). exact Ll.
    + exact Hb.
  - rewrite (nth_error_concat_uniform _ side a b).
    + rewrite nth_error_map, Hva. cbn [option_map].
      rewrite nth_error_map, Hvb. reflexivity.
    + apply Forall_forall. intros row Hin. apply in_map_iff in Hin
        as (y & <- & _). now rewrite length_map.
    + exact Hb.
Qed.

Lemma reshape_layout (v : list F) (rows cols : nat) (m : image_t F) :
  reshape v rows cols = Ok m ->
  has_shape (rows, cols) m
  /\ forall a b, (a < rows)%nat -> (b < cols)%nat ->
       getpix m a b = nth_error v (a * cols + b).
Proof.
  unfold reshape. destruct (Nat.eqb_spec (length v) (rows * cols));
    [|discriminate].
  intros E; injection E as <-. split.
  - unfold has_shape. rewrite length_map, length_seq. cbn [fst snd].
    split; [reflexivity|]. apply Forall_forall. intros row Hin.
    apply in_map_iff in Hin as (r & <- & Hr). apply in_seq in Hr.
    rewrite length_firstn, length_skipn. nia.
  - intros a b Ha Hb. unfold getpix.
    rewrite nth_error_map, nth_error_seq.
    destruct (Nat.ltb_spec a rows); [|lia]. cbn [option_map Nat.add].
    rewrite nth_error_firstn, nth_error_skipn.
    destruct (Nat.ltb_spec b cols); [reflexivity | lia].
Qed.

(** X20.  In a fit that returns, the kernel matrix is square of side
    2 [krn_rad] + 1, and its entry in row [a] and column [b] is the
    coefficient that the first pass solved for the PSF shifted by
    x = [xkern[b]] and y = [xkern[a]]: coefficient [a * side + b] of
    [kvec], whose offsets are [xk[a * side + b]] and
    [yk[a * side + b]]. *)
Theorem fit_kernel_matrix_layout :
  forall (psf_list : list (psf_t F)) (frame noise : image_t F)
    (mask : mask_t) (xc yc radius krn_scl : F) (krn_rad bg_fit : Z)
    (w0 w1 : world F) (r : fit_result F),
    fit coo_mat psf_integral lstsq nnls psf_list frame noise mask xc yc
      radius krn_scl krn_rad bg_fit w0 = (Ok r, w1) ->
    let side := Z.to_nat (2 * krn_rad + 1) in
    exists xkern xk yk kvec eq_mat res_vec wa,
      kernel_grid krn_scl krn_rad = Ok (xkern, xk, yk)
      /\ length xkern = side
      /\ _least_square lstsq nnls eq_mat res_vec false w0 = (Ok kvec, wa)
      /\ has_shape (side, side) (fit_kmat r)
      /\ forall a b, (a < side)%nat -> (b < side)%nat ->
           getpix (fit_kmat r) a b = nth_error kvec (a * side + b)
           /\ (exists k, nth_error kvec (a * side + b) = Some k)
           /\ nth_error xk (a * side + b) = nth_error xkern b
           /\ nth_error yk (a * side + b) = nth_error xkern a.
Proof.
  intros psf_list frame noise mask xc yc radius krn_scl krn_rad bg_fit w0 w1
    r Hrun side.
  destruct (fit_run_ok coo_mat psf_integral lstsq nnls _ _ _ _ _ _ _ _ _ _
              _ _ _ Hrun)
    as (xkern & xk & yk & psf0 & kvec & w & wa & wb
        & Hg & Hp & H1 & Hlk & H2 & Hlw & Hn).
  destruct (kernel_grid_layout _ _ _ _ _ Hg) as (Hk & Lx & Lxk & Lyk & Hoff).
  fold side in Lx, Lxk, Lyk, Hoff.
  destruct (fit_normalize_inv _ _ _ _ _ _ _ _ _ _ Hn)
    as (bg & kmat & terms & Hbg & Hkm & Ht).
  pose proof (fit_normalize_run _ _ _ _
                (fit_composite psf_list (shape_of frame) kvec w
                   (map (fun v => fsub v yc) (arange (snd (shape_of frame))))
                   (map (fun v => fsub v xc) (arange (fst (shape_of frame))))
                   yk xk)
                _ _ wb _ _ _ Hbg Hkm Ht) as Hr.
  cbv zeta in Hr. rewrite Hn in Hr. injection Hr as Hr _.
  rewrite Lx in Hkm.
  destruct (reshape_layout _ _ _ _ Hkm) as [Hshape Hpix].
  do 7 eexists. split; [exact Hg|]. split; [exact Lx|].
  split; [exact H1|]. rewrite Hr. cbn [fit_kmat].
  split; [exact Hshape|].
  intros a b Ha Hb.
  destruct (Hoff a b Ha Hb) as (Hx & Hy & _).
  assert (Hi : (a * side + b < side * side)%nat) by nia.
  assert (Hs : nth_error (slice kvec 0 (Z.of_nat (length xk)))
                 (a * side + b) = nth_error kvec (a * side + b)).
  { rewrite nth_error_slice by lia.
    destruct (Nat.ltb_spec (a * side + b)
                (Z.to_nat (Z.of_nat (length xk) - 0))); [|lia].
    reflexivity. }
  split; [rewrite (Hpix a b Ha Hb); exact Hs|].
  split; [|split; assumption].
  destruct (nth_error kvec (a * side + b)) eqn:E; [eauto|].
  apply nth_error_None in E. lia.
Qed.

Lemma length_binary_design aperture nvec (img0 img1 : nat -> image_t F)
  count :
  length (binary_design aperture nvec img0 img1 count) = (2 * count + 1)%nat.
Proof.
  unfold binary_design.
  rewrite !length_app, !length_map, !length_seq. cbn [length]. lia.
Qed.

Lemma check_index_ok (len n : nat) (u : unit) :
  check_index len n = Ok u -> (n <= len)%nat.
Proof.
  unfold check_index. destruct (Nat.ltb_spec len n); [discriminate | auto].
Qed.

(** The last steps of a run of [fit_binary] that returns. *)
Lemma fit_binary_run_tail (psf_list0 psf_list1 : list (psf_t F))
  (frame noise : image_t F) (mask : option mask_t)
  (xc0 yc0 xc1 yc1 psfrad fitrad krn_scl : F) (krn_rad : Z)
  (w0 w1 : world F) (res : fit_binary_result F) :
  fit_binary coo_mat psf_integral lstsq nnls psf_list0 psf_list1 frame noise
    mask xc0 yc0 xc1 yc1 psfrad fitrad krn_scl krn_rad w0 = (Ok res, w1) ->
  let aperture := binary_aperture coo_mat frame mask xc0 yc0 xc1 yc1 fitrad in
  let rhs := map2 fdiv (select aperture frame) (select aperture noise) in
  let Npsf := length psf_list0 in
  exists xkern xk yk kvec w A2 A3 wa wb terms0 terms1,
    kernel_grid krn_scl krn_rad = Ok (xkern, xk, yk)
    /\ _least_square lstsq nnls A2 rhs false wa = (Ok w, wb)
    /\ length A2 = (2 * Npsf + 1)%nat
    /\ _least_square lstsq nnls A3 rhs false wb = (Ok kvec, w1)
    /\ length A3 = (2 * length xk + 1)%nat
    /\ (Npsf <= length psf_list1)%nat
    /\ (1 <= Npsf)%nat
    /\ (2 * length xk <= length kvec)%nat
    /\ (2 * Npsf <= length w)%nat
    /\ getitem kvec (-1) = Ok (bin_bg res)
    /\ reshape (slice kvec 0 (Z.of_nat (length xk))) (length xkern)
         (length xkern) = Ok (bin_kmat0 res)
    /\ reshape (slice kvec (Z.of_nat (length xk))
                  (2 * Z.of_nat (length xk))) (length xkern) (length xkern)
       = Ok (bin_kmat1 res)
    /\ broadcast_mul (psf_integral psf_list0) (slice w 0 (Z.of_nat Npsf))
       = Ok terms0
    /\ broadcast_mul (psf_integral psf_list1) (slice w (Z.of_nat Npsf) (-1))
       = Ok terms1
    /\ bin_coeff0 res
       = map (fun v => fdiv v (np_sum terms0)) (slice w 0 (Z.of_nat Npsf))
    /\ bin_coeff1 res
       = map (fun v => fdiv v (np_sum terms1))
           (slice w (Z.of_nat Npsf) (-1))
    /\ bin_scale0 res
       = fmul (np_sum (slice kvec 0 (Z.of_nat (length xk)))) (np_sum terms0)
    /\ bin_scale1 res
       = fmul (np_sum (slice kvec (Z.of_nat (length xk))
                         (2 * Z.of_nat (length xk)))) (np_sum terms1).
Proof.
  intros Hrun aperture rhs Npsf.
  unfold fit_binary, mbind, lift, ret in Hrun.
  fold aperture in Hrun. fold rhs in Hrun. fold Npsf in Hrun.
  destruct (kernel_grid krn_scl krn_rad) as [[[xkern xk] yk]|];
    [|discriminate].
  destruct (getitem psf_list0 0) eqn:G0; [|discriminate].
  destruct (getitem psf_list1 0); [|discriminate].
  destruct (_least_square lstsq nnls _ rhs false w0)
    as [[kvec1|] wa] eqn:E1; [|discriminate].
  destruct (getitem kvec1 (-1)); [|discriminate].
  destruct (check_index (length psf_list1) Npsf) eqn:C1; [|discriminate].
  destruct (check_index (length kvec1) (2 * length xk)); [|discriminate].
  destruct (_least_square lstsq nnls _ rhs false wa)
    as [[w|] wb] eqn:E2; [|discriminate].
  destruct (check_index (length w) (2 * Npsf)) eqn:C2; [|discriminate].
  destruct (_least_square lstsq nnls _ rhs false wb)
    as [[kvec|] wc] eqn:E3; [|discriminate].
  destruct (getitem kvec (-1)) as [bg|] eqn:Gb; [|discriminate].
  destruct (check_index (length kvec) (2 * length xk)) eqn:C3;
    [|discriminate].
  destruct (reshape (slice kvec 0 _) _ _) as [kmat0|] eqn:R0;
    [|discriminate].
  destruct (reshape (slice kvec (Z.of_nat (length xk)) _) _ _)
    as [kmat1|] eqn:R1; [|discriminate].
  destruct (broadcast_mul (psf_integral psf_list0) _) as [terms0|] eqn:T0;
    [|discriminate].
  destruct (broadcast_mul (psf_integral psf_list1) _) as [terms1|] eqn:T1;
    [|discriminate].
  injection Hrun as <- <-.
  apply check_index_ok in C1, C2, C3.
  assert (Hn : (1 <= Npsf)%nat).
  { unfold Npsf. destruct psf_list0; [discriminate G0 | cbn; lia]. }
  exists xkern, xk, yk, kvec, w. do 2 eexists.
  exists wa, wb, terms0, terms1.
  split; [reflexivity|]. split; [exact E2|].
  split; [apply length_binary_design|]. split; [exact E3|].
  split; [apply length_binary_design|].
  split; [exact C1|]. split; [exact Hn|]. split; [exact C3|].
  split; [exact C2|]. split; [exact Gb|]. split; [exact R0|].
  split; [exact R1|]. split; [exact T0|]. split; [exact T1|].
  repeat split.
Qed.

(** X21.  In a binary fit that returns, the background is the last
    coefficient of the third solve, and the two kernel matrices are
    square of side 2 [krn_rad] + 1: entry ([a], [b]) of the first is
    coefficient [a * side + b] of that solve and entry ([a], [b]) of the
    second is coefficient [side * side + a * side + b]. *)
Theorem fit_binary_result_layout :
  forall (psf_list0 psf_list1 : list (psf_t F)) (frame noise : image_t F)
    (mask : option mask_t) (xc0 yc0 xc1 yc1 psfrad fitrad krn_scl : F)
    (krn_rad : Z) (w0 w1 : world F) (res : fit_binary_result F),
    fit_binary coo_mat psf_integral lstsq nnls psf_list0 psf_list1 frame
      noise mask xc0 yc0 xc1 yc1 psfrad fitrad krn_scl krn_rad w0
    = (Ok res, w1) ->
    let side := Z.to_nat (2 * krn_rad + 1) in
    exists kvec eq_mat res_vec wb,
      _least_square lstsq nnls eq_mat res_vec false wb = (Ok kvec, w1)
      /\ getitem kvec (-1) = Ok (bin_bg res)
      /\ has_shape (side, side) (bin_kmat0 res)
      /\ has_shape (side, side) (bin_kmat1 res)
      /\ forall a b, (a < side)%nat -> (b < side)%nat ->
           getpix (bin_kmat0 res) a b = nth_error kvec (a * side + b)
           /\ getpix (bin_kmat1 res) a b
              = nth_error kvec (side * side + (a * side + b))
           /\ (exists k, nth_error kvec (side * side + (a * side + b))
                         = Some k).
Proof.
  intros psf_list0 psf_list1 frame noise mask xc0 yc0 xc1 yc1 psfrad fitrad
    krn_scl krn_rad w0 w1 res Hrun side.
  destruct (fit_binary_run_tail _ _ _ _ _ _ _ _ _ _ _ _ _ _ _ _ Hrun)
    as (xkern & xk & yk & kvec & w & A2 & A3 & wa & wb & terms0 & terms1
        & Hg & _ & _ & E3 & _ & _ & _ & Lk & _ & Hbg & R0 & R1 & _).
  destruct (kernel_grid_layout _ _ _ _ _ Hg) as (Hk & Lx & Lxk & _).
  fold side in Lx, Lxk. rewrite Lx in R0, R1.
  destruct (reshape_layout _ _ _ _ R0) as [S0 P0].
  destruct (reshape_layout _ _ _ _ R1) as [S1 P1].
  exists kvec, A3. eexists. exists wb.
  split; [exact E3|]. split; [exact Hbg|].
  split; [exact S0|]. split; [exact S1|].
  intros a b Ha Hb.
  assert (Hi : (a * side + b < side * side)%nat) by nia.
  rewrite (P0 a b Ha Hb), (P1 a b Ha Hb).
  rewrite !nth_error_slice by lia.
  destruct (Nat.ltb_spec (a * side + b)
              (Z.to_nat (Z.of_nat (length xk) - 0))); [|lia].
  destruct (Nat.ltb_spec (a * side + b)
              (Z.to_nat (2 * Z.of_nat (length xk) - Z.of_nat (length xk))));
    [|lia].
  replace (Z.to_nat 0 + (a * side + b))%nat with (a * side + b)%nat by lia.
  replace (Z.to_nat (Z.of_nat (length xk)) + (a * side + b))%nat
    with (side * side + (a * side + b))%nat by lia.
  repeat split.
  destruct (nth_error kvec (side * side + (a * side + b))) eqn:E; [eauto|].
  apply nth_error_None in E. lia.
Qed.

Lemma broadcast_mul_lengths (a b terms : list F) :
  broadcast_mul a b = Ok terms ->
  length a = length b \/ length a = 1%nat \/ length b = 1%nat.
Proof.
  unfold broadcast_mul.
  destruct (Nat.eqb_spec (length a) (length b)); [auto|].
  destruct a as [|x [|x' a]]; destruct b as [|y [|y' b]];
    cbn [length]; auto; discriminate.
Qed.

Lemma length_slice_to_last {A} (l : list A) (lo : nat) :
  (lo <= length l)%nat ->
  length (slice l (Z.of_nat lo) (-1)) = (length l - 1 - lo)%nat.
Proof.
  intros Hlo. unfold slice, clamp_index.
  destruct (Z.ltb_spec (Z.of_nat lo) 0); [lia|].
  destruct (Z.ltb_spec (-1) 0); [|lia].
  rewrite length_firstn, length_skipn. lia.
Qed.

(** X22.  With a solver that answers one coefficient per column and one
    PSF integral per library entry, a binary fit whose first library has
    at least two entries returns only if the second library has the same
    number of entries: a shorter one raises in the second pass, a longer
    one when the second normaliser is formed. *)
Theorem fit_binary_needs_equal_libraries :
  forall (psf_list0 psf_list1 : list (psf_t F)) (frame noise : image_t F)
    (mask : option mask_t) (xc0 yc0 xc1 yc1 psfrad fitrad krn_scl : F)
    (krn_rad : Z) (w0 w1 : world F) (res : fit_binary_result F),
    (forall k eq_mat res_vec x,
        lstsq k eq_mat res_vec = Ok x -> length x = length eq_mat) ->
    (forall l, length (psf_integral l) = length l) ->
    (2 <= length psf_list0)%nat ->
    fit_binary coo_mat psf_integral lstsq nnls psf_list0 psf_list1 frame
      noise mask xc0 yc0 xc1 yc1 psfrad fitrad krn_scl krn_rad w0
    = (Ok res, w1) ->
    length psf_list1 = length psf_list0
    /\ length (bin_coeff0 res) = length psf_list0
    /\ length (bin_coeff1 res) = length psf_list0.
Proof.
  intros psf_list0 psf_list1 frame noise mask xc0 yc0 xc1 yc1 psfrad fitrad
    krn_scl krn_rad w0 w1 res Hsolver Hint Hn Hrun.
  destruct (fit_binary_run_tail _ _ _ _ _ _ _ _ _ _ _ _ _ _ _ _ Hrun)
    as (xkern & xk & yk & kvec & w & A2 & A3 & wa & wb & terms0 & terms1
        & _ & E2 & LA2 & _ & _ & L1 & _ & _ & Lw & _ & _ & _ & T0 & T1
        & C0 & C1 & _).
  destruct (least_square_ok lstsq nnls _ _ _ _ _ E2) as (_ & _ & _ & _ & Ew).
  apply Hsolver in Ew. rewrite LA2 in Ew.
  assert (Ls1 : length (slice w (Z.of_nat (length psf_list0)) (-1))
                = length psf_list0)
    by (rewrite length_slice_to_last; lia).
  assert (Ls0 : length (slice w 0 (Z.of_nat (length psf_list0)))
                = length psf_list0)
    by (rewrite length_slice; lia).
  apply broadcast_mul_lengths in T1. rewrite Hint, Ls1 in T1.
  rewrite C0, C1, !length_map. split; [lia|]. split; assumption.
Qed.

End PsfMore.

(** ** Further properties of pipe/psf.py over the reals *)

Section PsfRealMore.

Import Psf.
Local Open Scope R_scope.

Variable coo_mat : nat * nat -> R -> R -> image_t R * image_t R.
Variable psf_integral : list (psf_t R) -> list R.
Variable lstsq : nat -> matrix R -> list R -> result (list R).
Variable nnls : matrix R -> list R -> result (list R).

Lemma fold_left_Rplus_div (l : list R) (a s : R) :
  fold_left Rplus (map (fun v => v / s) l) (a / s)
  = fold_left Rplus l a / s.
Proof.
  revert a; induction l as [|x l IH]; intros a; cbn [map fold_left];
    [reflexivity|].
  rewrite <- IH. f_equal. unfold Rdiv. ring.
Qed.

Lemma np_sum_div (l : list R) (s : R) :
  np_sum (map (fun v => v / s) l) = np_sum l / s.
Proof.
  unfold np_sum. cbn [fadd of_Z Arith_R].
  rewrite <- fold_left_Rplus_div. f_equal. unfold Rdiv. ring.
Qed.

Lemma broadcast_mul_div (a b terms : list R) (s : R) :
  broadcast_mul a b = Ok terms ->
  broadcast_mul a (map (fun v => v / s) b)
  = Ok (map (fun v => v / s) terms).
Proof.
  unfold broadcast_mul. rewrite length_map.
  destruct (Nat.eqb_spec (length a) (length b)) as [E|E].
  - intros H; injection H as <-. f_equal. clear E.
    revert b; induction a as [|x a IH]; intros [|y b]; cbn [map map2];
      try reflexivity.
    rewrite IH. f_equal. cbn [fmul Arith_R]. unfold Rdiv. ring.
  - destruct a as [|x [|x' a]].
    + destruct b as [|y [|y' b]]; cbn [map]; try discriminate.
      intros H; injection H as <-. reflexivity.
    + intros H; injection H as <-. f_equal. rewrite !map_map.
      apply map_ext. intros v. cbn [fmul Arith_R]. unfold Rdiv. ring.
    + destruct b as [|y [|y' b]]; cbn [map]; try discriminate.
      intros H; injection H as <-. cbn [fmul Arith_R map]. f_equal.
      f_equal; [unfold Rdiv; ring|].
      f_equal; [unfold Rdiv; ring|].
      rewrite map_map. apply map_ext. intros v. unfold Rdiv. ring.
Qed.

(** Dividing the weights by a normaliser that is not 0 gives coefficients
    whose sum, weighted by the PSF integrals, is 1. *)
Lemma normalized_sum_is_one (a b terms : list R) :
  broadcast_mul a b = Ok terms ->
  np_sum terms <> 0 ->
  exists terms',
    broadcast_mul a (map (fun v => v / np_sum terms) b) = Ok terms'
    /\ np_sum terms' = 1.
Proof.
  intros Hb Hs. eexists. split; [apply broadcast_mul_div; exact Hb|].
  rewrite np_sum_div. now field.
Qed.

Local Open Scope string_scope.

(** X23.  Over the reals, a single-source fit that returns either printed
    nothing, and then the coefficients it returns, weighted by the PSF
    integrals, sum to 1; or it printed the zero-normaliser warning. *)
Theorem fit_coefficients_are_normalized :
  forall (psf_list : list (psf_t R)) (frame noise : image_t R)
    (mask : mask_t) (xc yc radius krn_scl : R) (krn_rad bg_fit : Z)
    (w0 w1 : world R) (r : fit_result R),
    fit coo_mat psf_integral lstsq nnls psf_list frame noise mask xc yc
      radius krn_scl krn_rad bg_fit w0 = (Ok r, w1) ->
    (stdout w1 = stdout w0
     /\ exists terms,
          broadcast_mul (psf_integral psf_list) (fit_coeff r) = Ok terms
          /\ np_sum terms = 1)
    \/ stdout w1 = stdout w0 ++ ["Warning: wsum == 0 encountered"].
Proof.
  intros psf_list frame noise mask xc yc radius krn_scl krn_rad bg_fit w0 w1
    r Hrun.
  destruct (fit_run_ok coo_mat psf_integral lstsq nnls _ _ _ _ _ _ _ _ _ _
              _ _ _ Hrun)
    as (xkern & xk & yk & psf0 & kvec & w & wa & wb
        & Hg & Hp & H1 & Hlk & H2 & Hlw & Hn).
  destruct (least_square_ok lstsq nnls _ _ _ _ _ H1) as (_ & _ & _ & O1 & _).
  destruct (least_square_ok lstsq nnls _ _ _ _ _ H2) as (_ & _ & _ & O2 & _).
  destruct (fit_normalize_inv _ _ _ _ _ _ _ _ _ _ Hn)
    as (bg & kmat & terms & Hbg & Hkm & Ht).
  pose proof (fit_normalize_run _ _ _ _
                (fit_composite psf_list (shape_of frame) kvec w
                   (map (fun v => fsub v yc) (arange (snd (shape_of frame))))
                   (map (fun v => fsub v xc) (arange (fst (shape_of frame))))
                   yk xk)
                _ _ wb _ _ _ Hbg Hkm Ht) as Hr.
  cbv zeta in Hr. rewrite Hn in Hr. injection Hr as Hr Hw1.
  unfold wsum_diagnostic in Hw1. cbn [fisnan feqb of_Z Arith_R] in Hr, Hw1.
  destruct (Req_dec_T (np_sum terms) 0) as [Hz|Hz].
  - right. rewrite Hw1. cbn [stdout]. congruence.
  - left. split.
    + rewrite Hw1. cbn [stdout]. rewrite app_nil_r. congruence.
    + rewrite Hr. cbn [fit_coeff fdiv Arith_R].
      now apply normalized_sum_is_one.
Qed.

(** X24.  Over the reals, in a binary fit that returns, the coefficients
    of a source, weighted by its PSF integrals, sum to 1 whenever that
    source's flux normaliser (the sum of PSF integral times weight of the
    second solve) is not 0. *)
Theorem fit_binary_coefficients_are_normalized :
  forall (psf_list0 psf_list1 : list (psf_t R)) (frame noise : image_t R)
    (mask : option mask_t) (xc0 yc0 xc1 yc1 psfrad fitrad krn_scl : R)
    (krn_rad : Z) (w0 w1 : world R) (res : fit_binary_result R),
    fit_binary coo_mat psf_integral lstsq nnls psf_list0 psf_list1 frame
      noise mask xc0 yc0 xc1 yc1 psfrad fitrad krn_scl krn_rad w0
    = (Ok res, w1) ->
    exists w eq_mat res_vec wa wb terms0 terms1,
      _least_square lstsq nnls eq_mat res_vec false wa = (Ok w, wb)
      /\ broadcast_mul (psf_integral psf_list0)
           (slice w 0 (Z.of_nat (length psf_list0))) = Ok terms0
      /\ broadcast_mul (psf_integral psf_list1)
           (slice w (Z.of_nat (length psf_list0)) (-1)) = Ok terms1
      /\ (np_sum terms0 <> 0 ->
          exists t, broadcast_mul (psf_integral psf_list0) (bin_coeff0 res)
                    = Ok t /\ np_sum t = 1)
      /\ (np_sum terms1 <> 0 ->
          exists t, broadcast_mul (psf_integral psf_list1) (bin_coeff1 res)
                    = Ok t /\ np_sum t = 1).
Proof.
  intros psf_list0 psf_list1 frame noise mask xc0 yc0 xc1 yc1 psfrad fitrad
    krn_scl krn_rad w0 w1 res Hrun.
  destruct (fit_binary_run_tail coo_mat psf_integral lstsq nnls
              _ _ _ _ _ _ _ _ _ _ _ _ _ _ _ _ Hrun)
    as (xkern & xk & yk & kvec & w & A2 & A3 & wa & wb & terms0 & terms1
        & _ & E2 & _ & _ & _ & _ & _ & _ & _ & _ & _ & _ & T0 & T1
        & C0 & C1 & _).
  exists w, A2. eexists. exists wa, wb, terms0, terms1.
  split; [exact E2|]. split; [exact T0|]. split; [exact T1|].
  rewrite C0, C1. cbn [fdiv Arith_R].
  split; intros Hz; now apply normalized_sum_is_one.
Qed.

(** X25.  For a radius that is not negative, a pixel is in the aperture
    of [fit] exactly when its distance from the centre is at most
    [radius] and the mask holds there. *)
Theorem fit_aperture_is_masked_disk :
  forall (frame : image_t R) (mask : mask_t) (xc yc radius : R)
    (r c : nat) (b : bool),
    0 <= radius ->
    getpix (fit_aperture coo_mat frame mask xc yc radius) r c = Some b ->
    exists x y m,
      getpix (fst (coo_mat (shape_of frame) xc yc)) r c = Some x
      /\ getpix (snd (coo_mat (shape_of frame) xc yc)) r c = Some y
      /\ getpix mask r c = Some m
      /\ (b = true <-> sqrt (x * x + y * y) <= radius /\ m = true).
Proof.
  clear psf_integral lstsq nnls.
  intros frame mask xc yc radius r c b Hrad. unfold fit_aperture.
  destruct (coo_mat (shape_of frame) xc yc) as [xmat ymat]. cbn [fst snd].
  rewrite !getpix_map2.
  destruct (getpix xmat r c) as [x|]; [|discriminate].
  destruct (getpix ymat r c) as [y|]; [|discriminate].
  destruct (getpix mask r c) as [m|]; [|discriminate].
  intros E; injection E as <-. exists x, y, m.
  repeat (split; [reflexivity|]).
  cbn [fleb fmul fadd Arith_R].
  assert (Hd : 0 <= x * x + y * y) by nra.
  rewrite (sqrt_le_radius (x * x + y * y) radius Hd Hrad).
  destruct (Rle_dec (x * x + y * y) (radius * radius)); cbn [andb].
  - split; [intros ->; auto | tauto].
  - split; [discriminate | tauto].
Qed.

End PsfRealMore.

(** ** The properties at concrete inputs *)

Section Witnesses.

Import Psf Examples.
Local Open Scope string_scope.

(** The one-pixel frame, its noise, a one-pixel mask or none, and the
    grids of [grid_coo_mat] agree in shape. *)
Lemma dark_frame_shapes_agree {F : Type} {AF : Arith F}
  (omask : option mask_t) :
  match omask with
  | Some mk => has_shape (1, 1)%nat mk
  | None => True
  end ->
  shapes_agree (F := F) grid_coo_mat 1 1 dark_frame unit_noise omask.
Proof.
  intros Hm. unfold shapes_agree. split; [lia|].
  split; [split; repeat constructor|].
  split; [split; repeat constructor|].
  split; [exact Hm|].
  intros xc yc. split; split; repeat constructor.
Qed.

Lemma one_pixel_mask : has_shape (1, 1)%nat [[true]].
Proof. split; repeat constructor. Qed.

(** A solver that fails once is retried; one that keeps failing is
    called twice and its second error is the result. *)
Lemma least_square_retries_once_witness :
  _least_square (F := binary64) flaky_lstsq zero_nnls [[of_Z 1]] [of_Z 0]
    false fresh_world
  = (Ok [of_Z 0],
     {| solves := [([[of_Z 1]], [of_Z 0]); ([[of_Z 1]], [of_Z 0])];
        stdout := [] |})
  /\ _least_square (F := binary64) zero_lstsq zero_nnls [[of_Z 1]] [of_Z 0]
       false fresh_world
     = (Ok [of_Z 0],
        {| solves := [([[of_Z 1]], [of_Z 0])]; stdout := [] |})
  /\ _least_square (F := binary64) failing_lstsq zero_nnls [[of_Z 1]]
       [of_Z 0] false fresh_world
     = (Raise LinAlgError,
        {| solves := [([[of_Z 1]], [of_Z 0]); ([[of_Z 1]], [of_Z 0])];
           stdout := [] |}).
Proof.
  split; [|split].
  - apply (proj1 (proj2 (least_square_retries_once (F := binary64)
             flaky_lstsq zero_nnls [[of_Z 1]] [of_Z 0] fresh_world))
             LinAlgError).
    reflexivity.
  - apply (proj1 (least_square_retries_once (F := binary64)
             zero_lstsq zero_nnls [[of_Z 1]] [of_Z 0] fresh_world)
             [of_Z 0]).
    reflexivity.
  - apply (proj1 (proj2 (least_square_retries_once (F := binary64)
             failing_lstsq zero_nnls [[of_Z 1]] [of_Z 0] fresh_world))
             LinAlgError).
    reflexivity.
Defined.

(** A fit with a background term on a dark one-pixel frame. *)
Lemma fit_background_term_witness :
  exists r w1 w,
    fit (F := binary64) grid_coo_mat unit_integral zero_lstsq zero_nnls
      [flat_psf] dark_frame unit_noise [[true]] (of_Z 0) (of_Z 0) (of_Z 50)
      (fdiv (of_Z 3) (of_Z 10)) 1 0 fresh_world = (Ok r, w1)
    /\ getitem w (-1) = Ok (fit_bg r).
Proof.
  eassert (H : fit (F := binary64) grid_coo_mat unit_integral zero_lstsq
                 zero_nnls [flat_psf] dark_frame unit_noise [[true]]
                 (of_Z 0) (of_Z 0) (of_Z 50) (fdiv (of_Z 3) (of_Z 10)) 1 0
                 fresh_world = (Ok _, _))
    by (vm_compute; reflexivity).
  destruct (fit_background_term _ _ _ _ _ _ _ _ _ _ _ _ _ _ _ _ _ H)
    as (xkern & xk & yk & psf0 & kvec & w & bgcol & calls1 & calls2
        & _ & _ & _ & _ & _ & _ & _ & _ & _ & Hbg & _).
  eexists _, _, w. split; [exact H|]. apply Hbg. reflexivity.
Defined.

(** The same fit, where the flux normaliser comes out as 0. *)
Lemma fit_degenerate_normalizer_witness :
  exists r w1,
    fit (F := binary64) grid_coo_mat unit_integral zero_lstsq zero_nnls
      [flat_psf] dark_frame unit_noise [[true]] (of_Z 0) (of_Z 0) (of_Z 50)
      (fdiv (of_Z 3) (of_Z 10)) 1 0 fresh_world = (Ok r, w1)
    /\ fit_coeff r = [S754_zero false]
    /\ stdout w1 = ["Warning: wsum == 0 encountered"].
Proof.
  destruct (fit_degenerate_normalizer (F := binary64) grid_coo_mat
              unit_integral zero_lstsq zero_nnls [flat_psf] dark_frame
              unit_noise [[true]] (of_Z 0) (of_Z 0) (of_Z 50)
              (fdiv (of_Z 3) (of_Z 10)) 1 0 fresh_world 1%nat)
    as (r & w1 & kvec & w & Hrun & _).
  - apply dark_frame_shapes_agree, one_pixel_mask.
  - intros k eq_mat res_vec. eexists. split; [reflexivity|].
    apply length_map.
  - discriminate.
  - lia.
  - reflexivity.
  - exists r, w1. split; [exact Hrun|].
    eassert (E : fit (F := binary64) grid_coo_mat unit_integral zero_lstsq
                   zero_nnls [flat_psf] dark_frame unit_noise [[true]]
                   (of_Z 0) (of_Z 0) (of_Z 50) (fdiv (of_Z 3) (of_Z 10)) 1 0
                   fresh_world = (Ok _, _))
      by (vm_compute; reflexivity).
    rewrite E in Hrun. injection Hrun as <- <-. split; reflexivity.
Defined.

Local Open Scope R_scope.


(** Sigma clipping of two samples around a flat surface. *)
Lemma make_psf_sigma_clipping_witness :
  (exists sel,
      PsfWorker.filter_pix (fun _ _ => 1) two_samples 3 = Ok sel
      /\ length sel = 2%nat)
  /\ exists st' psf_spline,
       PsfWorker.make_psf_pass flat_spline_fit two_samples 1 [] 3
         (None, [true; true]) = Ok st'
       /\ fst st' = Some psf_spline
       /\ PsfWorker.filter_pix psf_spline two_samples 3 = Ok (snd st').
Proof.
  destruct (make_psf_sigma_clipping flat_spline_fit two_samples 2 3)
    as (Hfilter & Hpass & _).
  split.
  - destruct (Hfilter (fun _ _ => 1) ltac:(discriminate))
      as (m & sel & _ & _ & _ & Hsel & Hlen & _).
    exists sel. split; assumption.
  - eassert (E : PsfWorker.make_psf_pass flat_spline_fit two_samples 1 [] 3
                   (None, [true; true]) = Ok _) by reflexivity.
    destruct (Hpass _ _ _ _ E) as (psf_spline & _ & Hfst & Hsnd).
    eexists _, psf_spline. split; [exact E|]. split; assumption.
Defined.

(** The three brightness tiers, a star below the flux limit, and the
    target of [sky] drawn on an empty 3 x 3 image. *)
Lemma psf_radius_tiers_witness :
  Syntstar.psf_radius (1 / 2) 70 = 70%Z
  /\ Syntstar.psf_radius (1 / 100) 70 = 50%Z
  /\ Syntstar.psf_radius (1 / 10000) 70 = 30%Z
  /\ Syntstar.draw_star sky [] [] 0 0 (fun _ _ => 1) (3, 3)%nat 1 70
       (Syntstar.zeros (3, 3)%nat) 1 = Ok (Syntstar.zeros (3, 3)%nat)
  /\ exists img' v,
       Syntstar.draw_star sky (fst (Syntstar.rotate_cat sky 0))
         (snd (Syntstar.rotate_cat sky 0)) 0 0 (fun _ _ => 1) (3, 3)%nat
         0 70 (Syntstar.zeros (3, 3)%nat) 0 = Ok img'
       /\ getpix img' 1 1 = Some v.
Proof.
  split; [|split; [|split; [|split]]].
  - apply (proj1 (psf_radius_tiers (1 / 2) 70)). lra.
  - apply (proj1 (proj2 (psf_radius_tiers (1 / 100) 70))). lra.
  - apply (proj1 (proj2 (proj2 (psf_radius_tiers (1 / 10000) 70)))). lra.
  - apply (proj1 (proj2 (proj2 (proj2 (proj2 (proj2
             (psf_radius_tiers (1 / 2) 70))))))).
    + reflexivity.
    + lra.
  - destruct (proj2 (proj2 (proj2 (proj2 (proj2 (proj2
                (psf_radius_tiers 1 70))))))
                sky 0 0 0 (fun _ _ => 1) (3, 3)%nat 0
                (Syntstar.zeros (3, 3)%nat) 0%Z
                {| Syntstar.xpos := 0; Syntstar.ypos := 0;
                   Syntstar.fscale := 1; Syntstar.Teff := 5800 |}
                1%nat 1%nat 0 70%Z eq_refl eq_refl ltac:(lra) eq_refl
                ltac:(intros _; reflexivity) ltac:(intros H; exfalso; lra)
                ltac:(intros H; exfalso; lra))
      as (img' & Hd & Hp).
    eexists img', _. split; [exact Hd | exact Hp].
Defined.

Lemma sky_position_1 :
  fst (Syntstar.rotate_position 1000 0 0) = 1000.
Proof.
  unfold Syntstar.rotate_position, Syntstar.deg2rad. cbn [fst].
  rewrite Rmult_0_l, cos_0, sin_0. lra.
Qed.

Lemma sky_radius_1 : Syntstar.psf_radius (1 / 2) 70 = 70%Z.
Proof.
  unfold Syntstar.psf_radius.
  destruct (Rgt_dec (1 / 2) (1 / 10)); [reflexivity | lra].
Qed.

(** The bright star of [sky] lies a thousand pixels off a 3 x 3 image and
    leaves it as it was. *)
Lemma image_star_stamp_witness :
  Syntstar.draw_star sky (fst (Syntstar.rotate_cat sky 0))
    (snd (Syntstar.rotate_cat sky 0)) 0 0 (fun _ _ => 1) (3, 3)%nat 0 70
    (Syntstar.zeros (3, 3)%nat) 1 = Ok (Syntstar.zeros (3, 3)%nat).
Proof.
  destruct (image_star_stamp sky 0 0 0 (fun _ _ => 1) (3, 3)%nat 0 70
              (Syntstar.zeros (3, 3)%nat) 1
              {| Syntstar.xpos := 1000; Syntstar.ypos := 0;
                 Syntstar.fscale := 1 / 2; Syntstar.Teff := 4500 |}
              eq_refl) as (img' & Hdraw & Hout & _).
  rewrite Hdraw. f_equal. apply Hout.
  intros row col [_ [Hcol Hw]].
  cbn [Syntstar.xpos Syntstar.ypos Syntstar.fscale fst snd] in Hcol, Hw.
  rewrite sky_position_1 in Hcol.
  replace (0 + 1000) with (IZR 1000) in Hcol by lra.
  rewrite int_IZR in Hcol.
  rewrite sky_radius_1 in Hcol. lia.
Defined.

End Witnesses.

(** ** The further properties at concrete inputs *)

Section MoreWitnesses.

Import Psf Examples.
Local Open Scope string_scope.

(** A kernel radius of -1 on the dark one-pixel frame. *)
Lemma fitters_reject_negative_kernel_radius_witness :
  fit (F := binary64) grid_coo_mat unit_integral zero_lstsq zero_nnls
    [flat_psf] dark_frame unit_noise [[true]] (of_Z 0) (of_Z 0) (of_Z 50)
    (fdiv (of_Z 3) (of_Z 10)) (-1) 0 fresh_world
  = (Raise ValueError, fresh_world)
  /\ fit_binary (F := binary64) grid_coo_mat unit_integral zero_lstsq
       zero_nnls [flat_psf] [flat_psf] dark_frame unit_noise None
       (of_Z 0) (of_Z 0) (of_Z 0) (of_Z 0) (of_Z 70) (of_Z 30)
       (fdiv (of_Z 3) (of_Z 10)) (-1) fresh_world
     = (Raise ValueError, fresh_world).
Proof.
  destruct (fitters_reject_negative_kernel_radius (F := binary64)
              grid_coo_mat unit_integral zero_lstsq zero_nnls [flat_psf]
              [flat_psf] dark_frame unit_noise [[true]] None (of_Z 0)
              (of_Z 0) (of_Z 0) (of_Z 0) (of_Z 50) (of_Z 70) (of_Z 30)
              (fdiv (of_Z 3) (of_Z 10)) (-1) 0 fresh_world 1%nat 1%nat
              ltac:(lia)) as [Hfit Hbin].
  split.
  - apply Hfit, dark_frame_shapes_agree, one_pixel_mask.
  - apply Hbin, dark_frame_shapes_agree. exact I.
Defined.

(** An empty first library, and an empty second library, on the dark
    one-pixel frame. *)
Lemma fit_binary_rejects_empty_library_witness :
  fit_binary (F := binary64) grid_coo_mat unit_integral zero_lstsq
    zero_nnls [] [flat_psf] dark_frame unit_noise None
    (of_Z 0) (of_Z 0) (of_Z 0) (of_Z 0) (of_Z 70) (of_Z 30)
    (fdiv (of_Z 3) (of_Z 10)) 0 fresh_world
  = (Raise IndexError, fresh_world)
  /\ fit_binary (F := binary64) grid_coo_mat unit_integral zero_lstsq
       zero_nnls [flat_psf] [] dark_frame unit_noise (Some [[true]])
       (of_Z 0) (of_Z 0) (of_Z 0) (of_Z 0) (of_Z 70) (of_Z 30)
       (fdiv (of_Z 3) (of_Z 10)) 0 fresh_world
     = (Raise IndexError, fresh_world).
Proof.
  split.
  - apply (fit_binary_rejects_empty_library (F := binary64) grid_coo_mat
             unit_integral zero_lstsq zero_nnls [] [flat_psf] dark_frame
             unit_noise None (of_Z 0) (of_Z 0) (of_Z 0) (of_Z 0) (of_Z 70)
             (of_Z 30) (fdiv (of_Z 3) (of_Z 10)) 0 fresh_world 1%nat).
    + apply dark_frame_shapes_agree. exact I.
    + lia.
    + left. reflexivity.
  - apply (fit_binary_rejects_empty_library (F := binary64) grid_coo_mat
             unit_integral zero_lstsq zero_nnls [flat_psf] [] dark_frame
             unit_noise (Some [[true]]) (of_Z 0) (of_Z 0) (of_Z 0) (of_Z 0)
             (of_Z 70) (of_Z 30) (fdiv (of_Z 3) (of_Z 10)) 0 fresh_world
             1%nat).
    + apply dark_frame_shapes_agree, one_pixel_mask.
    + lia.
    + right. reflexivity.
Defined.

(** A fit on the dark one-pixel frame makes two solver calls and prints
    one line. *)
Lemma fit_solver_calls_and_output_witness :
  exists r w1 calls out,
    fit (F := binary64) grid_coo_mat unit_integral zero_lstsq zero_nnls
      [flat_psf] dark_frame unit_noise [[true]] (of_Z 0) (of_Z 0) (of_Z 50)
      (fdiv (of_Z 3) (of_Z 10)) 0 0 fresh_world = (Ok r, w1)
    /\ solves w1 = calls
    /\ (2 <= length calls <= 4)%nat
    /\ stdout w1 = out
    /\ (length out <= 1)%nat.
Proof.
  eassert (H : fit (F := binary64) grid_coo_mat unit_integral zero_lstsq
                 zero_nnls [flat_psf] dark_frame unit_noise [[true]]
                 (of_Z 0) (of_Z 0) (of_Z 50) (fdiv (of_Z 3) (of_Z 10)) 0 0
                 fresh_world = (Ok _, _))
    by (vm_compute; reflexivity).
  destruct (fit_solver_calls_and_output _ _ _ _ _ _ _ _ _ _ _ _ _ _ _ _ _ H)
    as (calls & out & Hs & Hle & _ & Ho & Hlo & Hok & _).
  eexists _, _, calls, out. split; [exact H|].
  split; [exact Hs|]. split; [|split; [exact Ho | exact Hlo]].
  split; [exact (Hok _ eq_refl) | exact Hle].
Defined.

(** A binary fit on the dark one-pixel frame makes three solver calls. *)
Lemma fit_binary_solver_calls_and_output_witness :
  exists res w1 calls,
    fit_binary (F := binary64) grid_coo_mat unit_integral zero_lstsq
      zero_nnls [flat_psf] [flat_psf] dark_frame unit_noise None
      (of_Z 0) (of_Z 0) (of_Z 0) (of_Z 0) (of_Z 70) (of_Z 30)
      (fdiv (of_Z 3) (of_Z 10)) 0 fresh_world = (Ok res, w1)
    /\ solves w1 = calls
    /\ (3 <= length calls <= 6)%nat
    /\ stdout w1 = [].
Proof.
  eassert (H : fit_binary (F := binary64) grid_coo_mat unit_integral
                 zero_lstsq zero_nnls [flat_psf] [flat_psf] dark_frame
                 unit_noise None (of_Z 0) (of_Z 0) (of_Z 0) (of_Z 0)
                 (of_Z 70) (of_Z 30) (fdiv (of_Z 3) (of_Z 10)) 0
                 fresh_world = (Ok _, _))
    by (vm_compute; reflexivity).
  destruct (fit_binary_solver_calls_and_output _ _ _ _ _ _ _ _ _ _ _ _ _ _
              _ _ _ _ _ _ H)
    as (calls & Hs & Hle & _ & Ho & Hok).
  eexists _, _, calls. split; [exact H|].
  split; [exact Hs|]. split; [|exact Ho].
  split; [exact (Hok _ eq_refl) | exact Hle].
Defined.

(** A solver that always fails, on the dark one-pixel frame. *)
Lemma fitters_raise_when_solver_keeps_failing_witness :
  (exists call,
      fit (F := binary64) grid_coo_mat unit_integral failing_lstsq zero_nnls
        [flat_psf] dark_frame unit_noise [[true]] (of_Z 0) (of_Z 0)
        (of_Z 50) (fdiv (of_Z 3) (of_Z 10)) 0 0 fresh_world
      = (Raise LinAlgError, after_calls fresh_world [call; call])
      /\ Forall (fun col => length col = length (snd call)) (fst call))
  /\ (exists call,
         fit_binary (F := binary64) grid_coo_mat unit_integral failing_lstsq
           zero_nnls [flat_psf] [flat_psf] dark_frame unit_noise None
           (of_Z 0) (of_Z 0) (of_Z 0) (of_Z 0) (of_Z 70) (of_Z 30)
           (fdiv (of_Z 3) (of_Z 10)) 0 fresh_world
         = (Raise LinAlgError, after_calls fresh_world [call; call])
         /\ Forall (fun col => length col = length (snd call)) (fst call)).
Proof.
  pose proof (fitters_raise_when_solver_keeps_failing (F := binary64)
                grid_coo_mat unit_integral failing_lstsq zero_nnls
                [flat_psf] [flat_psf] dark_frame unit_noise [[true]] None
                (of_Z 0) (of_Z 0) (of_Z 0) (of_Z 0) (of_Z 50) (of_Z 70)
                (of_Z 30) (fdiv (of_Z 3) (of_Z 10)) 0 0 fresh_world
                LinAlgError LinAlgError 1%nat ltac:(lia)
                ltac:(discriminate) ltac:(reflexivity) ltac:(reflexivity))
    as [Hfit Hbin].
  split.
  - apply Hfit, dark_frame_shapes_agree, one_pixel_mask.
  - apply Hbin; [|discriminate]. apply dark_frame_shapes_agree. exact I.
Defined.

(** The 1 x 1 kernel matrix of a fit with kernel radius 0. *)
Lemma fit_kernel_matrix_layout_witness :
  exists r w1 kvec,
    fit (F := binary64) grid_coo_mat unit_integral zero_lstsq zero_nnls
      [flat_psf] dark_frame unit_noise [[true]] (of_Z 0) (of_Z 0) (of_Z 50)
      (fdiv (of_Z 3) (of_Z 10)) 0 0 fresh_world = (Ok r, w1)
    /\ has_shape (1, 1)%nat (fit_kmat r)
    /\ getpix (fit_kmat r) 0 0 = nth_error kvec 0.
Proof.
  eassert (H : fit (F := binary64) grid_coo_mat unit_integral zero_lstsq
                 zero_nnls [flat_psf] dark_frame unit_noise [[true]]
                 (of_Z 0) (of_Z 0) (of_Z 50) (fdiv (of_Z 3) (of_Z 10)) 0 0
                 fresh_world = (Ok _, _))
    by (vm_compute; reflexivity).
  destruct (fit_kernel_matrix_layout _ _ _ _ _ _ _ _ _ _ _ _ _ _ _ _ _ H)
    as (xkern & xk & yk & kvec & eq_mat & res_vec & wa
        & _ & _ & _ & Hshape & Hentry).
  eexists _, _, kvec. split; [exact H|]. split; [exact Hshape|].
  exact (proj1 (Hentry 0%nat 0%nat ltac:(cbn; lia) ltac:(cbn; lia))).
Defined.

(** The two 1 x 1 kernel matrices of a binary fit with kernel radius 0. *)
Lemma fit_binary_result_layout_witness :
  exists res w1 kvec,
    fit_binary (F := binary64) grid_coo_mat unit_integral zero_lstsq
      zero_nnls [flat_psf] [flat_psf] dark_frame unit_noise None
      (of_Z 0) (of_Z 0) (of_Z 0) (of_Z 0) (of_Z 70) (of_Z 30)
      (fdiv (of_Z 3) (of_Z 10)) 0 fresh_world = (Ok res, w1)
    /\ getitem kvec (-1) = Ok (bin_bg res)
    /\ has_shape (1, 1)%nat (bin_kmat0 res)
    /\ has_shape (1, 1)%nat (bin_kmat1 res).
Proof.
  eassert (H : fit_binary (F := binary64) grid_coo_mat unit_integral
                 zero_lstsq zero_nnls [flat_psf] [flat_psf] dark_frame
                 unit_noise None (of_Z 0) (of_Z 0) (of_Z 0) (of_Z 0)
                 (of_Z 70) (of_Z 30) (fdiv (of_Z 3) (of_Z 10)) 0
                 fresh_world = (Ok _, _))
    by (vm_compute; reflexivity).
  destruct (fit_binary_result_layout _ _ _ _ _ _ _ _ _ _ _ _ _ _ _ _ _ _ _
              _ H)
    as (kvec & eq_mat & res_vec & wb & _ & Hbg & Hs0 & Hs1 & _).
  eexists _, _, kvec. split; [exact H|].
  split; [exact Hbg|]. split; [exact Hs0 | exact Hs1].
Defined.

(** A binary fit with two PSFs in each library. *)
Lemma fit_binary_needs_equal_libraries_witness :
  exists res w1,
    fit_binary (F := binary64) grid_coo_mat unit_integral zero_lstsq
      zero_nnls [flat_psf; flat_psf] [flat_psf; flat_psf] dark_frame
      unit_noise None (of_Z 0) (of_Z 0) (of_Z 0) (of_Z 0) (of_Z 70)
      (of_Z 30) (fdiv (of_Z 3) (of_Z 10)) 0 fresh_world = (Ok res, w1)
    /\ length (bin_coeff0 res) = 2%nat
    /\ length (bin_coeff1 res) = 2%nat.
Proof.
  eassert (H : fit_binary (F := binary64) grid_coo_mat unit_integral
                 zero_lstsq zero_nnls [flat_psf; flat_psf]
                 [flat_psf; flat_psf] dark_frame unit_noise None (of_Z 0)
                 (of_Z 0) (of_Z 0) (of_Z 0) (of_Z 70) (of_Z 30)
                 (fdiv (of_Z 3) (of_Z 10)) 0 fresh_world = (Ok _, _))
    by (vm_compute; reflexivity).
  assert (Hsolver : forall (k : nat) (eq_mat : matrix binary64)
                       (res_vec x : list binary64),
             zero_lstsq k eq_mat res_vec = Ok x ->
             length x = length eq_mat).
  { intros k eq_mat res_vec x E. unfold zero_lstsq in E.
    injection E as <-. apply length_map. }
  assert (Hint : forall l : list (psf_t binary64),
             length (unit_integral l) = length l).
  { intros l. apply length_map. }
  pose proof (fun Hlen =>
                fit_binary_needs_equal_libraries _ _ _ _ _ _ _ _ _ _ _ _ _
                  _ _ _ _ _ _ _ Hsolver Hint Hlen H) as Hthm.
  destruct (Hthm (le_n 2)) as (_ & H0 & H1).
  eexists _, _. split; [exact H|]. split; [exact H0 | exact H1].
Defined.

Local Open Scope R_scope.

(** A fit whose solver answers 1 for the single weight: nothing is
    printed and the coefficient is normalised. *)
Lemma fit_coefficients_are_normalized_witness :
  exists r w1 terms,
    fit (F := R) grid_coo_mat unit_integral ones_lstsq zero_nnls
      [flat_psf] dark_frame unit_noise [[true]] 0 0 50 (3 / 10) 0 1
      fresh_world = (Ok r, w1)
    /\ stdout w1 = []
    /\ broadcast_mul (unit_integral [flat_psf]) (fit_coeff r) = Ok terms
    /\ np_sum terms = 1.
Proof.
  assert (H : exists r w1,
             fit (F := R) grid_coo_mat unit_integral ones_lstsq zero_nnls
               [flat_psf] dark_frame unit_noise [[true]] 0 0 50 (3 / 10) 0 1
               fresh_world = (Ok r, w1)
             /\ stdout w1 = []).
  { lazy -[Rplus Rminus Rmult Rdiv Ropp IZR Rlt_dec Rle_dec Req_dec_T].
    destruct (Req_dec_T _ _) as [Hz|Hz]; [exfalso; lra|].
    eexists _, _. split; reflexivity. }
  destruct H as (r & w1 & Hrun & Hout).
  destruct (fit_coefficients_are_normalized _ _ _ _ _ _ _ _ _ _ _ _ _ _ _
              _ _ Hrun) as [(_ & terms & Ht & Hsum) | Hwarn].
  - exists r, w1, terms. repeat split; assumption.
  - rewrite Hout in Hwarn. discriminate.
Defined.

(** A binary fit over the reals on the dark one-pixel frame. *)
Lemma fit_binary_coefficients_are_normalized_witness :
  exists res w1 (w terms0 terms1 : list R),
    fit_binary (F := R) grid_coo_mat unit_integral ones_lstsq zero_nnls
      [flat_psf] [flat_psf] dark_frame unit_noise None 1 0 0 0 0 30
      (3 / 10) 0 fresh_world = (Ok res, w1)
    /\ broadcast_mul (unit_integral [flat_psf]) (slice w 0 1) = Ok terms0
    /\ broadcast_mul (unit_integral [flat_psf]) (slice w 1 (-1)) = Ok terms1.
Proof.
  eassert (Hrun : fit_binary (F := R) grid_coo_mat unit_integral ones_lstsq
                    zero_nnls [flat_psf] [flat_psf] dark_frame unit_noise
                    None 1 0 0 0 0 30 (3 / 10) 0 fresh_world = (Ok _, _))
    by (lazy -[Rplus Rminus Rmult Rdiv Ropp IZR Rlt_dec Rle_dec];
        reflexivity).
  destruct (fit_binary_coefficients_are_normalized _ _ _ _ _ _ _ _ _ _ _ _
              _ _ _ _ _ _ _ _ Hrun)
    as (w & eq_mat & res_vec & wa & wb & terms0 & terms1
        & _ & T0 & T1 & _).
  eexists _, _, w, terms0, terms1. split; [exact Hrun|].
  split; [exact T0 | exact T1].
Defined.

(** The only pixel of the one-pixel frame, centred, unmasked. *)
Lemma fit_aperture_is_masked_disk_witness :
  getpix (fit_aperture (F := R) grid_coo_mat dark_frame [[true]] 0 0 50)
    0 0 = Some true.
Proof.
  eassert (H : getpix (fit_aperture (F := R) grid_coo_mat dark_frame
                         [[true]] 0 0 50) 0 0 = Some _)
    by (lazy -[Rplus Rminus Rmult Rdiv Ropp IZR Rlt_dec Rle_dec];
        reflexivity).
  destruct (fit_aperture_is_masked_disk grid_coo_mat dark_frame [[true]]
              0 0 50 0%nat 0%nat _ ltac:(lra) H)
    as (x & y & m & Hx & Hy & Hm & Hiff).
  rewrite H. f_equal. apply Hiff.
  cbn in Hx, Hy, Hm.
  injection Hx as <-. injection Hy as <-. injection Hm as <-.
  split; [|reflexivity].
  replace ((0 - 0) * (0 - 0) + (0 - 0) * (0 - 0)) with 0 by ring.
  rewrite sqrt_0. lra.
Defined.

(** Entry 5 of the three-star field does not exist; entry -1 does. *)
Lemma rotate_entry_agrees_with_rotate_cat_witness :
  Syntstar.rotate_entry sky 5 0 = Raise IndexError
  /\ exists p, Syntstar.rotate_entry sky (-1) 0 = Ok p.
Proof.
  split.
  - apply (proj1 (proj2 (proj2 (proj2
             (rotate_entry_agrees_with_rotate_cat sky 0 5))))).
    right. unfold Syntstar.catsize. simpl. lia.
  - apply (proj2 (proj2 (proj2 (proj2
             (rotate_entry_agrees_with_rotate_cat sky 0 (-1)))))).
    unfold Syntstar.catsize. simpl. lia.
Defined.

(** Within half a pixel of the target of [sky] there is no background
    star; within two pixels there is the faint one. *)
Lemma brightest_is_max_within_radius_witness :
  Syntstar.brightest sky (1 / 2) = Ok 0
  /\ Syntstar.brightest sky 2 = Ok (1 / 10000).
Proof.
  split.
  - destruct (brightest_is_max_within_radius sky (1 / 2))
      as (v & Hb & Hz & _).
    rewrite Hb. f_equal. apply Hz.
    intros s [<-|[<-|[]]];
      cbn [Syntstar.xpos Syntstar.ypos]; lra.
  - destruct (brightest_is_max_within_radius sky 2)
      as (v & Hb & _ & Hmax).
    rewrite Hb. f_equal.
    destruct Hmax as [(s & Hin & Hnear & ->) _].
    + eexists. split; [right; left; reflexivity|].
      cbn [Syntstar.xpos Syntstar.ypos]. lra.
    + destruct Hin as [<-|[<-|[]]];
        cbn [Syntstar.xpos Syntstar.ypos Syntstar.fscale] in *;
        [exfalso; lra | reflexivity].
Defined.

(** The three-star field on its own 3 x 3 image, and a [target] before
    the start of the catalogue. *)
Lemma image_returns_requested_shape_witness :
  (exists img,
      Syntstar.image sky 0 0 0 (fun _ _ => 1) None 0 0 None 70 = Ok img
      /\ has_shape (3, 3)%nat img)
  /\ Syntstar.image sky 0 0 0 (fun _ _ => 1) None (-4) 0 None 70
     = Raise IndexError.
Proof.
  split.
  - apply (proj1 (image_returns_requested_shape sky 0 0 0 (fun _ _ => 1)
                    None 0 0 70)).
    unfold Syntstar.catsize. simpl. lia.
  - apply (proj2 (image_returns_requested_shape sky 0 0 0 (fun _ _ => 1)
                    None (-4) 0 70)).
    unfold Syntstar.catsize. simpl. lia.
Defined.

(** Star 3 of the three-star field does not exist; star -1 is star 2. *)
Lemma image_single_id_index_witness :
  Syntstar.image sky 0 0 0 (fun _ _ => 1) None 0 0 (Some 3%Z) 70
  = Raise IndexError
  /\ Syntstar.image sky 0 0 0 (fun _ _ => 1) None 0 0 (Some (-1)%Z) 70
     = Syntstar.image sky 0 0 0 (fun _ _ => 1) None 0 0 (Some 2%Z) 70.
Proof.
  split.
  - apply (proj1 (image_single_id_index sky 0 0 0 (fun _ _ => 1) None 0 0
                    3 70)).
    right. unfold Syntstar.catsize. simpl. lia.
  - apply (proj1 (proj2 (image_single_id_index sky 0 0 0 (fun _ _ => 1)
                           None 0 0 (-1) 70))).
    unfold Syntstar.catsize. simpl. lia.
Defined.

(** Two fields that differ in their target only, drawn without it. *)
Lemma image_ignores_skipped_entries_witness :
  Syntstar.image
    {| Syntstar.pxl_scl := 1;
       Syntstar.cat :=
         [ {| Syntstar.xpos := 0; Syntstar.ypos := 0;
              Syntstar.fscale := 1; Syntstar.Teff := 5800 |} ]
         ++ skipn 1 (Syntstar.cat sky);
       Syntstar.shape := (3, 3)%nat |}
    0 0 0 (fun _ _ => 1) None 1 0 None 70
  = Syntstar.image
      {| Syntstar.pxl_scl := 2;
         Syntstar.cat :=
           [ {| Syntstar.xpos := 7; Syntstar.ypos := 7;
                Syntstar.fscale := 3; Syntstar.Teff := 3000 |} ]
           ++ skipn 1 (Syntstar.cat sky);
         Syntstar.shape := (3, 3)%nat |}
      0 0 0 (fun _ _ => 1) None 1 0 None 70.
Proof.
  apply image_ignores_skipped_entries; [reflexivity | simpl; lia].
Defined.

(** With a flux limit of 2 no star of the three-star field is drawn. *)
Lemma image_of_faint_field_is_zero_witness :
  Syntstar.image sky 0 0 0 (fun _ _ => 1) None 0 2 None 70
  = Ok (Syntstar.zeros (3, 3)%nat).
Proof.
  apply (image_of_faint_field_is_zero sky 0 0 0 (fun _ _ => 1) None 0 2 70).
  - unfold Syntstar.catsize. simpl. lia.
  - intros n s Hn Hg.
    pose proof (getitem_ok_range _ _ _ Hg) as Hr. simpl in Hr.
    assert (Hcases : (n = 0 \/ n = 1 \/ n = 2)%Z) by lia.
    destruct Hcases as [-> | [-> | ->]]; cbn in Hg; injection Hg as <-;
      cbn [Syntstar.fscale]; lra.
Defined.

(** The three-star field without blur: one render. *)
Lemma rotblur_returns_requested_shape_witness :
  exists img,
    Syntstar.rotblur sky 0 0 0 0 (fun _ _ => 1) 1 None 0 0 None 70 = Ok img
    /\ has_shape (3, 3)%nat img.
Proof.
  apply (proj2 (rotblur_returns_requested_shape sky 0 0 0 0 (fun _ _ => 1)
                  1 None 0 0 None 70 ltac:(lra) ltac:(lra)
                  ltac:(simpl; lia)
                  ltac:(unfold Syntstar.valid_ids, Syntstar.catsize;
                        simpl; lia))).
Defined.

(** The smear trail of the three-star field has three entries. *)
Lemma smear_sums_columns_witness :
  exists trail,
    Syntstar.smear sky 0 0 0 0 (fun _ _ => 1) 1 None 0 70 = Ok trail
    /\ length trail = 3%nat.
Proof.
  destruct (smear_sums_columns sky 0 0 0 0 (fun _ _ => 1) 1 None 0 70
              ltac:(lra) ltac:(lra) ltac:(simpl; lia))
    as (rb & trail & _ & Hs & Hl & _).
  exists trail. split; [exact Hs | exact Hl].
Defined.

(** The corner pixel of the three-star field. *)
Lemma image_pixel_is_sum_of_stars_witness :
  exists img v,
    Syntstar.image sky 0 0 0 (fun _ _ => 1) None 0 0 None 70 = Ok img
    /\ getpix img 0 0 = Some v.
Proof.
  destruct (image_pixel_is_sum_of_stars sky 0 0 0 (fun _ _ => 1) None 0 0
              None 70 0 0
              ltac:(unfold Syntstar.valid_ids, Syntstar.catsize;
                    simpl; lia)
              ltac:(simpl; lia) ltac:(simpl; lia))
    as (img & Hi & Hp).
  eexists img, _. split; [exact Hi | exact Hp].
Defined.

(** A radius of 0, and a radius of 2 with no pass. *)
Lemma make_psf_without_a_pass_witness :
  PsfWorker.make_psf flat_spline_fit two_samples 0 3 2 = Raise ValueError
  /\ PsfWorker.make_psf flat_spline_fit two_samples 2 3 0
     = Raise UnboundLocalError.
Proof.
  split.
  - apply (proj1 (make_psf_without_a_pass flat_spline_fit two_samples 0
                    3 2)).
    lra.
  - apply (proj2 (make_psf_without_a_pass flat_spline_fit two_samples 2
                    3 0)); [lra | lia].
Defined.

(** The knots for a radius of 2 are -1, 0 and 1. *)
Lemma make_psf_unit_knots_witness :
  Np.linspace (- (2 - 1)) (2 - 1) (Np.int (2 * (2 - 1) + 1))
  = Ok [IZR (0 - (2 - 1)); IZR (1 - (2 - 1)); IZR (2 - (2 - 1))].
Proof.
  exact (proj1 (make_psf_unit_knots flat_spline_fit two_samples 2 3 2
                  ltac:(lia))).
Defined.

(** A plane through both calibration samples. *)
Lemma filter_pix_rejects_exact_fit_witness :
  PsfWorker.filter_pix (fun x _ => 1 + 4 * x) two_samples 3
  = Ok [false; false].
Proof.
  apply (filter_pix_rejects_exact_fit (fun x _ => 1 + 4 * x) two_samples 3).
  - discriminate.
  - intros p [<-|[<-|[]]];
      cbn [PsfWorker.px PsfWorker.py PsfWorker.pz]; lra.
Defined.

End MoreWitnesses.
